(** * Parametric 3D curves: ellipse, circle and helix

    A shallow embedding of [main.cpp].  The program instantiates every class
    template at [T = double], so the scalar type of the model is IEEE-754
    binary64, taken from the primitive floats of the prover: [+], [*] and [/]
    round to nearest, ties to even, exactly as the compiled code does on a
    target without extended precision or fused multiply-add.

    The two functions of <cmath> that the program calls, [cos] and [sin], are
    not part of the program.  They enter the model as an interface ([LibM])
    and the statements below hold for all implementations of it; where a
    statement depends on what [cos] and [sin] return, it says how accurate
    they are taken to be. *)

From Stdlib Require Import ZArith List String Ascii Floats Lia Bool DecimalString.
From Stdlib Require Import Sorted Permutation.
From Stdlib Require Import Reals Lra.
Import ListNotations.

Set Implicit Arguments.

(* ================================================================== *)
(** ** The scalar type [double] *)

Module Double.

Open Scope float_scope.

(** [M_PI] and [M_PI_4] of <cmath>: the doubles nearest to pi and pi/4. *)
Definition M_PI : float := 0x1.921fb54442d18p+1.
Definition M_PI_4 : float := 0x1.921fb54442d18p-1.

(** Conversion [int -> double]; exact for every 32-bit [int]. *)
Definition of_int (n : Z) : float :=
  if (n <? 0)%Z then - of_uint63 (Uint63.of_Z (- n)) else of_uint63 (Uint63.of_Z n).

Definition is_nan (x : float) : bool :=
  match Prim2SF x with S754_nan => true | _ => false end.

(** Neither a NaN nor an infinity. *)
Definition is_finite (x : float) : bool :=
  match Prim2SF x with
  | S754_zero _ | S754_finite _ _ _ => true
  | S754_infinity _ | S754_nan => false
  end.

End Double.

(** <cmath> as the program sees it. *)
Class LibM : Type := {
  cos : float -> float;
  sin : float -> float
}.

(* ================================================================== *)
(** ** Text output of a [double]

    [os << d] converts [d] as [printf] does: with [%.{p}f] when the stream's
    [fixed] flag is set and with [%.{p}g] otherwise, [p] being the stream's
    precision.  The conversion is exact: the binary value is scaled by a
    power of ten and rounded half-to-even to an integer. *)

Module Fmt.

Open Scope string_scope.
Open Scope Z_scope.

Definition digit_char (d : Z) : ascii := ascii_of_nat (48 + Z.to_nat d).

(** The [p] low decimal digits of [n], most significant first, before [acc]. *)
Fixpoint frac_digits (p : nat) (n : Z) (acc : string) : string :=
  match p with
  | O => acc
  | S p' => frac_digits p' (n / 10) (String (digit_char (n mod 10)) acc)
  end.

Definition int_digits (n : Z) : string :=
  NilZero.string_of_uint (N.to_uint (Z.to_N n)).

Definition round_half_even (num den : Z) : Z :=
  let q := num / den in
  let r := num mod den in
  match 2 * r ?= den with
  | Lt => q
  | Gt => q + 1
  | Eq => if Z.even q then q else q + 1
  end.

(** [m * 2^e] as a fraction. *)
Definition magnitude (m : positive) (e : Z) : Z * Z :=
  if 0 <=? e then (Zpos m * 2 ^ e, 1) else (Zpos m, 2 ^ (- e)).

(** [v * 10^k], for [k] of either sign. *)
Definition scale10 (v : Z * Z) (k : Z) : Z * Z :=
  let (n, d) := v in
  if 0 <=? k then (n * 10 ^ k, d) else (n, d * 10 ^ (- k)).

Definition sign_str (s : bool) : string := if s then "-" else "".

(** [n / 10^p] written with [p] digits after the point. *)
Definition fixed_digits (p : nat) (n : Z) : string :=
  let unit := 10 ^ Z.of_nat p in
  int_digits (n / unit) ++
  match p with
  | O => ""
  | _ => "." ++ frac_digits p (n mod unit) ""
  end.

(** [%.{p}f] *)
Definition fmt_fixed (p : nat) (x : float) : string :=
  match Prim2SF x with
  | S754_nan => "nan"
  | S754_infinity s => sign_str s ++ "inf"
  | S754_zero s => sign_str s ++ fixed_digits p 0
  | S754_finite s m e =>
      let (n, d) := scale10 (magnitude m e) (Z.of_nat p) in
      sign_str s ++ fixed_digits p (round_half_even n d)
  end.

(** [10^k <= v] *)
Definition le_pow10 (k : Z) (v : Z * Z) : bool :=
  let (n, d) := scale10 v (- k) in d <=? n.

Fixpoint log10_search (fuel : nat) (k : Z) (v : Z * Z) : Z :=
  match fuel with
  | O => k
  | S fuel' => if le_pow10 (k + 1) v then log10_search fuel' (k + 1) v else k
  end.

(** The decimal exponent of a positive double lies between -324 and 308. *)
Definition floor_log10 (v : Z * Z) : Z := log10_search 800 (-400) v.

Fixpoint strip_trailing_zeros (s : string) : string :=
  match s with
  | EmptyString => EmptyString
  | String c t =>
      match strip_trailing_zeros t with
      | EmptyString => if Ascii.eqb c "0" then EmptyString else String c EmptyString
      | t' => String c t'
      end
  end.

(** [v] rounded to [P] significant digits: the digits as an integer and the
    decimal exponent of the first one. *)
Definition general_digits (P : nat) (v : Z * Z) : Z * Z :=
  let X0 := floor_log10 v in
  let (n, d) := scale10 v (Z.of_nat P - 1 - X0) in
  let N := round_half_even n d in
  if 10 ^ Z.of_nat P <=? N then (N / 10, X0 + 1) else (N, X0).

Definition with_point (ip frac : string) : string :=
  match frac with
  | EmptyString => ip
  | _ => ip ++ "." ++ frac
  end.

Definition exponent_str (X : Z) : string :=
  "e" ++ (if X <? 0 then "-" else "+") ++
  (if Z.abs X <? 10 then "0" else "") ++ int_digits (Z.abs X).

(** [%.{prec}g]: style [f] when the exponent [X] satisfies [-4 <= X < P],
    style [e] otherwise; trailing zeros of the fraction are dropped. *)
Definition fmt_general (prec : nat) (x : float) : string :=
  let P := match prec with O => 1%nat | _ => prec end in
  match Prim2SF x with
  | S754_nan => "nan"
  | S754_infinity s => sign_str s ++ "inf"
  | S754_zero s => sign_str s ++ "0"
  | S754_finite s m e =>
      let (N, X) := general_digits P (magnitude m e) in
      sign_str s ++
      if (-4 <=? X) && (X <? Z.of_nat P) then
        let fd := Z.to_nat (Z.of_nat P - 1 - X) in
        let unit := 10 ^ Z.of_nat fd in
        with_point (int_digits (N / unit))
                   (strip_trailing_zeros (frac_digits fd (N mod unit) ""))
      else
        let unit := 10 ^ (Z.of_nat P - 1) in
        with_point (int_digits (N / unit))
                   (strip_trailing_zeros (frac_digits (P - 1) (N mod unit) ""))
        ++ exponent_str X
  end.

End Fmt.

(* ================================================================== *)
(** ** Output streams

    Of a [std::ostream] the program uses the [fixed] flag, the precision and
    the characters written so far.  A new stream, and [std::cout] when [main]
    starts, has the flag cleared and precision 6. *)

Module ostream.

Record t : Type := make {
  fixed : bool;
  precision : nat;
  buffer : string
}.

Definition init : t := {| fixed := false; precision := 6; buffer := "" |}.

Definition put_string (os : t) (s : string) : t :=
  {| fixed := fixed os; precision := precision os; buffer := buffer os ++ s |}.

Definition format_double (os : t) (d : float) : string :=
  if fixed os then Fmt.fmt_fixed (precision os) d
  else Fmt.fmt_general (precision os) d.

Definition put_double (os : t) (d : float) : t :=
  put_string os (format_double os d).

(** [os << std::fixed] and [os << std::setprecision(n)] *)
Definition set_fixed (os : t) : t :=
  {| fixed := true; precision := precision os; buffer := buffer os |}.

Definition setprecision (n : nat) (os : t) : t :=
  {| fixed := fixed os; precision := n; buffer := buffer os |}.

Definition newline : string := String (ascii_of_nat 10) "".

Definition endl (os : t) : t := put_string os newline.

End ostream.

Declare Scope stream_scope.
Delimit Scope stream_scope with stream.
Notation "os <<s str" := (ostream.put_string os str)
  (at level 50, left associativity) : stream_scope.
Notation "os <<d x" := (ostream.put_double os x)
  (at level 50, left associativity) : stream_scope.

(* ================================================================== *)
(** ** [vector3d<double>] *)

Module vector3d.

Record t : Type := make { x : float; y : float; z : float }.

(** [friend std::ostream &operator<<(std::ostream &os, const vector3d &rhs)]:
    writes in whatever format [os] is in. *)
Definition operator_shl (os : ostream.t) (rhs : t) : ostream.t :=
  (os <<s "{" <<d x rhs <<s "," <<d y rhs <<s "," <<d z rhs <<s "}")%stream.

(** [std::string str() const]: a stream of its own, set to [fixed] with
    precision 2. *)
Definition str (this : t) : string :=
  let ss := ostream.init in
  let ss := ostream.set_fixed ss in
  let ss := ostream.setprecision 2 ss in
  let ss := (ss <<s "{" <<d x this <<s "," <<d y this <<s "," <<d z this <<s "}")%stream in
  ostream.buffer ss.

End vector3d.

Notation "os <<v v" := (vector3d.operator_shl os v)
  (at level 50, left associativity) : stream_scope.

(* ================================================================== *)
(** ** The curve classes *)

Open Scope float_scope.

(** [curve3d<double>]: the abstract base, holding the anchor. *)
Module curve3d.

Record t : Type := make { position : vector3d.t }.

(** [curve3d(T x, T y, T z)] *)
Definition ctor (x y z : float) : t := {| position := vector3d.make x y z |}.

End curve3d.

(** [ellipse3d<double>] *)
Module ellipse3d.

Record t : Type := make { base : curve3d.t; a : float; b : float }.

(** [ellipse3d(T x, T y, T z, T a, T b)] *)
Definition ctor5 (x y z a b : float) : t :=
  {| base := curve3d.ctor x y z; a := a; b := b |}.

(** [ellipse3d(T x, T y, T a, T b)], delegating with [z = 0]. *)
Definition ctor4 (x y a b : float) : t := ctor5 x y 0 a b.

Definition position (this : t) : vector3d.t := curve3d.position (base this).

Section Methods.
Context {libm : LibM}.

Definition calculate (this : t) (angle : float) : vector3d.t :=
  vector3d.make
    (vector3d.x (position this) + a this * cos angle)
    (vector3d.y (position this) + b this * sin angle)
    (vector3d.z (position this)).

Definition derivative (this : t) (angle : float) : vector3d.t :=
  vector3d.make
    (a this * - sin angle)
    (b this * cos angle)
    0.

End Methods.

End ellipse3d.

(** [circle3d<double>]: an [ellipse3d] subobject and nothing else; both
    member functions are inherited. *)
Module circle3d.

Record t : Type := make { base : ellipse3d.t }.

(** [circle3d(T x, T y, T z, T r)] *)
Definition ctor4 (x y z r : float) : t := {| base := ellipse3d.ctor5 x y z r r |}.

(** [circle3d(T x, T y, T r)], delegating with [z = 0]. *)
Definition ctor3 (x y r : float) : t := ctor4 x y 0 r.

Section Methods.
Context {libm : LibM}.

Definition calculate (this : t) (angle : float) : vector3d.t :=
  ellipse3d.calculate (base this) angle.

Definition derivative (this : t) (angle : float) : vector3d.t :=
  ellipse3d.derivative (base this) angle.

End Methods.

End circle3d.

(** [helix3d<double>] *)
Module helix3d.

Record t : Type := make {
  base : curve3d.t;
  a : float;
  b : float;
  step : float;
  angle_start : float
}.

(** [helix3d(T x, T y, T z, T a, T b, T step, double angle_start)] *)
Definition ctor7 (x y z a b step angle_start : float) : t :=
  {| base := curve3d.ctor x y z; a := a; b := b; step := step;
     angle_start := angle_start |}.

(** [helix3d(T x, T y, T z, T r, T step)] *)
Definition ctor5 (x y z r step : float) : t := ctor7 x y z r r step 0.

Definition position (this : t) : vector3d.t := curve3d.position (base this).

Section Methods.
Context {libm : LibM}.

Definition calculate (this : t) (angle : float) : vector3d.t :=
  vector3d.make
    (vector3d.x (position this) + a this * cos angle)
    (vector3d.y (position this) + b this * sin angle)
    (vector3d.z (position this)
       + (angle_start this + angle) / (Double.M_PI * 2) * step this).

Definition derivative (this : t) (angle : float) : vector3d.t :=
  vector3d.make
    (a this * - sin angle)
    (b this * cos angle)
    (step this / (Double.M_PI * 2)).

End Methods.

End helix3d.

(** *** Objects behind a [curve3d<double>*]

    A pointer to the base class points to an object of one of the three
    concrete classes; a virtual call runs the member function of that class
    and [dynamic_cast<circle3d<double>*>] succeeds on a [circle3d] only. *)

Inductive object : Type :=
  | Ellipse3d (e : ellipse3d.t)
  | Circle3d (c : circle3d.t)
  | Helix3d (h : helix3d.t).

Definition calculate {libm : LibM} (o : object) (angle : float) : vector3d.t :=
  match o with
  | Ellipse3d e => ellipse3d.calculate e angle
  | Circle3d c => circle3d.calculate c angle
  | Helix3d h => helix3d.calculate h angle
  end.

Definition derivative {libm : LibM} (o : object) (angle : float) : vector3d.t :=
  match o with
  | Ellipse3d e => ellipse3d.derivative e angle
  | Circle3d c => circle3d.derivative c angle
  | Helix3d h => helix3d.derivative h angle
  end.

Definition dynamic_cast_circle3d (o : object) : option circle3d.t :=
  match o with
  | Circle3d c => Some c
  | _ => None
  end.

(* ================================================================== *)
(** ** [main] *)

(** *** The random source

    [dis(gen)] returns an [int] and advances the engine.  The engine is
    seeded from [std::random_device], so its state at the first draw is
    arbitrary; nothing below depends on the numbers drawn. *)

Class Random : Type := {
  generator : Type;
  dis : generator -> Z * generator
}.

Section Main.
Context {libm : LibM} {random : Random}.

(** Computations that draw random numbers. *)
Definition Gen (A : Type) : Type := generator -> A * generator.

Definition ret {A : Type} (a : A) : Gen A := fun g => (a, g).

Definition bind {A B : Type} (m : Gen A) (k : A -> Gen B) : Gen B :=
  fun g => let (a, g') := m g in k a g'.

Notation "x <- m ;; k" := (bind m (fun x => k))
  (at level 61, m at next level, right associativity).

(** One draw, converted to the [double] parameter it initialises. *)
Definition draw : Gen float :=
  fun g => let (n, g') := dis g in (Double.of_int n, g').

(** The three [make_shared] calls.  The order in which a call evaluates its
    arguments only decides which draw lands in which parameter. *)
Definition make_ellipse : Gen object :=
  x <- draw ;; y <- draw ;; a <- draw ;; b <- draw ;;
  ret (Ellipse3d (ellipse3d.ctor4 x y a b)).

Definition make_circle : Gen object :=
  x <- draw ;; y <- draw ;; r <- draw ;;
  ret (Circle3d (circle3d.ctor3 x y r)).

Definition make_helix : Gen object :=
  x <- draw ;; y <- draw ;; z <- draw ;; r <- draw ;; step <- draw ;;
  ret (Helix3d (helix3d.ctor5 x y z r step)).

(** The body of the generation loop: [switch (i % 3)]. *)
Definition make_curve (i : nat) : Gen object :=
  match (i mod 3)%nat with
  | 0%nat => make_ellipse
  | 1%nat => make_circle
  | _ => make_helix
  end.

(** [n] iterations of the loop starting at index [i], pushing onto [curves]. *)
Fixpoint generate_from (n i : nat) (curves : list object) : Gen (list object) :=
  match n with
  | O => ret curves
  | S n' => c <- make_curve i ;; generate_from n' (S i) (curves ++ [c])
  end.

(** [for (size_t i = 0; i < 100; i++)] *)
Definition generate : Gen (list object) := generate_from 100 0 [].

(** *** Printing every curve at [M_PI_4] *)

Definition print_curve (os : ostream.t) (curve : object) : ostream.t :=
  let angle := Double.M_PI_4 in
  let point := calculate curve angle in
  let derivative := derivative curve angle in
  ostream.endl
    (ostream.endl (os <<s "Point: " <<v point)%stream
       <<s "Derivative: " <<v derivative)%stream.

Definition print_curves (os : ostream.t) (curves : list object) : ostream.t :=
  fold_left print_curve curves os.

End Main.

(** *** Collecting and sorting the circles *)

Fixpoint collect_circles (curves : list object) : list circle3d.t :=
  match curves with
  | [] => []
  | curve :: rest =>
      match dynamic_cast_circle3d curve with
      | Some circle => circle :: collect_circles rest
      | None => collect_circles rest
      end
  end.

(** [circle->a], the radius. *)
Definition radius (c : circle3d.t) : float := ellipse3d.a (circle3d.base c).

(** The comparison handed to [std::sort]. *)
Definition radius_lt (a b : circle3d.t) : bool := radius a <? radius b.

(** [std::sort(first, last, comp)].  The standard requires [comp] to induce
    a strict weak ordering on the values sorted: [comp] is irreflexive and
    transitive, and so is the equivalence [!comp(a, b) && !comp(b, a)].
    Where the requirement fails the call has undefined behaviour; where it
    holds the result is fixed up to the order of equivalent elements, and
    [std_sort] yields it as an insertion sort does. *)
Section Sort.
Variable A : Type.
Variable lt : A -> A -> bool.

Definition equiv (x y : A) : bool := negb (lt x y) && negb (lt y x).

(** The requirement, on the values of [l]. *)
Definition strict_weak_ordering (l : list A) : bool :=
  forallb (fun x =>
    negb (lt x x)
    && forallb (fun y =>
         forallb (fun z =>
           implb (lt x y && lt y z) (lt x z)
           && implb (equiv x y && equiv y z) (equiv x z)) l) l) l.

Fixpoint insert (x : A) (l : list A) : list A :=
  match l with
  | [] => [x]
  | y :: t => if lt x y then x :: l else y :: insert x t
  end.

Fixpoint std_sort (l : list A) : list A :=
  match l with
  | [] => []
  | x :: t => insert x (std_sort t)
  end.

End Sort.

(** How a piece of the program ends.  [Undefined] is undefined behaviour:
    here, [std::sort] with a comparison that is no strict weak ordering of
    the radii (a NaN beside two different radii), or [front()] or [back()]
    of an empty vector, a read out of bounds. *)
Inductive outcome (A : Type) : Type :=
  | Normal (a : A)
  | Throws (what : string)
  | Undefined.

Arguments Normal {A} a.
Arguments Throws {A} what.
Arguments Undefined {A}.

(** [v.front()] and [v.back()]: [None] where the vector is empty and the call
    has no defined result. *)
Definition front {A : Type} (v : list A) : option A := hd_error v.

Definition back {A : Type} (v : list A) : option A := hd_error (rev v).

(** Lines 148 to 167: the circles of [curves], sorted by radius; the first
    and the last are printed with no test for emptiness, then the sum. *)
Definition report_circles (os : ostream.t) (curves : list object)
  : outcome ostream.t :=
  let circleContainer := collect_circles curves in
  if strict_weak_ordering radius_lt circleContainer then
    let circleContainer := std_sort radius_lt circleContainer in
    match front circleContainer, back circleContainer with
    | Some first, Some last =>
        let os := ostream.endl
          (os <<s "first: " <<d radius first <<s ", last: " <<d radius last)%stream in
        let totalSum :=
          fold_left (fun sum circle => sum + radius circle) circleContainer 0 in
        Normal (ostream.endl (os <<s "Total Sum of Radii: " <<d totalSum)%stream)
    | _, _ => Undefined
    end
  else Undefined.

(** [main], from the engine's state after seeding to the text on [std::cout]
    and the exit status. *)
Definition main {libm : LibM} {random : Random} (gen : generator)
  : outcome (string * Z) :=
  let (curves, _) := generate gen in
  let os := print_curves ostream.init curves in
  match report_circles os curves with
  | Normal os' => Normal (ostream.buffer os', 0%Z)
  | Throws what => Throws what
  | Undefined => Undefined
  end.

(** Two points agree within [tol] in every coordinate. *)
Definition close_to (tol : float) (p q : vector3d.t) : bool :=
  (abs (vector3d.x p - vector3d.x q) <=? tol) &&
  (abs (vector3d.y p - vector3d.y q) <=? tol) &&
  (abs (vector3d.z p - vector3d.z q) <=? tol).

(** The objects of [curves] that are circles, as a mask. *)
Definition is_circle (o : object) : bool :=
  match dynamic_cast_circle3d o with
  | Some _ => true
  | None => false
  end.

(** [s] is a decimal numeral with exactly two digits after the point. *)
Definition two_decimals (s : string) : Prop :=
  exists (neg : bool) (n d1 d2 : Z),
    (0 <= n /\ 0 <= d1 < 10 /\ 0 <= d2 < 10)%Z
    /\ s = (Fmt.sign_str neg ++ Fmt.int_digits n ++ "."
             ++ String (Fmt.digit_char d1) (String (Fmt.digit_char d2) ""))%string.

(** The double nearest to 1.005, the value the literal [1.005] denotes. *)
Definition d1_005 : float := 0x1.0147ae147ae14p+0.

(* ================================================================== *)
(** ** Notions used to describe what the program does *)

(** *** The order of doubles *)

(** Position of a float that is not a NaN in the order of [<], as a triple
    compared lexicographically. *)
Definition order_key (x : spec_float) : Z * Z * Z :=
  match x with
  | S754_infinity true => (-2, 0, 0)%Z
  | S754_finite true m e => (-1, - e, - Zpos m)%Z
  | S754_zero _ => (0, 0, 0)%Z
  | S754_nan => (0, 0, 0)%Z
  | S754_finite false m e => (1, e, Zpos m)%Z
  | S754_infinity false => (2, 0, 0)%Z
  end.

Definition lex_le (k1 k2 : Z * Z * Z) : Prop :=
  let '(a1, b1, c1) := k1 in
  let '(a2, b2, c2) := k2 in
  (a1 < a2 \/ (a1 = a2 /\ (b1 < b2 \/ (b1 = b2 /\ c1 <= c2))))%Z.

Definition lex_lt (k1 k2 : Z * Z * Z) : Prop :=
  let '(a1, b1, c1) := k1 in
  let '(a2, b2, c2) := k2 in
  (a1 < a2 \/ (a1 = a2 /\ (b1 < b2 \/ (b1 = b2 /\ c1 < c2))))%Z.

(** The order of radii that [radius_lt] sorts by, and the radii it orders. *)
Definition radius_le (a b : circle3d.t) : Prop := (radius a <=? radius b) = true.

Definition radius_ok (c : circle3d.t) : Prop := Double.is_nan (radius c) = false.

(** *** The generation loop *)

(** The class an object was created as: the value of [i % 3] in its
    iteration of the loop. *)
Definition kind (o : object) : nat :=
  match o with
  | Ellipse3d _ => 0
  | Circle3d _ => 1
  | Helix3d _ => 2
  end.

(** A parameter that came out of [dis(gen)], a
    [uniform_int_distribution<int>(1, 100)]: an integer from 1 to 100. *)
Definition drawn (x : float) : Prop :=
  exists n : Z, (1 <= n <= 100)%Z /\ x = Double.of_int n.

(** An object as the loop creates it. *)
Definition generated (o : object) : Prop :=
  match o with
  | Ellipse3d e =>
      exists x y a b, drawn x /\ drawn y /\ drawn a /\ drawn b
                      /\ e = ellipse3d.ctor4 x y a b
  | Circle3d c =>
      exists x y r, drawn x /\ drawn y /\ drawn r /\ c = circle3d.ctor3 x y r
  | Helix3d h =>
      exists x y z r step, drawn x /\ drawn y /\ drawn z /\ drawn r /\ drawn step
                           /\ h = helix3d.ctor5 x y z r step
  end.

(** The engine after [n] draws. *)
Fixpoint advance {random : Random} (n : nat) (g : generator) : generator :=
  match n with
  | O => g
  | S n' => advance n' (snd (dis g))
  end.

(** Draws made by the iterations [i], ..., [i + n - 1]: four for an ellipse,
    three for a circle, five for a helix. *)
Fixpoint draws (n i : nat) : nat :=
  match n with
  | O => 0
  | S n' => match (i mod 3)%nat with 0%nat => 4 | 1%nat => 3 | _ => 5 end + draws n' (S i)
  end.

(** *** Text written to a stream *)

(** [os'] is [os] with [text] appended, in the same format. *)
Definition appends (os os' : ostream.t) (text : string) : Prop :=
  ostream.fixed os' = ostream.fixed os
  /\ ostream.precision os' = ostream.precision os
  /\ ostream.buffer os' = (ostream.buffer os ++ text)%string.

(** A vector as [operator<<] writes it on a stream in the format of [os]. *)
Definition vector_text (os : ostream.t) (v : vector3d.t) : string :=
  "{" ++ ostream.format_double os (vector3d.x v)
      ++ "," ++ ostream.format_double os (vector3d.y v)
      ++ "," ++ ostream.format_double os (vector3d.z v) ++ "}".

(** The two lines [print_curve] writes for a curve, and the lines of a whole
    collection. *)
Definition curve_lines {libm : LibM} (os : ostream.t) (curve : object) : string :=
  "Point: " ++ vector_text os (calculate curve Double.M_PI_4) ++ ostream.newline
  ++ "Derivative: " ++ vector_text os (derivative curve Double.M_PI_4)
  ++ ostream.newline.

Fixpoint curves_lines {libm : LibM} (os : ostream.t) (curves : list object) : string :=
  match curves with
  | [] => ""
  | curve :: rest => curve_lines os curve ++ curves_lines os rest
  end.

(** The two lines [report_circles] writes, on a stream in the format of
    [os], for the radii [first] and [last] and the sum [total]. *)
Definition report_text (os : ostream.t) (first last total : float) : string :=
  "first: " ++ ostream.format_double os first
  ++ ", last: " ++ ostream.format_double os last ++ ostream.newline
  ++ "Total Sum of Radii: " ++ ostream.format_double os total ++ ostream.newline.

(** The sum [report_circles] computes: the radii added from the smallest on. *)
Definition total_sum (circles : list circle3d.t) : float :=
  fold_left (fun sum circle => sum + radius circle) (std_sort radius_lt circles) 0.

(** The sum of a list of integers. *)
Definition zsum (l : list Z) : Z := fold_right Z.add 0%Z l.

(** *** Small integers held in doubles *)

(** [f] holds at [lo], [lo + 1], ..., [lo + len - 1]. *)
Fixpoint forall_range (f : Z -> bool) (lo : Z) (len : nat) : bool :=
  match len with
  | O => true
  | S len' => f lo && forall_range f (lo + 1) len'
  end.

(** A partial sum of at most 32 radii plus one more radius is exact. *)
Definition sum_exact_check : bool :=
  forall_range (fun a =>
    forall_range (fun b =>
      PrimFloat.Leibniz.eqb (Double.of_int a + Double.of_int b) (Double.of_int (a + b)))
      1 100) 0 3201.

(** Radii compare as the integers they hold. *)
Definition leb_check : bool :=
  forall_range (fun a =>
    forall_range (fun b =>
      Bool.eqb (Double.of_int a <=? Double.of_int b) (a <=? b)%Z) 1 100) 1 100.

(** [Fmt.general_digits] and [Fmt.fmt_general] with the search for the
    decimal exponent started at [k0]. *)
Definition general_digits_from (k0 : Z) (fuel : nat) (P : nat) (v : Z * Z) : Z * Z :=
  let X0 := Fmt.log10_search fuel k0 v in
  let (n, d) := Fmt.scale10 v (Z.of_nat P - 1 - X0) in
  let N := Fmt.round_half_even n d in
  if (10 ^ Z.of_nat P <=? N)%Z then ((N / 10)%Z, (X0 + 1)%Z) else (N, X0).

Definition fmt_general_from (k0 : Z) (fuel : nat) (prec : nat) (x : float) : string :=
  let P := match prec with O => 1%nat | _ => prec end in
  match Prim2SF x with
  | S754_nan => "nan"
  | S754_infinity s => Fmt.sign_str s ++ "inf"
  | S754_zero s => Fmt.sign_str s ++ "0"
  | S754_finite s m e =>
      let (N, X) := general_digits_from k0 fuel P (Fmt.magnitude m e) in
      Fmt.sign_str s ++
      if ((-4 <=? X) && (X <? Z.of_nat P))%Z then
        let fd := Z.to_nat (Z.of_nat P - 1 - X) in
        let unit := (10 ^ Z.of_nat fd)%Z in
        Fmt.with_point (Fmt.int_digits (N / unit))
          (Fmt.strip_trailing_zeros (Fmt.frac_digits fd (N mod unit) ""))
      else
        let unit := (10 ^ (Z.of_nat P - 1))%Z in
        Fmt.with_point (Fmt.int_digits (N / unit))
          (Fmt.strip_trailing_zeros (Fmt.frac_digits (P - 1) (N mod unit) ""))
        ++ Fmt.exponent_str X
  end%string.

(** A fraction that is at least one. *)
Definition ge_one (v : Z * Z) : Prop := (0 < snd v <= fst v)%Z.

(** An integer from 1 to 3300 held in a double is at least one and prints,
    with six significant digits, as the integer. *)
Definition print_check : bool :=
  forall_range (fun n =>
    match Prim2SF (Double.of_int n) with
    | S754_finite s m e =>
        let (num, den) := Fmt.magnitude m e in
        (0 <? den)%Z && (den <=? num)%Z
    | _ => false
    end
    && String.eqb (fmt_general_from 0 400 6 (Double.of_int n)) (Fmt.int_digits n)) 1 3300.

(** *** Instances to run the program on

    An implementation of <cmath> and a random source, used where a statement
    is instantiated; [linear_random] yields 1 + (g mod 100) and moves on by
    37. *)
Definition identity_libm : LibM := {| cos := fun x => x; sin := fun x => x |}.

Definition linear_random : Random :=
  {| generator := Z; dis := fun g => (1 + g mod 100, g + 37)%Z |}.

(** *** Doubles as real numbers

    The roundings of [+], [*] and [/] are described with the real numbers:
    a finite double stands for the real [B2R], and [rounds v f] says that
    [f] is the double nearest to the real [v], ties to even, as
    [binary_round_aux] of the arithmetic of the prover computes it. *)

Local Open Scope R_scope.

(** The power [2^e], for any integer [e]. *)
Definition bpow (e : Z) : R := powerRZ 2 e.

(** [u] lies in [[m, m+1)], at the place [l] says. *)
Definition inbetween_int (m : Z) (u : R) (l : location) : Prop :=
  match l with
  | loc_Exact => u = IZR m
  | loc_Inexact c =>
      IZR m < u < IZR m + 1 /\
      match c with
      | Lt => u < IZR m + / 2
      | Eq => u = IZR m + / 2
      | Gt => IZR m + / 2 < u
      end
  end.

Definition shr_inv (mrs : shr_record) (u : R) : Prop :=
  (0 <= shr_m mrs)%Z /\ inbetween_int (shr_m mrs) u (loc_of_shr_record mrs).

(** [(m, e, l)] stands for the non-negative real [v]: [m] is the integer part
    of [v / 2^e], [l] the place of [v / 2^e] between [m] and [m + 1], and [e]
    is small enough for [m] to hold all the digits a double keeps. *)
Definition rep (v : R) (m e : Z) (l : location) : Prop :=
  (0 <= m)%Z
  /\ (e <= fexp prec emax (Zdigits2 m + e))%Z
  /\ inbetween_int m (v * bpow (- e)) l.

(** The mantissa and the exponent [binary_round_aux] ends with. *)
Definition round_pair (m e : Z) (l : location) : Z * Z :=
  let '(mrs', e') := shr_fexp prec emax m e l in
  let '(mrs'', e'') :=
    shr_fexp prec emax
      (round_nearest_even (shr_m mrs') (loc_of_shr_record mrs')) e' loc_Exact in
  (shr_m mrs'', e'').

(** The float of a mantissa and an exponent that came out of rounding. *)
Definition finish (s : bool) (o : Z * Z) : spec_float :=
  match fst o with
  | Z0 => S754_zero s
  | Zpos m => if (snd o <=? emax - prec)%Z then S754_finite s m (snd o) else S754_infinity s
  | Zneg _ => S754_nan
  end.

(** The order in which [round_pair] yields its results. *)
Definition ole (o o' : Z * Z) : Prop :=
  (fst o = 0)%Z
  \/ ((0 < fst o)%Z /\ (0 < fst o')%Z
      /\ (snd o < snd o' \/ (snd o = snd o' /\ fst o <= fst o'))%Z).

(** The real number a float stands for; 0 for what has none. *)
Definition B2R (x : spec_float) : R :=
  match x with
  | S754_finite s m e => (if s then - IZR (Zpos m) else IZR (Zpos m)) * bpow e
  | _ => 0
  end.

Definition finite_or_zero (x : spec_float) : Prop :=
  match x with
  | S754_zero _ | S754_finite _ _ _ => True
  | _ => False
  end.

Definition nonneg_sf (x : spec_float) : Prop :=
  match x with
  | S754_zero _ | S754_finite false _ _ | S754_infinity false => True
  | _ => False
  end.

Definition nonpos_sf (x : spec_float) : Prop :=
  match x with
  | S754_zero _ | S754_finite true _ _ | S754_infinity true => True
  | _ => False
  end.

(** [f] is what rounding the real [v] to a double gives. *)
Definition rounds (v : R) (f : spec_float) : Prop :=
  (v = 0 /\ exists s, f = S754_zero s)
  \/ (0 < v /\ exists m e l, rep v m e l /\ f = finish false (round_pair m e l))
  \/ (v < 0 /\ exists m e l, rep (- v) m e l /\ f = finish true (round_pair m e l)).

Definition valid_finite_sf (x : spec_float) : Prop :=
  valid_binary x = true /\ finite_or_zero x.

(** *** Accuracy of <cmath>

    What the program's results owe to [cos] and [sin] is stated for every
    implementation that is accurate: finite, and within [eps] of the real
    cosine and sine of its argument. *)
Definition accurate {libm : LibM} (eps : R) (x : float) : Prop :=
  Double.is_finite (cos x) = true /\ Double.is_finite (sin x) = true
  /\ Rabs (B2R (Prim2SF (cos x)) - Rtrigo_def.cos (B2R (Prim2SF x))) <= eps
  /\ Rabs (B2R (Prim2SF (sin x)) - Rtrigo_def.sin (B2R (Prim2SF x))) <= eps.

(** An idealised <cmath>: the real function of the argument, cut to a
    multiple of [2^-30]. *)
Definition ideal (f : R -> R) (x : float) : float :=
  SF2Prim (binary_normalize prec emax (up (f (B2R (Prim2SF x)) * bpow 30)) (-30) false).

Definition ideal_libm : LibM :=
  {| cos := ideal Rtrigo_def.cos; sin := ideal Rtrigo_def.sin |}.

Local Close Scope R_scope.

(* ================================================================== *)
(** * Properties *)

(** ** Facts of binary64 arithmetic *)

Lemma binary_round_aux_opp (s : bool) (m e : Z) (l : location) :
  SFopp (binary_round_aux prec emax s m e l)
  = binary_round_aux prec emax (negb s) m e l.
Proof.
  unfold binary_round_aux.
  destruct (shr_fexp prec emax m e l) as [mrs e'].
  destruct (shr_fexp prec emax _ e' loc_Exact) as [mrs' e''].
  destruct (shr_m mrs'); try reflexivity.
  destruct (e'' <=? emax - prec)%Z; reflexivity.
Qed.

Lemma SFmul_opp_r (x y : spec_float) :
  SF64mul x (SFopp y) = SFopp (SF64mul x y).
Proof.
  unfold SF64mul.
  destruct x as [sx | sx | | sx mx ex], y as [sy | sy | | sy my ey];
    simpl; try reflexivity;
    try (now rewrite negb_xorb_r);
    try (now rewrite <- negb_xorb_r).
  rewrite binary_round_aux_opp, negb_xorb_r. reflexivity.
Qed.

Lemma SFmul_opp_l (x y : spec_float) :
  SF64mul (SFopp x) y = SFopp (SF64mul x y).
Proof.
  unfold SF64mul.
  destruct x as [sx | sx | | sx mx ex], y as [sy | sy | | sy my ey];
    simpl; try reflexivity;
    try (now rewrite negb_xorb_l);
    try (now rewrite <- negb_xorb_l).
  rewrite binary_round_aux_opp, negb_xorb_l. reflexivity.
Qed.

(** Negation commutes with a product: rounding is symmetric in the sign. *)
Lemma mul_opp_r (x y : float) : x * - y = - (x * y).
Proof.
  apply Prim2SF_inj.
  now rewrite opp_spec, !mul_spec, opp_spec, SFmul_opp_r.
Qed.

Lemma mul_opp_l (x y : float) : - x * y = - (x * y).
Proof.
  apply Prim2SF_inj.
  now rewrite opp_spec, !mul_spec, opp_spec, SFmul_opp_l.
Qed.

Lemma mul_opp_swap (x y : float) : x * - y = - x * y.
Proof. now rewrite mul_opp_r, mul_opp_l. Qed.

Lemma SFeqb_refl (x : spec_float) : x <> S754_nan -> SFeqb x x = true.
Proof.
  intros Hx. unfold SFeqb.
  destruct x as [s | s | | s m e]; simpl; try reflexivity; try easy.
  - now destruct s.
  - destruct s; rewrite Z.compare_refl, Pos.compare_cont_refl; reflexivity.
Qed.

(** [x == x] holds in C++ for every [x] but a NaN. *)
Lemma eqb_refl (x : float) : Double.is_nan x = false -> (x =? x) = true.
Proof.
  unfold Double.is_nan. intros Hx. rewrite FloatAxioms.eqb_spec.
  apply SFeqb_refl. intros E. now rewrite E in Hx.
Qed.

Lemma two_pi_comm : Double.M_PI * 2 = 2 * Double.M_PI.
Proof. reflexivity. Qed.

Lemma digits2_shift (m : positive) (k : nat) :
  Zpos (digits2_pos (Nat.iter k xO m)) = (Zpos (digits2_pos m) + Z.of_nat k)%Z.
Proof.
  induction k as [| k IH]; [simpl; lia |].
  change (Nat.iter (S k) xO m) with (xO (Nat.iter k xO m)).
  cbn [digits2_pos]. rewrite Pos2Z.inj_succ, IH. lia.
Qed.

(** A product with 1 needs no rounding. *)
Lemma SFmul_one_l (y : spec_float) :
  valid_binary y = true -> SF64mul (Prim2SF 1) y = y.
Proof.
  intros Hv.
  change (Prim2SF 1) with (S754_finite false 4503599627370496 (-52)).
  destruct y as [s | s | | s m e]; try reflexivity.
  unfold SF64mul, SFmul. cbn [xorb].
  cbn [valid_binary] in Hv. unfold bounded, canonical_mantissa in Hv.
  apply andb_true_iff in Hv as [Hc Hb]. apply Z.eqb_eq in Hc.
  change (4503599627370496 * m)%positive with (Nat.iter 52 xO m).
  unfold binary_round_aux, shr_fexp.
  cbn [Zdigits2]. rewrite digits2_shift.
  replace (Z.pos (digits2_pos m) + Z.of_nat 52 + (-52 + e))%Z
    with (Z.pos (digits2_pos m) + e)%Z by lia.
  rewrite Hc.
  replace (e - (-52 + e))%Z with 52%Z by lia.
  cbn -[fexp prec emax Z.add Z.sub digits2_pos].
  replace (-52 + e + 52)%Z with e by lia.
  rewrite Hc, Z.sub_diag. cbn [shr shr_m]. now rewrite Hb.
Qed.

Lemma mul_one_l (x : float) : 1 * x = x.
Proof.
  apply Prim2SF_inj. rewrite mul_spec. apply SFmul_one_l, Prim2SF_valid.
Qed.

Lemma SFadd_zero_l (y : spec_float) :
  y <> S754_nan -> SFeqb (SF64add (S754_zero false) y) y = true.
Proof.
  intros Hy. destruct y as [s | s | | s m e]; try easy.
  - now destruct s.
  - now destruct s.
  - cbn. destruct s; now rewrite Z.compare_refl, Pos.compare_cont_refl.
Qed.

(** [0 + x == x]: the sum is [x], or [+0] where [x] is [-0]. *)
Lemma add_zero_l (x : float) : Double.is_nan x = false -> (0 + x =? x) = true.
Proof.
  unfold Double.is_nan. intros Hx.
  rewrite FloatAxioms.eqb_spec, add_spec. apply SFadd_zero_l.
  intros E. now rewrite E in Hx.
Qed.

(** ** Rounding

    The arithmetic of doubles rounds the real result of every operation to
    the nearest double.  Rounding is monotone, and so are [+], [/] by a
    positive double and [*] by a double of known sign. *)

Unset Implicit Arguments.
Local Open Scope R_scope.

(** ** Powers of two *)

Lemma bpow_gt_0 (e : Z) : 0 < bpow e.
Proof. apply powerRZ_lt. lra. Qed.

Lemma bpow_plus (e1 e2 : Z) : bpow (e1 + e2) = bpow e1 * bpow e2.
Proof. apply powerRZ_add. lra. Qed.

Lemma bpow_0 : bpow 0 = 1.
Proof. reflexivity. Qed.

Lemma bpow_1 : bpow 1 = 2.
Proof. unfold bpow. simpl. lra. Qed.

Lemma bpow_opp (e : Z) : bpow (- e) * bpow e = 1.
Proof. rewrite <- bpow_plus. replace (- e + e)%Z with 0%Z by lia. apply bpow_0. Qed.

Lemma bpow_succ (e : Z) : bpow (e + 1) = 2 * bpow e.
Proof. rewrite bpow_plus, bpow_1. lra. Qed.

Lemma bpow_le_nat (e : Z) (k : nat) : bpow e <= bpow (e + Z.of_nat k).
Proof.
  induction k as [| k IH].
  - replace (e + Z.of_nat 0)%Z with e by lia. lra.
  - replace (e + Z.of_nat (S k))%Z with ((e + Z.of_nat k) + 1)%Z by lia.
    rewrite bpow_succ. pose proof (bpow_gt_0 (e + Z.of_nat k)). lra.
Qed.

Lemma bpow_le (e1 e2 : Z) : (e1 <= e2)%Z -> bpow e1 <= bpow e2.
Proof.
  intros H. replace e2 with (e1 + Z.of_nat (Z.to_nat (e2 - e1)))%Z by lia.
  apply bpow_le_nat.
Qed.

Lemma bpow_lt (e1 e2 : Z) : (e1 < e2)%Z -> bpow e1 < bpow e2.
Proof.
  intros H. apply Rlt_le_trans with (bpow (e1 + 1)).
  - rewrite bpow_succ. pose proof (bpow_gt_0 e1). lra.
  - apply bpow_le. lia.
Qed.

Lemma bpow_lt_inv (e1 e2 : Z) : bpow e1 < bpow e2 -> (e1 < e2)%Z.
Proof.
  intros H. destruct (Z_lt_le_dec e1 e2) as [Hlt | Hge]; [exact Hlt |].
  apply bpow_le in Hge. lra.
Qed.

Lemma bpow_IZR (k : Z) : (0 <= k)%Z -> bpow k = IZR (2 ^ k).
Proof.
  intros Hk. rewrite <- (Z2Nat.id k Hk).
  induction (Z.to_nat k) as [| n IH].
  - reflexivity.
  - rewrite Nat2Z.inj_succ, Z.pow_succ_r by lia.
    unfold Z.succ. rewrite bpow_succ, IH, mult_IZR. reflexivity.
Qed.

(** ** Number of binary digits *)

Lemma digits2_pos_bounds (m : positive) :
  (2 ^ (Zpos (digits2_pos m) - 1) <= Zpos m < 2 ^ Zpos (digits2_pos m))%Z.
Proof.
  induction m as [m IH | m IH |]; cbn [digits2_pos].
  - rewrite Pos2Z.inj_succ. change (Z.pos m~1) with (2 * Z.pos m + 1)%Z.
    pose proof (Pos2Z.is_pos (digits2_pos m)) as Hd.
    revert IH Hd. generalize (Z.pos (digits2_pos m)). intros d IH Hd.
    replace (Z.succ d - 1)%Z with (Z.succ (d - 1)) by lia.
    rewrite (Z.pow_succ_r 2 d), (Z.pow_succ_r 2 (d - 1)) by lia. lia.
  - rewrite Pos2Z.inj_succ. change (Z.pos m~0) with (2 * Z.pos m)%Z.
    pose proof (Pos2Z.is_pos (digits2_pos m)) as Hd.
    revert IH Hd. generalize (Z.pos (digits2_pos m)). intros d IH Hd.
    replace (Z.succ d - 1)%Z with (Z.succ (d - 1)) by lia.
    rewrite (Z.pow_succ_r 2 d), (Z.pow_succ_r 2 (d - 1)) by lia. lia.
  - simpl. lia.
Qed.

Lemma Zdigits2_bounds (m : Z) :
  (0 < m)%Z -> bpow (Zdigits2 m - 1) <= IZR m < bpow (Zdigits2 m).
Proof.
  intros Hm. destruct m as [| p | p]; try lia. cbn [Zdigits2].
  pose proof (digits2_pos_bounds p) as [H1 H2].
  rewrite !bpow_IZR by lia. split; [apply IZR_le | apply IZR_lt]; assumption.
Qed.

Lemma Zdigits2_unique (m d : Z) :
  bpow (d - 1) <= IZR m < bpow d -> (0 < m)%Z -> Zdigits2 m = d.
Proof.
  intros [H1 H2] Hm. pose proof (Zdigits2_bounds m Hm) as [H3 H4].
  assert (d - 1 < Zdigits2 m)%Z by (apply bpow_lt_inv; lra).
  assert (Zdigits2 m - 1 < d)%Z by (apply bpow_lt_inv; lra).
  lia.
Qed.

(** ** Locations and right shifts *)

Lemma IZR_xO (p : positive) : IZR (Zpos p~0) = 2 * IZR (Zpos p).
Proof. change (Zpos p~0) with (2 * Zpos p)%Z. now rewrite mult_IZR. Qed.

Lemma IZR_xI (p : positive) : IZR (Zpos p~1) = 2 * IZR (Zpos p) + 1.
Proof. change (Zpos p~1) with (2 * Zpos p + 1)%Z. now rewrite plus_IZR, mult_IZR. Qed.

Lemma shr_record_of_loc_inv (m : Z) (l : location) (u : R) :
  (0 <= m)%Z -> inbetween_int m u l -> shr_inv (shr_record_of_loc m l) u.
Proof.
  intros Hm H. unfold shr_inv.
  destruct l as [| []]; cbn; auto.
Qed.

(** One shift halves the scaled value and keeps its place. *)
Lemma shr_1_inv (mrs : shr_record) (u : R) :
  shr_inv mrs u -> shr_inv (shr_1 mrs) (u / 2).
Proof.
  destruct mrs as [m r s]. unfold shr_inv.
  cbn [shr_m loc_of_shr_record].
  intros [Hm H].
  destruct m as [| [p | p |] | p]; try lia.
  - destruct r, s; cbn [shr_1 shr_m loc_of_shr_record orb inbetween_int] in H |- *;
      (split; [lia |]); lra.
  - destruct r, s; cbn [shr_1 shr_m loc_of_shr_record orb inbetween_int] in H |- *;
      rewrite IZR_xI in H; (split; [lia |]); lra.
  - destruct r, s; cbn [shr_1 shr_m loc_of_shr_record orb inbetween_int] in H |- *;
      rewrite IZR_xO in H; (split; [lia |]); lra.
  - destruct r, s; cbn [shr_1 shr_m loc_of_shr_record orb inbetween_int] in H |- *;
      (split; [lia |]); lra.
Qed.

Lemma iter_pos_shr_inv (p : positive) :
  forall (mrs : shr_record) (u : R),
    shr_inv mrs u -> shr_inv (SpecFloat.iter_pos shr_1 p mrs) (u * bpow (- Zpos p)).
Proof.
  induction p as [p IH | p IH |]; intros mrs u H; cbn [SpecFloat.iter_pos].
  - replace (u * bpow (- Zpos p~1))
      with (u / 2 * bpow (- Zpos p) * bpow (- Zpos p)).
    + apply IH, IH, shr_1_inv, H.
    + change (Zpos p~1) with (2 * Zpos p + 1)%Z.
      replace (- (2 * Zpos p + 1))%Z with (- Zpos p + (- Zpos p + - (1)))%Z by lia.
      rewrite !bpow_plus.
      replace (bpow (- (1))) with (/ 2).
      * field.
      * pose proof (bpow_opp 1) as H1. rewrite bpow_1 in H1.
        apply Rmult_eq_reg_r with 2; lra.
  - replace (u * bpow (- Zpos p~0))
      with (u * bpow (- Zpos p) * bpow (- Zpos p)).
    + apply IH, IH, H.
    + change (Zpos p~0) with (2 * Zpos p)%Z.
      replace (- (2 * Zpos p))%Z with (- Zpos p + - Zpos p)%Z by lia.
      rewrite !bpow_plus. ring.
  - replace (u * bpow (- Zpos 1)) with (u / 2).
    + apply shr_1_inv, H.
    + replace (bpow (- Zpos 1)) with (/ 2); [field |].
      pose proof (bpow_opp 1) as H1. rewrite bpow_1 in H1.
      apply Rmult_eq_reg_r with 2; lra.
Qed.

Lemma fexp_eq (x : Z) : fexp prec emax x = Z.max (x - 53) (-1074).
Proof. reflexivity. Qed.

Lemma fexp_ge_emin (x : Z) : (-1074 <= fexp prec emax x)%Z.
Proof. rewrite fexp_eq. lia. Qed.

Lemma inbetween_int_bounds (m : Z) (u : R) (l : location) :
  inbetween_int m u l -> IZR m <= u < IZR m + 1.
Proof. destruct l as [| c]; cbn; intros H; lra. Qed.

Lemma scaled_back (v : R) (e : Z) : v = v * bpow (- e) * bpow e.
Proof. rewrite Rmult_assoc, bpow_opp. ring. Qed.

Lemma shr_fexp_spec (v : R) (m e : Z) (l : location) :
  rep v m e l ->
  exists mrs,
    shr_fexp prec emax m e l = (mrs, fexp prec emax (Zdigits2 m + e))
    /\ shr_inv mrs (v * bpow (- fexp prec emax (Zdigits2 m + e))).
Proof.
  intros (Hm & He & Hin).
  unfold shr_fexp, shr.
  set (e1 := fexp prec emax (Zdigits2 m + e)) in *.
  destruct (e1 - e)%Z as [| p | p] eqn:En; try lia.
  - exists (shr_record_of_loc m l). split.
    + f_equal. lia.
    + replace e1 with e by lia. now apply shr_record_of_loc_inv.
  - exists (SpecFloat.iter_pos shr_1 p (shr_record_of_loc m l)). split.
    + f_equal. lia.
    + replace (v * bpow (- e1)) with (v * bpow (- e) * bpow (- Zpos p)).
      * apply iter_pos_shr_inv. now apply shr_record_of_loc_inv.
      * replace (- e1)%Z with (- e + - Zpos p)%Z by lia.
        rewrite bpow_plus. ring.
Qed.

(** The real that a representation stands for is below [2^(e1 + prec)], and
    at least [2^(e1 + prec - 1)] unless [e1] is the least exponent. *)
Lemma rep_upper (v : R) (m e : Z) (l : location) :
  rep v m e l -> v < bpow (fexp prec emax (Zdigits2 m + e) + 53).
Proof.
  intros (Hm & He & Hin). apply inbetween_int_bounds in Hin.
  rewrite (scaled_back v e).
  pose proof (bpow_gt_0 e) as He0.
  destruct (Z.eq_dec m 0) as [-> | Hne].
  - cbn [Zdigits2] in *. rewrite fexp_eq in *.
    apply Rlt_le_trans with (1 * bpow e).
    + apply Rmult_lt_compat_r; [exact He0 | cbn in Hin; lra].
    + rewrite Rmult_1_l. apply bpow_le. lia.
  - assert (Hpos : (0 < m)%Z) by lia.
    pose proof (Zdigits2_bounds m Hpos) as [_ Hd].
    assert (Hd' : IZR m + 1 <= bpow (Zdigits2 m)).
    { assert (0 < Zdigits2 m)%Z by (destruct m; cbn; lia).
      rewrite bpow_IZR in Hd |- * by lia.
      apply lt_IZR in Hd. rewrite <- plus_IZR. apply IZR_le. lia. }
    apply Rlt_le_trans with (bpow (Zdigits2 m) * bpow e).
    + apply Rmult_lt_compat_r; [exact He0 | lra].
    + rewrite <- bpow_plus. apply bpow_le. rewrite fexp_eq. lia.
Qed.

Lemma rep_lower (v : R) (m e : Z) (l : location) :
  rep v m e l ->
  (-1074 < fexp prec emax (Zdigits2 m + e))%Z ->
  bpow (fexp prec emax (Zdigits2 m + e) + 53 - 1) <= v.
Proof.
  intros (Hm & He & Hin) Hgt. apply inbetween_int_bounds in Hin.
  rewrite (scaled_back v e).
  pose proof (bpow_gt_0 e) as He0.
  destruct (Z.eq_dec m 0) as [-> | Hne].
  - cbn [Zdigits2] in *. rewrite fexp_eq in *. lia.
  - assert (Hpos : (0 < m)%Z) by lia.
    pose proof (Zdigits2_bounds m Hpos) as [Hd _].
    rewrite fexp_eq in *.
    replace (Z.max (Zdigits2 m + e - 53) (-1074) + 53 - 1)%Z
      with ((Zdigits2 m - 1) + e)%Z by lia.
    rewrite bpow_plus.
    apply Rmult_le_compat_r; [lra | lra].
Qed.

Lemma binary_round_aux_finish (s : bool) (m e : Z) (l : location) :
  binary_round_aux prec emax s m e l = finish s (round_pair m e l).
Proof.
  unfold binary_round_aux, round_pair, finish.
  destruct (shr_fexp prec emax m e l) as [mrs' e'].
  destruct (shr_fexp prec emax _ e' loc_Exact) as [mrs'' e''].
  reflexivity.
Qed.

Lemma round_nearest_even_bounds (m : Z) (l : location) :
  (m <= round_nearest_even m l <= m + 1)%Z.
Proof.
  unfold round_nearest_even. destruct l as [| []]; try lia.
  destruct (Z.even m); lia.
Qed.

Lemma Zdigits2_le (n k : Z) : (0 <= k)%Z -> (0 <= n < 2 ^ k)%Z -> (Zdigits2 n <= k)%Z.
Proof.
  intros Hk [Hn0 Hn].
  destruct (Z.eq_dec n 0) as [-> | Hne]; [cbn; lia |].
  assert (Hpos : (0 < n)%Z) by lia.
  pose proof (Zdigits2_bounds n Hpos) as [Hd _].
  assert (bpow (Zdigits2 n - 1) < bpow k).
  { apply Rle_lt_trans with (IZR n); [exact Hd |].
    rewrite bpow_IZR by lia. now apply IZR_lt. }
  apply bpow_lt_inv in H. lia.
Qed.

(** What [round_pair] computes, in terms of the real it rounds. *)
Lemma round_pair_spec (v : R) (m e : Z) (l : location) :
  rep v m e l ->
  exists (m1 : Z) (l1 : location),
    let e1 := fexp prec emax (Zdigits2 m + e) in
    let n := round_nearest_even m1 l1 in
    (0 <= m1)%Z
    /\ inbetween_int m1 (v * bpow (- e1)) l1
    /\ (n <= 2 ^ 53)%Z
    /\ round_pair m e l
       = if (n =? 2 ^ 53)%Z then ((2 ^ 52)%Z, (e1 + 1)%Z) else (n, e1).
Proof.
  intros Hrep.
  destruct (shr_fexp_spec v m e l Hrep) as (mrs & Hshr & Hm1 & Hin).
  pose proof (rep_upper v m e l Hrep) as Hup.
  set (e1 := fexp prec emax (Zdigits2 m + e)) in *.
  exists (shr_m mrs), (loc_of_shr_record mrs). cbv zeta.
  set (m1 := shr_m mrs) in *. set (l1 := loc_of_shr_record mrs) in *.
  set (n := round_nearest_even m1 l1).
  pose proof (round_nearest_even_bounds m1 l1) as Hn. fold n in Hn.
  assert (Hm1lt : (m1 < 2 ^ 53)%Z).
  { apply lt_IZR. rewrite <- bpow_IZR by lia.
    apply inbetween_int_bounds in Hin.
    apply Rle_lt_trans with (v * bpow (- e1)); [lra |].
    replace 53%Z with ((e1 + 53) + - e1)%Z by lia.
    rewrite bpow_plus.
    apply Rmult_lt_compat_r; [apply bpow_gt_0 | exact Hup]. }
  assert (He1 : (-1074 <= e1)%Z) by apply fexp_ge_emin.
  split; [exact Hm1 | split; [exact Hin | split; [lia |]]].
  unfold round_pair. rewrite Hshr. fold m1 l1 n.
  unfold shr_fexp, shr.
  destruct (Z.eqb_spec n (2 ^ 53)) as [E | NE].
  - rewrite E. cbn -[Z.add]. f_equal. 
    rewrite fexp_eq.
    replace (Z.max (54 + e1 - 53) (-1074) - e1)%Z with 1%Z by lia.
    reflexivity.
  - assert (Hd : (Zdigits2 n <= 53)%Z) by (apply Zdigits2_le; lia).
    rewrite fexp_eq.
    destruct (Z.max (Zdigits2 n + e1 - 53) (-1074) - e1)%Z as [| p | p] eqn:En;
      try lia; destruct l1 as [| []]; reflexivity.
Qed.

(** Rounding to an integer is monotone. *)
Lemma round_nearest_even_mono (m m' : Z) (u u' : R) (l l' : location) :
  inbetween_int m u l -> inbetween_int m' u' l' -> u <= u' ->
  (round_nearest_even m l <= round_nearest_even m' l')%Z.
Proof.
  intros H H' Hu.
  pose proof (inbetween_int_bounds _ _ _ H) as B.
  pose proof (inbetween_int_bounds _ _ _ H') as B'.
  pose proof (round_nearest_even_bounds m l) as R1.
  pose proof (round_nearest_even_bounds m' l') as R2.
  destruct (Z.lt_trichotomy m m') as [Hlt | [-> | Hgt]].
  - lia.
  - unfold round_nearest_even.
    destruct l as [| []], l' as [| []]; cbn in H, H'; try lia; try lra;
      destruct (Z.even m'); lia.
  - exfalso. assert (IZR m' + 1 <= IZR m).
    { rewrite <- plus_IZR. apply IZR_le. lia. }
    lra.
Qed.

Lemma round_pair_nonneg (v : R) (m e : Z) (l : location) :
  rep v m e l -> (0 <= fst (round_pair m e l))%Z.
Proof.
  intros Hrep.
  destruct (round_pair_spec v m e l Hrep) as (m1 & l1 & Hm1 & Hin & Hn & ->).
  pose proof (round_nearest_even_bounds m1 l1).
  destruct (_ =? _)%Z; cbn [fst]; lia.
Qed.

Lemma round_pair_mono (v v' : R) (m e m' e' : Z) (l l' : location) :
  rep v m e l -> rep v' m' e' l' -> v <= v' ->
  ole (round_pair m e l) (round_pair m' e' l').
Proof.
  intros Hrep Hrep' Hv.
  destruct (round_pair_spec v m e l Hrep) as (m1 & l1 & Hm1 & Hin & Hn & ->).
  destruct (round_pair_spec v' m' e' l' Hrep') as (m1' & l1' & Hm1' & Hin' & Hn' & ->).
  pose proof (rep_upper _ _ _ _ Hrep) as Hup.
  pose proof (rep_upper _ _ _ _ Hrep') as Hup'.
  pose proof (rep_lower _ _ _ _ Hrep) as Hlo.
  pose proof (rep_lower _ _ _ _ Hrep') as Hlo'.
  set (e1 := fexp prec emax (Zdigits2 m + e)) in *.
  set (e1' := fexp prec emax (Zdigits2 m' + e')) in *.
  set (n := round_nearest_even m1 l1) in *.
  set (n' := round_nearest_even m1' l1') in *.
  pose proof (round_nearest_even_bounds m1 l1) as Bn. fold n in Bn.
  pose proof (round_nearest_even_bounds m1' l1') as Bn'. fold n' in Bn'.
  assert (He : (e1 <= e1')%Z).
  { destruct (Z_le_gt_dec e1 e1') as [Hle | Hgt]; [exact Hle | exfalso].
    assert (-1074 <= e1')%Z by apply fexp_ge_emin.
    assert (bpow (e1' + 53) <= bpow (e1 + 53 - 1)) by (apply bpow_le; lia).
    assert (bpow (e1 + 53 - 1) <= v) by (apply Hlo; lia).
    lra. }
  destruct (Z.eq_dec e1 e1') as [Eq | Hne].
  - (* the same exponent *)
    rewrite <- Eq in *.
    assert (Hnn : (n <= n')%Z).
    { apply (round_nearest_even_mono m1 m1' _ _ l1 l1' Hin Hin').
      apply Rmult_le_compat_r; [pose proof (bpow_gt_0 (- e1)); lra | exact Hv]. }
    unfold ole.
    destruct (Z.eqb_spec n (2 ^ 53)), (Z.eqb_spec n' (2 ^ 53)); cbn [fst snd]; lia.
  - (* a greater exponent *)
    assert (Hlt : (e1 < e1')%Z) by lia.
    assert (-1074 <= e1)%Z by apply fexp_ge_emin.
    assert (Hbig : (2 ^ 52 <= m1')%Z).
    { assert (Hv' : bpow (e1' + 53 - 1) <= v') by (apply Hlo'; lia).
      apply inbetween_int_bounds in Hin'.
      assert (Hu : bpow 52 <= v' * bpow (- e1')).
      { replace 52%Z with ((e1' + 53 - 1) + - e1')%Z by lia.
        rewrite bpow_plus.
        apply Rmult_le_compat_r; [pose proof (bpow_gt_0 (- e1')); lra | exact Hv']. }
      rewrite bpow_IZR in Hu by lia.
      assert (IZR (2 ^ 52) < IZR (m1' + 1)) by (rewrite plus_IZR; lra).
      apply lt_IZR in H0. lia. }
    unfold ole.
    destruct (Z.eqb_spec n (2 ^ 53)), (Z.eqb_spec n' (2 ^ 53)); cbn [fst snd]; lia.
Qed.

(** ** From results of rounding to floats *)

Lemma SFleb_zero_l (s : bool) (f : spec_float) :
  SFleb (S754_zero s) f = true
  <-> match f with
      | S754_zero _ | S754_finite false _ _ | S754_infinity false => True
      | _ => False
      end.
Proof. destruct f as [b | b | | b m e]; try destruct b; cbn; intuition discriminate. Qed.

Lemma finish_mono_pos (o o' : Z * Z) :
  (0 <= fst o')%Z -> ole o o' -> SFleb (finish false o) (finish false o') = true.
Proof.
  destruct o as [n e], o' as [n' e']. unfold ole, finish. cbn [fst snd].
  intros Hn' [-> | (Hn & Hn'0 & Hlex)].
  - destruct n'; try lia; [reflexivity |].
    now destruct (e' <=? emax - prec)%Z.
  - destruct n as [| p | p]; try lia. destruct n' as [| p' | p']; try lia.
    destruct (Z.leb_spec e (emax - prec)), (Z.leb_spec e' (emax - prec));
      try reflexivity; try lia.
    unfold SFleb, SFcompare.
    destruct (Z.compare_spec e e'); try lia; try reflexivity.
    rewrite Pos.compare_cont_spec. cbn [Pos.switch_Eq].
    destruct (Pos.compare_spec p p'); try reflexivity; lia.
Qed.

Lemma finish_mono_neg (o o' : Z * Z) :
  (0 <= fst o')%Z -> ole o o' -> SFleb (finish true o') (finish true o) = true.
Proof.
  destruct o as [n e], o' as [n' e']. unfold ole, finish. cbn [fst snd].
  intros Hn' [-> | (Hn & Hn'0 & Hlex)].
  - destruct n'; try lia; [reflexivity |].
    now destruct (e' <=? emax - prec)%Z.
  - destruct n as [| p | p]; try lia. destruct n' as [| p' | p']; try lia.
    destruct (Z.leb_spec e (emax - prec)), (Z.leb_spec e' (emax - prec));
      try reflexivity; try lia.
    unfold SFleb, SFcompare.
    destruct (Z.compare_spec e' e); try lia; try reflexivity.
    rewrite Pos.compare_cont_spec. cbn [Pos.switch_Eq].
    destruct (Pos.compare_spec p' p); try reflexivity; lia.
Qed.

Lemma finish_sign_pos (o : Z * Z) :
  (0 <= fst o)%Z ->
  match finish false o with
  | S754_zero _ | S754_finite false _ _ | S754_infinity false => True
  | _ => False
  end.
Proof.
  destruct o as [n e]. unfold finish. cbn [fst snd]. intros Hn.
  destruct n as [| p | p]; [exact I | | lia]. now destruct (e <=? emax - prec)%Z.
Qed.

Lemma finish_sign_neg (o : Z * Z) :
  (0 <= fst o)%Z ->
  match finish true o with
  | S754_zero _ | S754_finite true _ _ | S754_infinity true => True
  | _ => False
  end.
Proof.
  destruct o as [n e]. unfold finish. cbn [fst snd]. intros Hn.
  destruct n as [| p | p]; [exact I | | lia]. now destruct (e <=? emax - prec)%Z.
Qed.

Lemma SFleb_nonpos_nonneg (f f' : spec_float) :
  nonpos_sf f -> nonneg_sf f' -> SFleb f f' = true.
Proof.
  destruct f as [s | s | | s m e], f' as [s' | s' | | s' m' e'];
    try destruct s; try destruct s'; cbn; intuition.
Qed.

Lemma rounds_nonneg (v : R) (f : spec_float) : rounds v f -> 0 <= v -> nonneg_sf f.
Proof.
  intros [(_ & s & ->) | [(_ & m & e & l & Hrep & ->) | (Hv & _)]] H0.
  - exact I.
  - apply finish_sign_pos. now apply round_pair_nonneg with v.
  - lra.
Qed.

Lemma rounds_nonpos (v : R) (f : spec_float) : rounds v f -> v <= 0 -> nonpos_sf f.
Proof.
  intros [(_ & s & ->) | [(Hv & _) | (_ & m & e & l & Hrep & ->)]] H0.
  - exact I.
  - lra.
  - apply finish_sign_neg. now apply round_pair_nonneg with (- v).
Qed.

(** Rounding is monotone. *)
Theorem rounds_mono (v v' : R) (f f' : spec_float) :
  rounds v f -> rounds v' f' -> v <= v' -> SFleb f f' = true.
Proof.
  intros Hr Hr' Hv.
  destruct (Rle_or_lt v 0) as [Hn | Hp].
  - destruct (Rle_or_lt 0 v') as [Hp' | Hn'].
    + apply SFleb_nonpos_nonneg; [now apply rounds_nonpos with v | now apply rounds_nonneg with v'].
    + (* both negative *)
      destruct Hr as [(E & _) | [(Hv0 & _) | (_ & m & e & l & Hrep & ->)]]; try lra.
      destruct Hr' as [(E & _) | [(Hv0 & _) | (_ & m' & e' & l' & Hrep' & ->)]]; try lra.
      apply finish_mono_neg.
      * now apply round_pair_nonneg with (- v).
      * apply round_pair_mono with (- v') (- v); auto. lra.
  - (* both positive *)
    destruct Hr as [(E & _) | [(_ & m & e & l & Hrep & ->) | (Hv0 & _)]]; try lra.
    destruct Hr' as [(E & _) | [(_ & m' & e' & l' & Hrep' & ->) | (Hv0 & _)]]; try lra.
    apply finish_mono_pos.
    + now apply round_pair_nonneg with v'.
    + now apply round_pair_mono with v v'.
Qed.

(** ** Valid floats *)

Lemma valid_finite (s : bool) (m : positive) (e : Z) :
  valid_binary (S754_finite s m e) = true ->
  fexp prec emax (Zpos (digits2_pos m) + e) = e /\ (e <= 971)%Z.
Proof.
  cbn [SpecFloat.valid_binary]. unfold bounded, canonical_mantissa.
  intros H. apply andb_true_iff in H as [H1 H2].
  apply Z.eqb_eq in H1. apply Z.leb_le in H2. split; [exact H1 | exact H2].
Qed.

Lemma inbetween_int_IZR (m k : Z) (l : location) :
  inbetween_int m (IZR k) l -> m = k /\ l = loc_Exact.
Proof.
  destruct l as [| c]; cbn.
  - intros H. apply eq_IZR in H. now split.
  - intros [[H1 H2] _]. apply lt_IZR in H1.
    rewrite <- plus_IZR in H2. apply lt_IZR in H2. lia.
Qed.

Lemma rep_exact (m : positive) (e : Z) :
  (e <= fexp prec emax (Zpos (digits2_pos m) + e))%Z ->
  rep (IZR (Zpos m) * bpow e) (Zpos m) e loc_Exact.
Proof.
  intros He. split; [lia | split; [exact He |]].
  cbn. rewrite Rmult_assoc, (Rmult_comm (bpow e)), bpow_opp. ring.
Qed.

Lemma IZR_pos_gt_0 (m : positive) : 0 < IZR (Zpos m).
Proof. apply IZR_lt. lia. Qed.

(** A double is the rounding of its own value. *)
Lemma round_pair_canonical (m : positive) (e : Z) :
  fexp prec emax (Zpos (digits2_pos m) + e) = e ->
  round_pair (Zpos m) e loc_Exact = (Zpos m, e).
Proof.
  intros Hc.
  assert (Hrep : rep (IZR (Zpos m) * bpow e) (Zpos m) e loc_Exact)
    by (apply rep_exact; lia).
  destruct (round_pair_spec _ _ _ _ Hrep) as (m1 & l1 & Hm1 & Hin & Hn & ->).
  cbn [Zdigits2] in *. rewrite Hc in *.
  replace (IZR (Zpos m) * bpow e * bpow (- e)) with (IZR (Zpos m)) in Hin
    by (rewrite Rmult_assoc, (Rmult_comm (bpow e)), bpow_opp; ring).
  apply inbetween_int_IZR in Hin as [-> ->].
  cbn [round_nearest_even] in *.
  assert (Hd : (Zpos (digits2_pos m) <= 53)%Z) by (rewrite fexp_eq in Hc; lia).
  pose proof (digits2_pos_bounds m) as [Hlo Hhi].
  assert ((2 ^ Zpos (digits2_pos m) <= 2 ^ 53)%Z) by (apply Z.pow_le_mono_r; lia).
  destruct (Z.eqb_spec (Zpos m) (2 ^ 53)); [lia | reflexivity].
Qed.

Lemma rounds_self (x : spec_float) :
  valid_binary x = true -> finite_or_zero x -> rounds (B2R x) x.
Proof.
  destruct x as [s | s | | s m e]; try easy; intros Hv _.
  - left. split; [reflexivity | now exists s].
  - apply valid_finite in Hv as [Hc He].
    pose proof (IZR_pos_gt_0 m) as Hm. pose proof (bpow_gt_0 e) as Hb.
    assert (Hf : forall b, finish b (round_pair (Zpos m) e loc_Exact) = S754_finite b m e).
    { intros b. rewrite round_pair_canonical by exact Hc.
      unfold finish. cbn [fst snd].
      destruct (Z.leb_spec e (emax - prec)); [reflexivity |].
      change (emax - prec)%Z with 971%Z in *. lia. }
    destruct s; cbn [B2R].
    + right. right. split; [nra |].
      exists (Zpos m), e, loc_Exact. split; [| now rewrite Hf].
      replace (- (- IZR (Zpos m) * bpow e)) with (IZR (Zpos m) * bpow e) by ring.
      apply rep_exact. lia.
    + right. left. split; [nra |].
      exists (Zpos m), e, loc_Exact. split; [| now rewrite Hf].
      apply rep_exact. lia.
Qed.

Lemma rounds_signed (s : bool) (a : R) (m e : Z) (l : location) :
  0 < a -> rep a m e l ->
  rounds (if s then - a else a) (binary_round_aux prec emax s m e l).
Proof.
  intros Ha Hrep. rewrite binary_round_aux_finish. destruct s.
  - right. right. split; [lra |]. exists m, e, l.
    split; [| reflexivity]. now replace (- - a) with a by ring.
  - right. left. split; [lra |]. now exists m, e, l.
Qed.

Lemma digits2_pos_lower (m : positive) (k : Z) :
  (2 ^ k <= Zpos m)%Z -> (0 <= k)%Z -> (k + 1 <= Zpos (digits2_pos m))%Z.
Proof.
  intros H Hk. pose proof (digits2_pos_bounds m) as [_ Hhi].
  assert (Hlt : (2 ^ k < 2 ^ Zpos (digits2_pos m))%Z) by lia.
  apply Z.pow_lt_mono_r_iff in Hlt; lia.
Qed.

Lemma digits2_pos_mul (mx my : positive) :
  (Zpos (digits2_pos mx) + Zpos (digits2_pos my) - 1
   <= Zpos (digits2_pos (mx * my)))%Z.
Proof.
  pose proof (digits2_pos_bounds mx) as [Hx _].
  pose proof (digits2_pos_bounds my) as [Hy _].
  set (dx := Zpos (digits2_pos mx)) in *. set (dy := Zpos (digits2_pos my)) in *.
  assert (Hdx : (1 <= dx)%Z) by (unfold dx; lia).
  assert (Hdy : (1 <= dy)%Z) by (unfold dy; lia).
  assert (H : (2 ^ (dx + dy - 2) <= Zpos (mx * my))%Z).
  { replace (dx + dy - 2)%Z with ((dx - 1) + (dy - 1))%Z by lia.
    rewrite Z.pow_add_r by lia. rewrite Pos2Z.inj_mul.
    apply Z.mul_le_mono_nonneg; try lia; apply Z.pow_nonneg; lia. }
  apply digits2_pos_lower in H; lia.
Qed.

Lemma canonical_cases (m : positive) (e : Z) :
  fexp prec emax (Zpos (digits2_pos m) + e) = e ->
  (Zpos (digits2_pos m) = 53 /\ -1074 <= e)%Z
  \/ (Zpos (digits2_pos m) < 53 /\ e = -1074)%Z.
Proof. rewrite fexp_eq. lia. Qed.

Lemma mul_exponent_ok (mx my : positive) (ex ey : Z) :
  fexp prec emax (Zpos (digits2_pos mx) + ex) = ex ->
  fexp prec emax (Zpos (digits2_pos my) + ey) = ey ->
  (ex + ey <= fexp prec emax (Zpos (digits2_pos (mx * my)) + (ex + ey)))%Z.
Proof.
  intros Hx Hy. apply canonical_cases in Hx, Hy.
  pose proof (digits2_pos_mul mx my) as Hd.
  rewrite fexp_eq.
  assert ((1 <= Zpos (digits2_pos mx))%Z) by lia.
  assert ((1 <= Zpos (digits2_pos my))%Z) by lia.
  lia.
Qed.

(** The product of two doubles is the rounding of the real product. *)
Theorem SFmul_rounds (x y : spec_float) :
  valid_binary x = true -> valid_binary y = true ->
  finite_or_zero x -> finite_or_zero y ->
  rounds (B2R x * B2R y) (SFmul prec emax x y).
Proof.
  destruct x as [sx | sx | | sx mx ex]; try easy;
    destruct y as [sy | sy | | sy my ey]; try easy; intros Hx Hy _ _;
    cbn [SFmul B2R].
  - left. split; [ring | eexists; reflexivity].
  - left. split; [ring | eexists; reflexivity].
  - left. split; [ring | eexists; reflexivity].
  - apply valid_finite in Hx as [Hx _]. apply valid_finite in Hy as [Hy _].
    set (a := IZR (Zpos (mx * my)) * bpow (ex + ey)).
    assert (Ha : 0 < a).
    { unfold a. apply Rmult_lt_0_compat; [apply IZR_pos_gt_0 | apply bpow_gt_0]. }
    assert (Hrep : rep a (Zpos (mx * my)) (ex + ey) loc_Exact).
    { apply rep_exact. now apply mul_exponent_ok. }
    pose proof (rounds_signed (xorb sx sy) _ _ _ _ Ha Hrep) as H.
    replace ((if sx then - IZR (Zpos mx) else IZR (Zpos mx)) * bpow ex *
             ((if sy then - IZR (Zpos my) else IZR (Zpos my)) * bpow ey))
      with (if xorb sx sy then - a else a); [exact H |].
    unfold a. rewrite Pos2Z.inj_mul, mult_IZR, bpow_plus.
    destruct sx, sy; cbn [xorb]; ring.
Qed.

Lemma bpow_inv (e : Z) : bpow (- e) = / bpow e.
Proof.
  pose proof (bpow_gt_0 e) as H. pose proof (bpow_opp e) as Ho.
  apply Rmult_eq_reg_r with (bpow e); [| lra].
  rewrite Ho. field. lra.
Qed.

Lemma div_pos_lt_half (x y : R) : 0 < y -> 2 * x < y -> x / y < / 2.
Proof.
  intros Hy H. apply Rmult_lt_reg_r with y; [exact Hy |].
  replace (x / y * y) with x by (field; lra). lra.
Qed.

Lemma div_pos_gt_half (x y : R) : 0 < y -> y < 2 * x -> / 2 < x / y.
Proof.
  intros Hy H. apply Rmult_lt_reg_r with y; [exact Hy |].
  replace (x / y * y) with x by (field; lra). lra.
Qed.

Lemma div_pos_lt_1 (x y : R) : 0 < y -> x < y -> x / y < 1.
Proof.
  intros Hy H. apply Rmult_lt_reg_r with y; [exact Hy |].
  replace (x / y * y) with x by (field; lra). lra.
Qed.

Lemma div_pos_gt_0 (x y : R) : 0 < y -> 0 < x -> 0 < x / y.
Proof. intros Hy Hx. apply Rdiv_lt_0_compat; assumption. Qed.

Lemma new_location_spec (q m2 r : Z) :
  (0 < m2)%Z -> (0 <= r < m2)%Z ->
  inbetween_int q (IZR (m2 * q + r) / IZR m2) (new_location m2 r).
Proof.
  intros Hm2 Hr.
  assert (Hy : 0 < IZR m2) by (apply IZR_lt; lia).
  assert (Hu : IZR (m2 * q + r) / IZR m2 = IZR q + IZR r / IZR m2).
  { rewrite plus_IZR, mult_IZR. field. lra. }
  rewrite Hu.
  assert (Hfrac : (r <> 0)%Z -> IZR q < IZR q + IZR r / IZR m2 < IZR q + 1).
  { intros Hne.
    assert (0 < IZR r) by (apply IZR_lt; lia).
    assert (IZR r < IZR m2) by (apply IZR_lt; lia).
    pose proof (div_pos_gt_0 _ _ Hy H). pose proof (div_pos_lt_1 _ _ Hy H0). lra. }
  unfold new_location, new_location_even, new_location_odd.
  destruct (Z.even m2) eqn:Ev; destruct (Z.eqb_spec r 0) as [-> | Hne].
  - cbn. unfold Rdiv. ring.
  - cbn [inbetween_int]. split; [now apply Hfrac |].
    destruct (Z.compare_spec (2 * r) m2) as [E | L | G].
    + rewrite <- E, mult_IZR. 
      assert (0 < IZR r) by (apply IZR_lt; lia).
      replace (IZR r / (2 * IZR r)) with (/ 2) by (field; lra). reflexivity.
    + assert (2 * IZR r < IZR m2) by (rewrite <- mult_IZR; apply IZR_lt; lia).
      pose proof (div_pos_lt_half _ _ Hy H). lra.
    + assert (IZR m2 < 2 * IZR r) by (rewrite <- mult_IZR; apply IZR_lt; lia).
      pose proof (div_pos_gt_half _ _ Hy H). lra.
  - cbn. unfold Rdiv. ring.
  - cbn [inbetween_int]. split; [now apply Hfrac |].
    assert (Hodd : (m2 <> 2 * r)%Z).
    { intros E. rewrite E, Z.even_mul in Ev. discriminate. }
    destruct (Z.compare_spec (2 * r + 1) m2) as [E | L | G].
    + assert (2 * IZR r < IZR m2) by (rewrite <- mult_IZR; apply IZR_lt; lia).
      pose proof (div_pos_lt_half _ _ Hy H). lra.
    + assert (2 * IZR r < IZR m2) by (rewrite <- mult_IZR; apply IZR_lt; lia).
      pose proof (div_pos_lt_half _ _ Hy H). lra.
    + assert (IZR m2 < 2 * IZR r) by (rewrite <- mult_IZR; apply IZR_lt; lia).
      pose proof (div_pos_gt_half _ _ Hy H). lra.
Qed.

Lemma SFdiv_core_binary_spec (mx my : positive) (ex ey : Z) :
  let '(mz, ez, lz) := SFdiv_core_binary prec emax (Zpos mx) ex (Zpos my) ey in
  rep (IZR (Zpos mx) * bpow ex / (IZR (Zpos my) * bpow ey)) mz ez lz.
Proof.
  unfold SFdiv_core_binary. cbn [Zdigits2].
  set (d1 := Zpos (digits2_pos mx)). set (d2 := Zpos (digits2_pos my)).
  set (F := fexp prec emax (d1 + ex - (d2 + ey))).
  set (e' := Z.min F (ex - ey)).
  set (s := (ex - ey - e')%Z).
  assert (Hs : (0 <= s)%Z) by (unfold s, e'; lia).
  set (m' := match s with Z0 => Zpos mx | Zpos _ => Z.shiftl (Zpos mx) s | Zneg _ => 0%Z end).
  assert (Hm' : m' = (Zpos mx * 2 ^ s)%Z).
  { unfold m'. destruct s as [| p | p] eqn:Es.
    - rewrite Z.pow_0_r. lia.
    - now rewrite Z.shiftl_mul_pow2 by lia.
    - lia. }
  assert (Hpow : (0 < 2 ^ s)%Z) by (apply Z.pow_pos_nonneg; lia).
  pose proof (Z_div_mod m' (Zpos my) eq_refl) as Hdiv.
  destruct (Z.div_eucl m' (Zpos my)) as [q r]. destruct Hdiv as [Hq Hr].
  assert (Hm0 : (0 <= m')%Z) by (rewrite Hm'; apply Z.mul_nonneg_nonneg; lia).
  assert (Hq0 : (0 <= q)%Z).
  { destruct (Z_lt_le_dec q 0) as [Hneg | Hpos]; [| exact Hpos].
    assert ((Zpos my * q <= Zpos my * (-1))%Z)
      by (apply Z.mul_le_mono_nonneg_l; lia).
    lia. }
  split; [exact Hq0 | split].
  - (* the exponent is small enough *)
    destruct (Z_le_gt_dec e' (-1074)) as [Hle | Hgt].
    + pose proof (fexp_ge_emin (Zdigits2 q + e')). lia.
    + assert (HFe : F = Z.max (d1 + ex - (d2 + ey) - 53) (-1074))
        by (unfold F; apply fexp_eq).
      assert (He'F : (e' <= F)%Z) by (unfold e'; lia).
      assert (HF : F = (d1 + ex - (d2 + ey) - 53)%Z) by lia.
      pose proof (digits2_pos_bounds mx) as [Hx _].
      pose proof (digits2_pos_bounds my) as [_ Hy].
      fold d1 in Hx. fold d2 in Hy.
      set (k := (d1 - 1 + s - d2)%Z).
      assert (Hk : (52 <= k)%Z) by (unfold k, s; lia).
      assert (Hd1 : (1 <= d1)%Z) by (unfold d1; lia).
      assert (Hd2 : (1 <= d2)%Z) by (unfold d2; lia).
      assert (Hlow : (2 ^ k * 2 ^ d2 <= m')%Z).
      { rewrite <- Z.pow_add_r by lia.
        replace (k + d2)%Z with ((d1 - 1) + s)%Z by (unfold k; lia).
        rewrite Z.pow_add_r by lia. rewrite Hm'.
        apply Z.mul_le_mono_nonneg_r; lia. }
      assert (Hk0 : (0 < 2 ^ k)%Z) by (apply Z.pow_pos_nonneg; lia).
      assert (Hqk : (2 ^ k <= q)%Z).
      { destruct (Z_lt_le_dec q (2 ^ k)) as [Hlt | Hge]; [| exact Hge].
        assert ((Zpos my * (q + 1) <= Zpos my * 2 ^ k)%Z)
          by (apply Z.mul_le_mono_nonneg_l; lia).
        assert ((Zpos my * 2 ^ k <= 2 ^ d2 * 2 ^ k)%Z)
          by (apply Z.mul_le_mono_nonneg_r; lia).
        lia. }
      destruct q as [| qp | qp]; try lia.
      apply digits2_pos_lower in Hqk; [| lia].
      cbn [Zdigits2]. rewrite fexp_eq. unfold k, s in Hqk. lia.
  - (* the quotient and its location *)
    replace (IZR (Zpos mx) * bpow ex / (IZR (Zpos my) * bpow ey) * bpow (- e'))
      with (IZR (Zpos my * q + r) / IZR (Zpos my)).
    + apply new_location_spec; lia.
    + rewrite <- Hq, Hm', mult_IZR, <- bpow_IZR by exact Hs.
      unfold s. replace (ex - ey - e')%Z with (ex + (- ey + - e'))%Z by lia.
      rewrite !bpow_plus, (bpow_inv ey).
      pose proof (bpow_gt_0 ey). pose proof (IZR_pos_gt_0 my).
      field. split; lra.
Qed.

(** The quotient of two doubles is the rounding of the real quotient. *)
Theorem SFdiv_rounds (x y : spec_float) :
  valid_binary x = true -> finite_or_zero x ->
  (exists s m e, y = S754_finite s m e) ->
  rounds (B2R x / B2R y) (SFdiv prec emax x y).
Proof.
  intros Hx Fx (sy & my & ey & ->).
  destruct x as [sx | sx | | sx mx ex]; try easy; cbn [SFdiv B2R].
  - left. split; [unfold Rdiv; ring | eexists; reflexivity].
  - pose proof (SFdiv_core_binary_spec mx my ex ey) as Hrep.
    destruct (SFdiv_core_binary prec emax (Zpos mx) ex (Zpos my) ey) as [[mz ez] lz].
    set (a := IZR (Zpos mx) * bpow ex / (IZR (Zpos my) * bpow ey)) in *.
    pose proof (bpow_gt_0 ex). pose proof (bpow_gt_0 ey).
    pose proof (IZR_pos_gt_0 mx). pose proof (IZR_pos_gt_0 my).
    assert (Ha : 0 < a).
    { unfold a. apply Rdiv_lt_0_compat; apply Rmult_lt_0_compat; assumption. }
    pose proof (rounds_signed (xorb sx sy) _ _ _ _ Ha Hrep) as H3.
    replace ((if sx then - IZR (Zpos mx) else IZR (Zpos mx)) * bpow ex /
             ((if sy then - IZR (Zpos my) else IZR (Zpos my)) * bpow ey))
      with (if xorb sx sy then - a else a); [exact H3 |].
    unfold a. destruct sx, sy; cbn [xorb]; field; split; lra.
Qed.

Lemma iter_xO (d m : positive) : Zpos (Pos.iter xO m d) = (Zpos m * 2 ^ Zpos d)%Z.
Proof.
  induction d as [| d IH] using Pos.peano_ind.
  - cbn [Pos.iter]. change (2 ^ 1)%Z with 2%Z. lia.
  - rewrite Pos.iter_succ, Pos2Z.inj_succ, Z.pow_succ_r by lia.
    change (Zpos (Pos.iter xO m d)~0) with (2 * Zpos (Pos.iter xO m d))%Z.
    rewrite IH. lia.
Qed.

Lemma shl_align_spec (mx : positive) (ex ex' : Z) :
  Zpos (fst (shl_align mx ex ex')) = (Zpos mx * 2 ^ (ex - Z.min ex ex'))%Z
  /\ snd (shl_align mx ex ex') = Z.min ex ex'.
Proof.
  unfold shl_align. destruct (ex' - ex)%Z as [| d | d] eqn:E; cbn [fst snd].
  - replace (ex - Z.min ex ex')%Z with 0%Z by lia. rewrite Z.pow_0_r. lia.
  - replace (ex - Z.min ex ex')%Z with 0%Z by lia. rewrite Z.pow_0_r. lia.
  - rewrite iter_xO. replace (ex - Z.min ex ex')%Z with (Zpos d) by lia. lia.
Qed.

Lemma digits2_pos_shift (m m' : positive) (k : Z) :
  (0 <= k)%Z -> Zpos m' = (Zpos m * 2 ^ k)%Z ->
  Zpos (digits2_pos m') = (Zpos (digits2_pos m) + k)%Z.
Proof.
  intros Hk Hm'.
  pose proof (digits2_pos_bounds m) as [Hlo Hhi].
  pose proof (digits2_pos_bounds m') as [Hlo' Hhi'].
  set (d := Zpos (digits2_pos m)) in *. set (d' := Zpos (digits2_pos m')) in *.
  assert (Hd : (1 <= d)%Z) by (unfold d; lia).
  assert (Hd' : (1 <= d')%Z) by (unfold d'; lia).
  assert (Hp : (0 < 2 ^ k)%Z) by (apply Z.pow_pos_nonneg; lia).
  assert (H1 : (2 ^ (d - 1 + k) <= Zpos m')%Z).
  { rewrite Z.pow_add_r, Hm' by lia. apply Z.mul_le_mono_nonneg_r; lia. }
  assert (H2 : (Zpos m' < 2 ^ (d + k))%Z).
  { rewrite Z.pow_add_r, Hm' by lia. apply Z.mul_lt_mono_pos_r; lia. }
  assert (H3 : (2 ^ (d - 1 + k) < 2 ^ d')%Z) by lia.
  assert (H4 : (2 ^ (d' - 1) < 2 ^ (d + k))%Z) by lia.
  apply Z.pow_lt_mono_r_iff in H3; [| lia | lia].
  apply Z.pow_lt_mono_r_iff in H4; [| lia | lia].
  lia.
Qed.

Lemma IZR_shift (m m' : positive) (e e' : Z) :
  (e' <= e)%Z -> Zpos m' = (Zpos m * 2 ^ (e - e'))%Z ->
  IZR (Zpos m') * bpow e' = IZR (Zpos m) * bpow e.
Proof.
  intros He Hm'. rewrite Hm', mult_IZR, <- bpow_IZR by lia.
  rewrite Rmult_assoc, <- bpow_plus. f_equal. f_equal. lia.
Qed.

Lemma binary_round_rounds (s : bool) (m : positive) (e : Z) :
  rounds (if s then - (IZR (Zpos m) * bpow e) else IZR (Zpos m) * bpow e)
         (binary_round prec emax s m e).
Proof.
  unfold binary_round.
  pose proof (shl_align_spec m e (fexp prec emax (Zpos (digits2_pos m) + e)))
    as [Hm He].
  destruct (shl_align m e (fexp prec emax (Zpos (digits2_pos m) + e)))
    as [mz ez]. cbn [fst snd] in Hm, He.
  assert (Hle : (ez <= e)%Z) by lia.
  rewrite <- He in Hm.
  rewrite <- (IZR_shift m mz e ez Hle Hm).
  apply rounds_signed.
  - apply Rmult_lt_0_compat; [apply IZR_pos_gt_0 | apply bpow_gt_0].
  - apply rep_exact.
    rewrite (digits2_pos_shift m mz (e - ez)) by (lia || exact Hm).
    replace (Zpos (digits2_pos m) + (e - ez) + ez)%Z
      with (Zpos (digits2_pos m) + e)%Z by lia.
    lia.
Qed.

Lemma binary_normalize_rounds (M e : Z) :
  rounds (IZR M * bpow e) (binary_normalize prec emax M e false).
Proof.
  destruct M as [| m | m]; cbn [binary_normalize].
  - left. split; [ring | now exists false].
  - apply (binary_round_rounds false).
  - replace (IZR (Zneg m) * bpow e) with (- (IZR (Zpos m) * bpow e)).
    + apply (binary_round_rounds true).
    + change (Zneg m) with (- Zpos m)%Z. rewrite opp_IZR. ring.
Qed.

Lemma B2R_aligned (s : bool) (m : positive) (e ez : Z) :
  (ez <= e)%Z ->
  IZR (cond_Zopp s (Zpos (fst (shl_align m e ez)))) * bpow ez
  = B2R (S754_finite s m e).
Proof.
  intros Hle. pose proof (shl_align_spec m e ez) as [Hm _].
  replace (Z.min e ez) with ez in Hm by lia.
  pose proof (IZR_shift m _ e ez Hle Hm) as H.
  cbn [B2R]. destruct s; cbn [cond_Zopp].
  - rewrite opp_IZR. transitivity (- (IZR (Zpos (fst (shl_align m e ez))) * bpow ez)); [ring | rewrite H; ring].
  - exact H.
Qed.

(** The sum of two doubles is the rounding of the real sum. *)
Theorem SFadd_rounds (x y : spec_float) :
  valid_binary x = true -> valid_binary y = true ->
  finite_or_zero x -> finite_or_zero y ->
  rounds (B2R x + B2R y) (SFadd prec emax x y).
Proof.
  destruct x as [sx | sx | | sx mx ex]; try easy;
    destruct y as [sy | sy | | sy my ey]; try easy; intros Hx Hy _ _.
  - left. split; [cbn; ring |]. cbn. destruct sx, sy; eexists; reflexivity.
  - replace (B2R (S754_zero sx) + B2R (S754_finite sy my ey))
      with (B2R (S754_finite sy my ey)) by (cbn [B2R]; ring).
    cbn [SFadd]. now apply rounds_self.
  - replace (B2R (S754_finite sx mx ex) + B2R (S754_zero sy))
      with (B2R (S754_finite sx mx ex)) by (cbn [B2R]; ring).
    cbn [SFadd]. now apply rounds_self.
  - cbn [SFadd].
    rewrite <- (B2R_aligned sx mx ex (Z.min ex ey)) by lia.
    rewrite <- (B2R_aligned sy my ey (Z.min ex ey)) by lia.
    rewrite <- Rmult_plus_distr_r, <- plus_IZR.
    apply binary_normalize_rounds.
Qed.

Lemma SFleb_finite_pos (m m' : positive) (e e' : Z) :
  SFleb (S754_finite false m e) (S754_finite false m' e') = true ->
  (e < e' \/ (e = e' /\ Zpos m <= Zpos m'))%Z.
Proof.
  unfold SFleb, SFcompare. rewrite Pos.compare_cont_spec. cbn [Pos.switch_Eq].
  destruct (Z.compare_spec e e'); destruct (Pos.compare_spec m m');
    cbn; try discriminate; intros _; lia.
Qed.

Lemma SFleb_finite_neg (m m' : positive) (e e' : Z) :
  SFleb (S754_finite true m e) (S754_finite true m' e') = true ->
  (e' < e \/ (e' = e /\ Zpos m' <= Zpos m))%Z.
Proof.
  unfold SFleb, SFcompare. rewrite Pos.compare_cont_spec. cbn [Pos.switch_Eq].
  destruct (Z.compare_spec e e'); destruct (Pos.compare_spec m m');
    cbn; try discriminate; intros _; lia.
Qed.

Lemma canonical_le (m m' : positive) (e e' : Z) :
  fexp prec emax (Zpos (digits2_pos m) + e) = e ->
  fexp prec emax (Zpos (digits2_pos m') + e') = e' ->
  (e < e' \/ (e = e' /\ Zpos m <= Zpos m'))%Z ->
  IZR (Zpos m) * bpow e <= IZR (Zpos m') * bpow e'.
Proof.
  intros Hc Hc' [Hlt | [-> Hle]].
  - apply canonical_cases in Hc, Hc'.
    assert (Hd' : Zpos (digits2_pos m') = 53%Z) by lia.
    assert (Hd : (Zpos (digits2_pos m) <= 53)%Z) by lia.
    pose proof (digits2_pos_bounds m) as [_ Hhi].
    pose proof (digits2_pos_bounds m') as [Hlo' _].
    rewrite Hd' in Hlo'. change (53 - 1)%Z with 52%Z in Hlo'.
    assert (Hm : (Zpos m < 2 ^ 53)%Z).
    { assert ((2 ^ Zpos (digits2_pos m) <= 2 ^ 53)%Z) by (apply Z.pow_le_mono_r; lia).
      lia. }
    apply IZR_lt in Hm. apply IZR_le in Hlo'.
    rewrite <- bpow_IZR in Hm, Hlo' by lia.
    pose proof (bpow_gt_0 e). pose proof (bpow_gt_0 e').
    assert (H1 : IZR (Zpos m) * bpow e <= bpow 53 * bpow e)
      by (apply Rmult_le_compat_r; lra).
    assert (H2 : bpow 52 * bpow e' <= IZR (Zpos m') * bpow e')
      by (apply Rmult_le_compat_r; lra).
    rewrite <- bpow_plus in H1, H2.
    assert (H3 : bpow (53 + e) <= bpow (52 + e')) by (apply bpow_le; lia).
    lra.
  - apply Rmult_le_compat_r; [pose proof (bpow_gt_0 e'); lra | now apply IZR_le].
Qed.

(** The order of doubles is the order of the reals they stand for. *)
Lemma SFleb_B2R (x y : spec_float) :
  valid_binary x = true -> valid_binary y = true ->
  finite_or_zero x -> finite_or_zero y ->
  SFleb x y = true -> B2R x <= B2R y.
Proof.
  destruct x as [sx | sx | | sx mx ex]; try easy;
    destruct y as [sy | sy | | sy my ey]; try easy; intros Hx Hy _ _ Hle;
    cbn [B2R].
  - pose proof (IZR_pos_gt_0 my). pose proof (bpow_gt_0 ey).
    destruct sy; [discriminate Hle |]. nra.
  - pose proof (IZR_pos_gt_0 mx). pose proof (bpow_gt_0 ex).
    destruct sx; [nra | discriminate Hle].
  - apply valid_finite in Hx as [Hx _]. apply valid_finite in Hy as [Hy _].
    pose proof (IZR_pos_gt_0 mx). pose proof (bpow_gt_0 ex).
    pose proof (IZR_pos_gt_0 my). pose proof (bpow_gt_0 ey).
    destruct sx, sy.
    + apply SFleb_finite_neg in Hle.
      pose proof (canonical_le my mx ey ex Hy Hx Hle). lra.
    + nra.
    + discriminate Hle.
    + apply SFleb_finite_pos in Hle.
      exact (canonical_le mx my ex ey Hx Hy Hle).
Qed.

Lemma rounds_not_nan (v : R) (f : spec_float) : rounds v f -> f <> S754_nan.
Proof.
  intros Hr ->. destruct (Rle_or_lt v 0) as [H | H].
  - exact (rounds_nonpos v _ Hr H).
  - apply (rounds_nonneg v _ Hr). lra.
Qed.

Lemma between_finite (x f y : spec_float) :
  finite_or_zero x -> finite_or_zero y ->
  SFleb x f = true -> SFleb f y = true -> finite_or_zero f.
Proof.
  destruct x as [sx | sx | | sx mx ex]; try easy;
    destruct y as [sy | sy | | sy my ey]; try easy;
    destruct f as [sf | sf | | sf mf ef]; try easy;
    try destruct sx; try destruct sy; destruct sf; intros _ _; cbn; easy.
Qed.

(** ** Monotonicity of the operations on valid doubles *)

Lemma SFadd_mono_finite (o p1 p2 : spec_float) :
  valid_finite_sf o -> valid_finite_sf p1 -> valid_finite_sf p2 ->
  SFleb p1 p2 = true ->
  SFleb (SFadd prec emax o p1) (SFadd prec emax o p2) = true.
Proof.
  intros [Vo Fo] [V1 F1] [V2 F2] Hle.
  apply rounds_mono with (B2R o + B2R p1) (B2R o + B2R p2).
  - now apply SFadd_rounds.
  - now apply SFadd_rounds.
  - pose proof (SFleb_B2R p1 p2 V1 V2 F1 F2 Hle). lra.
Qed.

Lemma SFleb_neg_inf (f : spec_float) :
  f <> S754_nan -> SFleb (S754_infinity true) f = true.
Proof. destruct f as [s | s | | s m e]; try easy; destruct s; easy. Qed.

Lemma SFleb_pos_inf (f : spec_float) :
  f <> S754_nan -> SFleb f (S754_infinity false) = true.
Proof. destruct f as [s | s | | s m e]; try easy; destruct s; easy. Qed.

Lemma SFadd_finite_not_nan (o p : spec_float) :
  valid_finite_sf o -> valid_binary p = true -> p <> S754_nan ->
  SFadd prec emax o p <> S754_nan.
Proof.
  intros [Vo Fo] Vp Hp.
  destruct p as [s | s | | s m e] eqn:Ep; try easy.
  - apply rounds_not_nan with (B2R o + B2R (S754_zero s)).
    now apply SFadd_rounds.
  - destruct o; easy.
  - apply rounds_not_nan with (B2R o + B2R (S754_finite s m e)).
    now apply SFadd_rounds.
Qed.

(** Adding to a finite double is monotone, overflow included. *)
Lemma SFadd_mono_r (o p1 p2 : spec_float) :
  valid_finite_sf o ->
  valid_binary p1 = true -> valid_binary p2 = true ->
  p1 <> S754_nan -> p2 <> S754_nan ->
  SFleb p1 p2 = true ->
  SFleb (SFadd prec emax o p1) (SFadd prec emax o p2) = true.
Proof.
  intros Ho V1 V2 N1 N2 Hle.
  assert (Fin : forall p, p <> S754_nan -> (exists s, p = S754_infinity s) \/ finite_or_zero p).
  { intros [s | s | | s m e] Hp; try easy; [now right | left; now exists s | now right]. }
  destruct (Fin p1 N1) as [[s1 ->] | F1]; destruct (Fin p2 N2) as [[s2 ->] | F2].
  - destruct Ho as [_ Fo]. destruct o; try easy; destruct s1, s2; easy.
  - destruct s1.
    + replace (SFadd prec emax o (S754_infinity true)) with (S754_infinity true)
        by (destruct Ho as [_ Fo]; destruct o; easy).
      apply SFleb_neg_inf. now apply SFadd_finite_not_nan.
    + destruct p2 as [s | s | | s m e]; try easy; destruct s; easy.
  - destruct s2.
    + destruct p1 as [s | s | | s m e]; try easy; destruct s; easy.
    + replace (SFadd prec emax o (S754_infinity false)) with (S754_infinity false)
        by (destruct Ho as [_ Fo]; destruct o; easy).
      apply SFleb_pos_inf. now apply SFadd_finite_not_nan.
  - apply SFadd_mono_finite; try easy.
Qed.

Lemma SFadd_mono_l (o p1 p2 : spec_float) :
  valid_finite_sf o -> valid_finite_sf p1 -> valid_finite_sf p2 ->
  SFleb p1 p2 = true ->
  SFleb (SFadd prec emax p1 o) (SFadd prec emax p2 o) = true.
Proof.
  intros [Vo Fo] [V1 F1] [V2 F2] Hle.
  apply rounds_mono with (B2R p1 + B2R o) (B2R p2 + B2R o).
  - now apply SFadd_rounds.
  - now apply SFadd_rounds.
  - pose proof (SFleb_B2R p1 p2 V1 V2 F1 F2 Hle). lra.
Qed.

Lemma SFmul_mono_l (c p1 p2 : spec_float) :
  valid_finite_sf c -> valid_finite_sf p1 -> valid_finite_sf p2 ->
  0 <= B2R c -> SFleb p1 p2 = true ->
  SFleb (SFmul prec emax p1 c) (SFmul prec emax p2 c) = true.
Proof.
  intros [Vc Fc] [V1 F1] [V2 F2] Hc Hle.
  apply rounds_mono with (B2R p1 * B2R c) (B2R p2 * B2R c).
  - now apply SFmul_rounds.
  - now apply SFmul_rounds.
  - pose proof (SFleb_B2R p1 p2 V1 V2 F1 F2 Hle).
    apply Rmult_le_compat_r; assumption.
Qed.

Lemma SFdiv_mono_l (m : positive) (e : Z) (p1 p2 : spec_float) :
  valid_finite_sf p1 -> valid_finite_sf p2 ->
  SFleb p1 p2 = true ->
  SFleb (SFdiv prec emax p1 (S754_finite false m e))
        (SFdiv prec emax p2 (S754_finite false m e)) = true.
Proof.
  intros [V1 F1] [V2 F2] Hle.
  set (c := S754_finite false m e).
  assert (Hc : 0 < B2R c).
  { cbn [B2R c]. apply Rmult_lt_0_compat; [apply IZR_pos_gt_0 | apply bpow_gt_0]. }
  apply rounds_mono with (B2R p1 / B2R c) (B2R p2 / B2R c).
  - apply SFdiv_rounds; try easy. now exists false, m, e.
  - apply SFdiv_rounds; try easy. now exists false, m, e.
  - pose proof (SFleb_B2R p1 p2 V1 V2 F1 F2 Hle).
    unfold Rdiv. apply Rmult_le_compat_r; [| assumption].
    apply Rlt_le, Rinv_0_lt_compat, Hc.
Qed.

(** ** Doubles of the program *)

Lemma two_pi_SF :
  Prim2SF (Double.M_PI * 2)%float = S754_finite false 7074237752028440 (-50).
Proof. vm_compute. reflexivity. Qed.

Lemma two_pi_ge_1 : 1 <= B2R (S754_finite false 7074237752028440 (-50)).
Proof.
  cbn [B2R]. pose proof (bpow_gt_0 (-50)) as Hp.
  assert (Ho : bpow 50 * bpow (-50) = 1) by (rewrite <- bpow_plus; exact bpow_0).
  rewrite (bpow_IZR 50) in Ho by lia.
  assert (Hle : IZR (2 ^ 50) <= IZR 7074237752028440) by (apply IZR_le; vm_compute; discriminate).
  assert (IZR (2 ^ 50) * bpow (-50) <= IZR 7074237752028440 * bpow (-50))
    by (apply Rmult_le_compat_r; lra).
  lra.
Qed.

Lemma prim_valid_finite (x : float) :
  Double.is_finite x = true -> valid_finite_sf (Prim2SF x).
Proof.
  unfold Double.is_finite. intros H. split; [apply Prim2SF_valid |].
  destruct (Prim2SF x); easy.
Qed.

Lemma finite_prim (x : float) :
  finite_or_zero (Prim2SF x) -> Double.is_finite x = true.
Proof. unfold Double.is_finite. destruct (Prim2SF x); easy. Qed.

Lemma add_finite_args (a b : float) :
  Double.is_finite (a + b)%float = true ->
  Double.is_finite a = true /\ Double.is_finite b = true.
Proof.
  unfold Double.is_finite. rewrite add_spec. unfold SF64add.
  destruct (Prim2SF a) as [sa | sa | | sa ma ea],
           (Prim2SF b) as [sb | sb | | sb mb eb];
    cbn [SFadd]; try (intros _; split; reflexivity); try discriminate.
  destruct sa, sb; discriminate.
Qed.

Lemma div_ge1_bounds (a c : R) :
  0 <= a -> 1 <= c -> (- a <= a / c <= a) /\ (- a <= - a / c <= a).
Proof.
  intros Ha Hc. unfold Rdiv.
  assert (Hi : 0 < / c) by (apply Rinv_0_lt_compat; lra).
  assert (Hic : / c * c = 1) by (field; lra).
  assert (Hi1 : / c <= 1) by nra.
  split; split; nra.
Qed.

Lemma SFdiv_ge1_finite (t : spec_float) (m : positive) (e : Z) :
  valid_finite_sf t -> 1 <= B2R (S754_finite false m e) ->
  finite_or_zero (SFdiv prec emax t (S754_finite false m e)).
Proof.
  intros [Vt Ft] Hc. destruct t as [s | s | | s mt et] eqn:Et; try easy.
  set (c := S754_finite false m e) in *.
  set (tp := S754_finite false mt et). set (tn := S754_finite true mt et).
  assert (Vp : valid_binary tp = true) by exact Vt.
  assert (Vn : valid_binary tn = true) by exact Vt.
  assert (Hd : rounds (B2R (S754_finite s mt et) / B2R c)
                      (SFdiv prec emax (S754_finite s mt et) c)).
  { apply SFdiv_rounds; try easy. now exists false, m, e. }
  assert (Ha : 0 <= IZR (Zpos mt) * bpow et).
  { apply Rlt_le, Rmult_lt_0_compat; [apply IZR_pos_gt_0 | apply bpow_gt_0]. }
  destruct (div_ge1_bounds _ _ Ha Hc) as [Hpos Hneg].
  apply between_finite with tn tp; [exact I | exact I | |].
  - apply rounds_mono with (B2R tn) (B2R (S754_finite s mt et) / B2R c);
      [now apply rounds_self | exact Hd |].
    cbn [B2R tn]. destruct s.
    + replace (- IZR (Zpos mt) * bpow et) with (- (IZR (Zpos mt) * bpow et)) by ring. lra.
    + replace (- IZR (Zpos mt) * bpow et) with (- (IZR (Zpos mt) * bpow et)) by ring. lra.
  - apply rounds_mono with (B2R (S754_finite s mt et) / B2R c) (B2R tp);
      [exact Hd | now apply rounds_self |].
    cbn [B2R tp]. destruct s.
    + replace (- IZR (Zpos mt) * bpow et) with (- (IZR (Zpos mt) * bpow et)) by ring. lra.
    + lra.
Qed.

Lemma prim_nonneg (x : float) :
  Double.is_finite x = true -> (0 <=? x)%float = true -> 0 <= B2R (Prim2SF x).
Proof.
  intros Hf Hle. rewrite leb_spec in Hle.
  destruct (prim_valid_finite x Hf) as [V F].
  change (Prim2SF 0%float) with (S754_zero false) in Hle.
  exact (SFleb_B2R (S754_zero false) (Prim2SF x) eq_refl V I F Hle).
Qed.

(** ** Values that need no rounding *)

Lemma binary_round_exact (s : bool) (m : positive) (e : Z) :
  (fexp prec emax (Zpos (digits2_pos m) + e) <= e)%Z ->
  (Zpos (digits2_pos m) + e <= 1024)%Z ->
  exists mz ez,
    binary_round prec emax s m e = S754_finite s mz ez
    /\ valid_binary (S754_finite s mz ez) = true
    /\ IZR (Zpos mz) * bpow ez = IZR (Zpos m) * bpow e.
Proof.
  intros Hf Hr. unfold binary_round.
  pose proof (shl_align_spec m e (fexp prec emax (Zpos (digits2_pos m) + e)))
    as [Hm He].
  destruct (shl_align m e (fexp prec emax (Zpos (digits2_pos m) + e)))
    as [mz ez]. cbn [fst snd] in Hm, He.
  assert (Hez : ez = fexp prec emax (Zpos (digits2_pos m) + e)) by lia.
  assert (Hle : (ez <= e)%Z) by lia.
  rewrite <- He in Hm.
  assert (Hd : Zpos (digits2_pos mz) = (Zpos (digits2_pos m) + (e - ez))%Z)
    by (apply digits2_pos_shift; [lia | exact Hm]).
  assert (Hc : fexp prec emax (Zpos (digits2_pos mz) + ez) = ez).
  { rewrite Hd. replace (Zpos (digits2_pos m) + (e - ez) + ez)%Z
      with (Zpos (digits2_pos m) + e)%Z by lia. now symmetry. }
  assert (Hb : (ez <= 971)%Z) by (rewrite Hez, fexp_eq; lia).
  exists mz, ez. split; [| split].
  - rewrite binary_round_aux_finish, round_pair_canonical by exact Hc.
    unfold finish. cbn [fst snd].
    destruct (Z.leb_spec ez (emax - prec)); [reflexivity |].
    change (emax - prec)%Z with 971%Z in *. lia.
  - cbn [SpecFloat.valid_binary]. unfold bounded, canonical_mantissa.
    apply andb_true_iff. split; [now apply Z.eqb_eq | apply Z.leb_le; exact Hb].
  - now apply IZR_shift.
Qed.

Lemma binary_normalize_exact (k e : Z) :
  (fexp prec emax (Zdigits2 k + e) <= e)%Z ->
  (Zdigits2 k + e <= 1024)%Z ->
  valid_binary (binary_normalize prec emax k e false) = true
  /\ finite_or_zero (binary_normalize prec emax k e false)
  /\ B2R (binary_normalize prec emax k e false) = IZR k * bpow e.
Proof.
  intros Hf Hr. destruct k as [| m | m]; cbn [binary_normalize Zdigits2] in *.
  - split; [reflexivity | split; [exact I | cbn; ring]].
  - destruct (binary_round_exact false m e Hf Hr) as (mz & ez & -> & Hv & Hval).
    split; [exact Hv | split; [exact I | exact Hval]].
  - destruct (binary_round_exact true m e Hf Hr) as (mz & ez & -> & Hv & Hval).
    split; [exact Hv | split; [exact I |]].
    cbn [B2R]. change (Zneg m) with (- Zpos m)%Z. rewrite opp_IZR.
    transitivity (- (IZR (Zpos mz) * bpow ez)); [ring | rewrite Hval; ring].
Qed.

Lemma Zdigits2_small (k n : Z) :
  (0 <= n)%Z -> (- 2 ^ n < k < 2 ^ n)%Z -> (Zdigits2 k <= n)%Z.
Proof.
  intros Hn Hk. destruct k as [| m | m]; cbn [Zdigits2].
  - exact Hn.
  - apply (Zdigits2_le (Zpos m) n Hn). lia.
  - apply (Zdigits2_le (Zpos m) n Hn). lia.
Qed.

(** ** Subtraction *)

Lemma B2R_aligned_sub (sx sy : bool) (mx my : positive) (ex ey : Z) :
  IZR (cond_Zopp sx (Zpos (fst (shl_align mx ex (Z.min ex ey))))
       - cond_Zopp sy (Zpos (fst (shl_align my ey (Z.min ex ey))))) 
  * bpow (Z.min ex ey)
  = B2R (S754_finite sx mx ex) - B2R (S754_finite sy my ey).
Proof.
  rewrite <- (B2R_aligned sx mx ex (Z.min ex ey)) by lia.
  rewrite <- (B2R_aligned sy my ey (Z.min ex ey)) by lia.
  rewrite minus_IZR. ring.
Qed.

(** The difference of two doubles is the rounding of the real difference. *)
Theorem SFsub_rounds (x y : spec_float) :
  valid_binary x = true -> valid_binary y = true ->
  finite_or_zero x -> finite_or_zero y ->
  rounds (B2R x - B2R y) (SFsub prec emax x y).
Proof.
  destruct x as [sx | sx | | sx mx ex]; try easy;
    destruct y as [sy | sy | | sy my ey]; try easy; intros Hx Hy _ _.
  - left. split; [cbn; ring |]. cbn. destruct sx, sy; eexists; reflexivity.
  - replace (B2R (S754_zero sx) - B2R (S754_finite sy my ey))
      with (B2R (S754_finite (negb sy) my ey))
      by (cbn [B2R]; destruct sy; cbn [negb]; ring).
    cbn [SFsub]. apply rounds_self; [exact Hy | exact I].
  - replace (B2R (S754_finite sx mx ex) - B2R (S754_zero sy))
      with (B2R (S754_finite sx mx ex)) by (cbn [B2R]; ring).
    cbn [SFsub]. now apply rounds_self.
  - cbn [SFsub]. rewrite <- B2R_aligned_sub.
    apply binary_normalize_rounds.
Qed.

Local Close Scope R_scope.
Set Implicit Arguments.

(** ** The order of doubles *)
Lemma SFleb_key (x y : spec_float) :
  x <> S754_nan -> y <> S754_nan ->
  (SFleb x y = true <-> lex_le (order_key x) (order_key y)).
Proof.
  intros Hx Hy. unfold SFleb, SFcompare.
  destruct x as [sx | sx | | sx mx ex], y as [sy | sy | | sy my ey];
    try easy;
    try destruct sx; try destruct sy; cbn [order_key lex_le];
    try (split; [intros _; lia | reflexivity]);
    try (split; [discriminate | lia]).
  - rewrite Pos.compare_cont_spec. cbn [Pos.switch_Eq].
    destruct (Z.compare_spec ex ey); destruct (Pos.compare_spec mx my);
      cbn; split; try discriminate; try reflexivity; try lia.
  - rewrite Pos.compare_cont_spec. cbn [Pos.switch_Eq].
    destruct (Z.compare_spec ex ey); destruct (Pos.compare_spec mx my);
      cbn; split; try discriminate; try reflexivity; try lia.
Qed.

Lemma SFltb_key (x y : spec_float) :
  x <> S754_nan -> y <> S754_nan ->
  (SFltb x y = true <-> lex_lt (order_key x) (order_key y)).
Proof.
  intros Hx Hy. unfold SFltb, SFcompare.
  destruct x as [sx | sx | | sx mx ex], y as [sy | sy | | sy my ey];
    try easy;
    try destruct sx; try destruct sy; cbn [order_key lex_lt];
    try (split; [intros _; lia | reflexivity]);
    try (split; [discriminate | lia]).
  - rewrite Pos.compare_cont_spec. cbn [Pos.switch_Eq].
    destruct (Z.compare_spec ex ey); destruct (Pos.compare_spec mx my);
      cbn; split; try discriminate; try reflexivity; try lia.
  - rewrite Pos.compare_cont_spec. cbn [Pos.switch_Eq].
    destruct (Z.compare_spec ex ey); destruct (Pos.compare_spec mx my);
      cbn; split; try discriminate; try reflexivity; try lia.
Qed.

Lemma is_nan_SF (x : float) : Double.is_nan x = false -> Prim2SF x <> S754_nan.
Proof. unfold Double.is_nan. intros H E. now rewrite E in H. Qed.

Lemma leb_trans (x y z : float) :
  Double.is_nan x = false -> Double.is_nan y = false -> Double.is_nan z = false ->
  (x <=? y) = true -> (y <=? z) = true -> (x <=? z) = true.
Proof.
  intros Hx Hy Hz. rewrite !leb_spec.
  apply is_nan_SF in Hx, Hy, Hz.
  rewrite !SFleb_key by assumption.
  destruct (order_key (Prim2SF x)) as [[a1 b1] c1],
           (order_key (Prim2SF y)) as [[a2 b2] c2],
           (order_key (Prim2SF z)) as [[a3 b3] c3].
  cbn [lex_le]. lia.
Qed.

Lemma ltb_leb (x y : float) :
  Double.is_nan x = false -> Double.is_nan y = false ->
  (x <? y) = true -> (x <=? y) = true.
Proof.
  intros Hx Hy. rewrite leb_spec, ltb_spec.
  apply is_nan_SF in Hx, Hy.
  rewrite SFleb_key, SFltb_key by assumption.
  destruct (order_key (Prim2SF x)) as [[a1 b1] c1],
           (order_key (Prim2SF y)) as [[a2 b2] c2].
  cbn [lex_le lex_lt]. lia.
Qed.

Lemma not_ltb_leb (x y : float) :
  Double.is_nan x = false -> Double.is_nan y = false ->
  (x <? y) = false -> (y <=? x) = true.
Proof.
  intros Hx Hy H. rewrite leb_spec. rewrite ltb_spec in H.
  apply is_nan_SF in Hx, Hy.
  apply SFleb_key; [assumption | assumption |].
  assert (Hn : ~ lex_lt (order_key (Prim2SF x)) (order_key (Prim2SF y))).
  { intros Hl. apply SFltb_key in Hl; [congruence | assumption | assumption]. }
  destruct (order_key (Prim2SF x)) as [[a1 b1] c1],
           (order_key (Prim2SF y)) as [[a2 b2] c2].
  cbn [lex_le lex_lt] in *. lia.
Qed.

Lemma leb_refl (x : float) : Double.is_nan x = false -> (x <=? x) = true.
Proof.
  intros Hx. rewrite leb_spec. apply is_nan_SF in Hx.
  apply SFleb_key; [assumption | assumption |].
  destruct (order_key (Prim2SF x)) as [[a1 b1] c1]. cbn [lex_le]. lia.
Qed.

(** ** Ellipse *)

(** C1: for every origin, every pair of semi-axes and every angle,
    [calculate] returns (ox + a cos t, oy + b sin t, oz) and [derivative]
    returns (-a sin t, b cos t, 0).  The constructor and both member
    functions are total: no value of [a] or [b] is rejected.  The source
    writes the first component of the derivative as [a * -sin(angle)]; in
    binary64 this is the same double as [(-a) * sin(angle)] and as
    [-(a * sin(angle))]. *)
Theorem ellipse_calculate_derivative :
  forall (libm : LibM) (ox oy oz a b angle : float),
    ellipse3d.calculate (ellipse3d.ctor5 ox oy oz a b) angle
      = vector3d.make (ox + a * cos angle) (oy + b * sin angle) oz
    /\ ellipse3d.derivative (ellipse3d.ctor5 ox oy oz a b) angle
      = vector3d.make (- a * sin angle) (b * cos angle) 0
    /\ - a * sin angle = - (a * sin angle).
Proof.
  intros libm ox oy oz a b angle.
  unfold ellipse3d.calculate, ellipse3d.derivative, ellipse3d.ctor5; simpl.
  split; [reflexivity | split].
  - f_equal. apply mul_opp_swap.
  - apply mul_opp_l.
Qed.

(** C3: the Z coordinate of a point of an ellipse is the Z coordinate of its
    anchor, whatever the anchor, the axes and the angle: the same double,
    and equal under [==] unless the anchor's Z is a NaN. *)
Theorem ellipse_calculate_z :
  forall (libm : LibM) (e : ellipse3d.t) (angle : float),
    vector3d.z (ellipse3d.calculate e angle) = vector3d.z (ellipse3d.position e)
    /\ (Double.is_nan (vector3d.z (ellipse3d.position e)) = false ->
        (vector3d.z (ellipse3d.calculate e angle)
           =? vector3d.z (ellipse3d.position e)) = true).
Proof.
  intros libm e angle. split.
  - reflexivity.
  - intros Hz. simpl. now apply eqb_refl.
Qed.

(** ** Circle *)

(** C4: a circle built from an anchor and a radius [r] holds the ellipse
    built from the same anchor with a = b = r, and [calculate] and
    [derivative] give the same vectors on both at every angle, called on the
    objects or through a pointer to the base class; this holds for the 3D
    and for the 2D anchor. *)
Theorem circle_is_ellipse :
  forall (libm : LibM) (x y z r angle : float),
    circle3d.base (circle3d.ctor4 x y z r) = ellipse3d.ctor5 x y z r r
    /\ circle3d.base (circle3d.ctor3 x y r) = ellipse3d.ctor4 x y r r
    /\ circle3d.calculate (circle3d.ctor4 x y z r) angle
       = ellipse3d.calculate (ellipse3d.ctor5 x y z r r) angle
    /\ circle3d.derivative (circle3d.ctor4 x y z r) angle
       = ellipse3d.derivative (ellipse3d.ctor5 x y z r r) angle
    /\ calculate (Circle3d (circle3d.ctor3 x y r)) angle
       = calculate (Ellipse3d (ellipse3d.ctor4 x y r r)) angle
    /\ derivative (Circle3d (circle3d.ctor3 x y r)) angle
       = derivative (Ellipse3d (ellipse3d.ctor4 x y r r)) angle.
Proof.
  intros libm x y z r angle.
  unfold circle3d.ctor3, circle3d.ctor4, ellipse3d.ctor4.
  unfold calculate, derivative, circle3d.calculate, circle3d.derivative.
  simpl. repeat split.
Qed.

(** ** Helix *)

(** C2: for every origin, semi-axes, pitch, phase and angle, [calculate]
    returns (ox + a cos t, oy + b sin t, oz + (angle_start + t) / (2 pi) * step)
    and [derivative] returns (-a sin t, b cos t, step / (2 pi)); the Z
    component of the derivative is the double [step / (2 pi)] at every
    angle. *)
Theorem helix_calculate_derivative :
  forall (libm : LibM) (ox oy oz a b step angle_start angle : float),
    let h := helix3d.ctor7 ox oy oz a b step angle_start in
    helix3d.calculate h angle
      = vector3d.make (ox + a * cos angle) (oy + b * sin angle)
          (oz + (angle_start + angle) / (2 * Double.M_PI) * step)
    /\ helix3d.derivative h angle
      = vector3d.make (- a * sin angle) (b * cos angle) (step / (2 * Double.M_PI))
    /\ (forall angle' : float,
          vector3d.z (helix3d.derivative h angle') = step / (2 * Double.M_PI)).
Proof.
  intros libm ox oy oz a b step angle_start angle h. subst h.
  unfold helix3d.calculate, helix3d.derivative, helix3d.position, helix3d.ctor7.
  cbn [helix3d.base helix3d.a helix3d.b helix3d.step helix3d.angle_start
       curve3d.ctor curve3d.position vector3d.x vector3d.y vector3d.z].
  rewrite two_pi_comm, mul_opp_swap.
  split; [reflexivity | split].
  - reflexivity.
  - intros angle'. reflexivity.
Qed.

(** ** The period of an ellipse *)

Unset Implicit Arguments.
Local Open Scope R_scope.

(** *** The period of the real cosine and sine, and the double 6 *)

Lemma cos_3_2_lower : 701 / 10000 <= Rtrigo_def.cos (3 / 2).
Proof.
  destruct (pre_cos_bound (3 / 2) 1) as [t _]; [lra | lra |].
  apply Rle_trans with (2 := t). clear t.
  unfold cos_approx; simpl; unfold cos_term.
  rewrite !INR_IZR_INZ.
  cbv -[IZR Rle Rplus Rmult Rdiv Ropp Rinv].
  lra.
Qed.

Lemma cos_3_2_upper : Rtrigo_def.cos (3 / 2) <= 8 / 100.
Proof.
  destruct (pre_cos_bound (3 / 2) 1) as [_ t]; [lra | lra |].
  apply Rle_trans with (1 := t). clear t.
  unfold cos_approx; simpl; unfold cos_term.
  rewrite !INR_IZR_INZ.
  cbv -[IZR Rle Rplus Rmult Rdiv Ropp Rinv].
  lra.
Qed.

Lemma cos_6_upper : Rtrigo_def.cos 6 <= 961 / 1000.
Proof.
  pose proof cos_3_2_lower as Hlo. pose proof cos_3_2_upper as Hhi.
  assert (H3 : Rtrigo_def.cos 3 = 2 * Rtrigo_def.cos (3 / 2) * Rtrigo_def.cos (3 / 2) - 1).
  { rewrite <- cos_2a_cos. f_equal; try lra. }
  assert (H6 : Rtrigo_def.cos 6 = 2 * Rtrigo_def.cos 3 * Rtrigo_def.cos 3 - 1).
  { rewrite <- cos_2a_cos. f_equal; try lra. }
  rewrite H6.
  assert (L3 : - (99018 / 100000) <= Rtrigo_def.cos 3) by (rewrite H3; nra).
  assert (U3 : Rtrigo_def.cos 3 <= 0) by (rewrite H3; nra).
  nra.
Qed.

(** Two points of the unit circle whose angles differ by 6 are far apart. *)
Lemma unit_circle_gap (x : R) :
  78 / 1000 <= (Rtrigo_def.cos (x + 6) - Rtrigo_def.cos x) ^ 2
               + (Rtrigo_def.sin (x + 6) - Rtrigo_def.sin x) ^ 2.
Proof.
  pose proof cos_6_upper as H6.
  pose proof (cos_minus (x + 6) x) as Hm.
  replace (x + 6 - x) with 6 in Hm by ring.
  pose proof (sin2_cos2 x) as H1. pose proof (sin2_cos2 (x + 6)) as H2.
  unfold Rsqr in H1, H2.
  nra.
Qed.

(** *** An idealised <cmath> *)

Lemma ideal_spec (f : R -> R) (x : float) :
  (forall y, -1 <= f y <= 1) ->
  Double.is_finite (ideal f x) = true
  /\ Rabs (B2R (Prim2SF (ideal f x)) - f (B2R (Prim2SF x))) <= bpow (-30).
Proof.
  intros Hf. unfold ideal.
  set (v := f (B2R (Prim2SF x))). pose proof (Hf (B2R (Prim2SF x))) as Hv. fold v in Hv.
  set (k := up (v * bpow 30)).
  destruct (archimed (v * bpow 30)) as [Hk1 Hk2]. fold k in Hk1, Hk2.
  assert (Hp : bpow 30 = IZR (2 ^ 30)) by (apply bpow_IZR; lia).
  assert (Hpos : 0 < bpow 30) by apply bpow_gt_0.
  assert (Hq : 0 < bpow (-30)) by apply bpow_gt_0.
  assert (Hpq : bpow (-30) * bpow 30 = 1) by apply (bpow_opp 30).
  assert (Hlo : (- 2 ^ 30 < k)%Z).
  { apply lt_IZR. rewrite opp_IZR, <- Hp. nra. }
  assert (Hhi : (k <= 2 ^ 30 + 1)%Z).
  { apply le_IZR. rewrite plus_IZR, <- Hp. nra. }
  assert (Hd : (Zdigits2 k <= 31)%Z).
  { apply Zdigits2_small; [lia |].
    change (2 ^ 31)%Z with 2147483648%Z. change (2 ^ 30)%Z with 1073741824%Z in *. lia. }
  destruct (binary_normalize_exact k (-30)) as (Hval & Hfin & HB).
  { rewrite fexp_eq. lia. }
  { lia. }
  split.
  - unfold Double.is_finite. fold k. rewrite (Prim2SF_SF2Prim _ Hval).
    destruct (binary_normalize prec emax k (-30) false); easy.
  - fold k. rewrite (Prim2SF_SF2Prim _ Hval), HB.
    replace (IZR k * bpow (-30) - v) with ((IZR k - v * bpow 30) * bpow (-30))
      by (rewrite Rmult_minus_distr_r, Rmult_assoc, (Rmult_comm (bpow 30)), Hpq; ring).
    rewrite Rabs_pos_eq by nra. nra.
Qed.

Lemma bpow_m30_small : bpow (-30) <= 1 / 100.
Proof.
  pose proof (bpow_opp 30) as H. pose proof (bpow_gt_0 (-30)) as Hq.
  rewrite (bpow_IZR 30) in H by lia.
  change (- (30))%Z with (-30)%Z in H.
  assert (Hb : 100 <= IZR (2 ^ 30)) by (apply IZR_le; vm_compute; discriminate).
  nra.
Qed.

Lemma ideal_libm_accurate (x : float) : @accurate ideal_libm (1 / 100) x.
Proof.
  destruct (ideal_spec Rtrigo_def.cos x COS_bound) as [Hc1 Hc2].
  destruct (ideal_spec Rtrigo_def.sin x SIN_bound) as [Hs1 Hs2].
  pose proof bpow_m30_small.
  unfold accurate. cbn [cos sin ideal_libm].
  repeat split; try assumption; lra.
Qed.

(** *** Coordinates within a tolerance *)

Lemma add_zero_valid (x : float) :
  Double.is_finite x = true ->
  valid_finite_sf (Prim2SF (0 + x)%float) /\ B2R (Prim2SF (0 + x)%float) = B2R (Prim2SF x).
Proof.
  intros Hx. destruct (prim_valid_finite x Hx) as [V F].
  assert (E : Prim2SF (0 + x)%float = SFadd prec emax (S754_zero false) (Prim2SF x))
    by apply add_spec.
  split.
  - split; [apply Prim2SF_valid |]. rewrite E.
    destruct (Prim2SF x) as [[|] | | | ]; easy.
  - rewrite E. destruct (Prim2SF x) as [[|] | | | ]; easy.
Qed.

(** When [|(0 + a) - (0 + b)| <= 0.125] holds of two finite doubles, the
    reals they stand for are less than 5/32 apart. *)
Lemma close_coord (a b : float) :
  Double.is_finite a = true -> Double.is_finite b = true ->
  (abs ((0 + a) - (0 + b)) <=? 0.125)%float = true ->
  Rabs (B2R (Prim2SF a) - B2R (Prim2SF b)) < 5 / 32.
Proof.
  intros Ha Hb Hc.
  destruct (add_zero_valid a Ha) as [[Va Fa] Ea].
  destruct (add_zero_valid b Hb) as [[Vb Fb] Eb].
  rewrite leb_spec, abs_spec, sub_spec in Hc.
  pose proof (SFsub_rounds _ _ Va Vb Fa Fb) as Hr.
  rewrite Ea, Eb in Hr.
  set (d := SF64sub (Prim2SF (0 + a)%float) (Prim2SF (0 + b)%float)) in *.
  change (SFsub prec emax (Prim2SF (0 + a)%float) (Prim2SF (0 + b)%float)) with d in Hr.
  set (D := B2R (Prim2SF a) - B2R (Prim2SF b)) in *.
  change (Prim2SF 0.125%float) with (S754_finite false 4503599627370496 (-55)) in Hc.
  set (r := S754_finite false 5629499534213120 (-55)).
  set (rn := S754_finite true 5629499534213120 (-55)).
  assert (Br : B2R r = 5 / 32).
  { cbn [B2R r]. pose proof (bpow_opp 55) as Ho. rewrite (bpow_IZR 55) in Ho by lia.
    change (- (55))%Z with (-55)%Z in Ho.
    change (2 ^ 55)%Z with 36028797018963968%Z in Ho. lra. }
  assert (Brn : B2R rn = - (5 / 32)).
  { cbn [B2R rn]. cbn [B2R r] in Br. lra. }
  apply Rabs_def1.
  - (* D < 5/32 *)
    destruct (Rlt_or_le D (5 / 32)) as [H | H]; [exact H | exfalso].
    assert (Hle : SFleb r d = true).
    { apply rounds_mono with (B2R r) D; [now apply rounds_self | exact Hr | lra]. }
    destruct d as [s | s | | s m e]; try destruct s; try discriminate.
    cbn [SFabs] in Hc.
    apply SFleb_finite_pos in Hle. apply SFleb_finite_pos in Hc. lia.
  - (* - 5/32 < D *)
    destruct (Rlt_or_le (- (5 / 32)) D) as [H | H]; [exact H | exfalso].
    assert (Hle : SFleb d rn = true).
    { apply rounds_mono with D (B2R rn); [exact Hr | now apply rounds_self | lra]. }
    destruct d as [s | s | | s m e]; try destruct s; try discriminate.
    cbn [SFabs] in Hc.
    apply SFleb_finite_neg in Hle. apply SFleb_finite_pos in Hc. lia.
Qed.

(** *** One period from the angle [2^52] *)

Lemma period_sum : (0x1p+52 + Double.M_PI * 2)%float = 0x1.0000000000006p+52%float.
Proof. reflexivity. Qed.

Lemma period_angles :
  B2R (Prim2SF 0x1.0000000000006p+52%float) = B2R (Prim2SF 0x1p+52%float) + 6.
Proof.
  change (Prim2SF 0x1.0000000000006p+52%float)
    with (S754_finite false 4503599627370502 0).
  change (Prim2SF 0x1p+52%float) with (S754_finite false 4503599627370496 0).
  cbn [B2R]. rewrite bpow_0. lra.
Qed.

Lemma Rabs_le_bounds (x a : R) : Rabs x <= a -> - a <= x <= a.
Proof. unfold Rabs. destruct (Rcase_abs x); lra. Qed.

Section Period.
Context {libm : LibM}.

(** With cosine and sine accurate to 1/100 at [2^52] and [2^52 + 6], the
    points of the unit circle at the angles [2^52] and [2^52 + 2 pi] are
    not within 1/8 of each other. *)
Lemma period_gap :
  accurate (1 / 100) 0x1p+52%float ->
  accurate (1 / 100) 0x1.0000000000006p+52%float ->
  close_to 0.125%float
    (ellipse3d.calculate (ellipse3d.ctor4 0 0 1 1) 0x1p+52%float)
    (ellipse3d.calculate (ellipse3d.ctor4 0 0 1 1)
       (0x1p+52 + Double.M_PI * 2)%float)
  = false.
Proof.
  intros (Fc & Fs & Ac & As) (Fc' & Fs' & Ac' & As').
  rewrite period_sum. rewrite period_angles in Ac', As'.
  unfold close_to, ellipse3d.calculate, ellipse3d.ctor4, ellipse3d.ctor5,
    ellipse3d.position.
  cbn [vector3d.x vector3d.y vector3d.z ellipse3d.base ellipse3d.a ellipse3d.b
       curve3d.ctor curve3d.position].
  rewrite !mul_one_l.
  destruct (abs (0 + cos 0x1p+52 - (0 + cos 0x1.0000000000006p+52))
            <=? 0.125)%float eqn:Ex; [| reflexivity].
  destruct (abs (0 + sin 0x1p+52 - (0 + sin 0x1.0000000000006p+52))
            <=? 0.125)%float eqn:Ey; [| reflexivity].
  exfalso.
  apply close_coord in Ex; [| assumption | assumption].
  apply close_coord in Ey; [| assumption | assumption].
  pose proof (unit_circle_gap (B2R (Prim2SF 0x1p+52%float))) as Hg.
  set (U := B2R (Prim2SF 0x1p+52%float)) in *.
  set (c := Rtrigo_def.cos U) in *. set (s := Rtrigo_def.sin U) in *.
  set (c' := Rtrigo_def.cos (U + 6)) in *. set (s' := Rtrigo_def.sin (U + 6)) in *.
  set (C := B2R (Prim2SF (cos 0x1p+52%float))) in *.
  set (S := B2R (Prim2SF (sin 0x1p+52%float))) in *.
  set (C' := B2R (Prim2SF (cos 0x1.0000000000006p+52%float))) in *.
  set (S' := B2R (Prim2SF (sin 0x1.0000000000006p+52%float))) in *.
  apply Rabs_def2 in Ex, Ey.
  apply Rabs_le_bounds in Ac, As, Ac', As'.
  assert (Hx : - (18 / 100) < c' - c < 18 / 100) by lra.
  assert (Hy : - (18 / 100) < s' - s < 18 / 100) by lra.
  nra.
Qed.

End Period.


(** *** Sums that round back to a summand *)

Lemma inbetween_int_floor (m1 k : Z) (u : R) (l : location) :
  inbetween_int m1 u l -> IZR k <= u < IZR k + 1 -> m1 = k.
Proof.
  intros H Hk. apply inbetween_int_bounds in H.
  assert (H1 : IZR m1 < IZR (k + 1)) by (rewrite plus_IZR; lra).
  assert (H2 : IZR k < IZR (m1 + 1)) by (rewrite plus_IZR; lra).
  apply lt_IZR in H1, H2. lia.
Qed.

Lemma round_nearest_even_low (m : Z) (u : R) (l : location) :
  inbetween_int m u l -> u < IZR m + / 2 -> round_nearest_even m l = m.
Proof. destruct l as [| [| |]]; cbn; intros H Hu; try reflexivity; lra. Qed.

Lemma round_nearest_even_high (m : Z) (u : R) (l : location) :
  inbetween_int m u l -> IZR m + / 2 < u -> round_nearest_even m l = (m + 1)%Z.
Proof. destruct l as [| [| |]]; cbn; intros H Hu; try reflexivity; lra. Qed.

(** The nearest integer of [u], when [u] is less than 1/2 from [k]. *)
Lemma round_nearest_even_near (m1 k : Z) (u : R) (l : location) :
  inbetween_int m1 u l -> IZR k - / 2 < u < IZR k + / 2 ->
  round_nearest_even m1 l = k.
Proof.
  intros H Hu. destruct (Rle_or_lt (IZR k) u) as [Hge | Hlt].
  - assert (m1 = k) by (apply (inbetween_int_floor m1 k u l H); lra). subst m1.
    apply (round_nearest_even_low k u l H). lra.
  - assert (m1 = (k - 1)%Z).
    { apply (inbetween_int_floor m1 (k - 1) u l H). rewrite minus_IZR. lra. }
    subst m1. rewrite (round_nearest_even_high (k - 1) u l H); [lia |].
    rewrite minus_IZR. lra.
Qed.

Lemma bpow_52 : bpow 52 = IZR (2 ^ 52).
Proof. apply bpow_IZR. lia. Qed.

Lemma bpow_53 : bpow 53 = IZR (2 ^ 53).
Proof. apply bpow_IZR. lia. Qed.

(** A real less than half a unit in the last place from a normal double
    [m * 2^e], and in the binade of that double, rounds to it. *)
Lemma round_pair_same_binade (v : R) (mm ee : Z) (ll : location) (m e : Z) :
  rep v mm ee ll ->
  (2 ^ 52 <= m < 2 ^ 53)%Z -> (-1074 < e)%Z ->
  bpow (e + 52) <= v ->
  IZR m * bpow e - bpow e / 2 < v < IZR m * bpow e + bpow e / 2 ->
  round_pair mm ee ll = (m, e).
Proof.
  intros Hrep Hm He Hlo Hv.
  pose proof (bpow_gt_0 e) as Hp. pose proof (bpow_gt_0 (- e)) as Hq.
  pose proof (bpow_opp e) as Hpq.
  assert (Hm1 : IZR (2 ^ 52) <= IZR m) by (apply IZR_le; lia).
  assert (Hm2 : IZR m + 1 <= IZR (2 ^ 53))
    by (rewrite <- (plus_IZR m 1); apply IZR_le; lia).
  assert (Hhi : v < bpow (e + 53)).
  { rewrite (Z.add_comm e 53), bpow_plus, bpow_53. nra. }
  pose proof (rep_upper v mm ee ll Hrep) as Hu.
  set (e1 := fexp prec emax (Zdigits2 mm + ee)) in *.
  assert (H1 : (e <= e1)%Z).
  { assert (bpow (e + 52) < bpow (e1 + 53)) by lra.
    apply bpow_lt_inv in H. lia. }
  pose proof (rep_lower v mm ee ll Hrep) as Hl. fold e1 in Hl.
  assert (H2 : (e1 <= e)%Z).
  { assert (bpow (e1 + 53 - 1) < bpow (e + 53)) by (specialize (Hl ltac:(lia)); lra).
    apply bpow_lt_inv in H. lia. }
  assert (E : e1 = e) by lia.
  destruct (round_pair_spec v mm ee ll Hrep) as (m1 & l1 & _ & Hin & _ & ->).
  fold e1 in Hin |- *. rewrite E in *.
  assert (Hn : round_nearest_even m1 l1 = m).
  { apply (round_nearest_even_near m1 m (v * bpow (- e)) l1 Hin).
    split.
    - apply Rmult_lt_reg_r with (bpow e); [exact Hp |].
      rewrite Rmult_assoc, Hpq. lra.
    - apply Rmult_lt_reg_r with (bpow e); [exact Hp |].
      rewrite Rmult_assoc, Hpq. lra. }
  rewrite Hn. destruct (Z.eqb_spec m (2 ^ 53)); [lia | reflexivity].
Qed.

(** A real just below a power of two [2^(e + 52)], by less than a quarter
    of [2^e], rounds to that power. *)
Lemma round_pair_below_binade (v : R) (mm ee : Z) (ll : location) (e : Z) :
  rep v mm ee ll ->
  (-1074 < e - 1)%Z ->
  bpow (e + 52) - bpow e / 4 < v < bpow (e + 52) ->
  round_pair mm ee ll = ((2 ^ 52)%Z, e).
Proof.
  intros Hrep He Hv.
  pose proof (bpow_gt_0 e) as Hp.
  pose proof (bpow_gt_0 (e - 1)) as Hp1. pose proof (bpow_gt_0 (- (e - 1))) as Hq.
  pose proof (bpow_opp (e - 1)) as Hpq.
  assert (Hpe : bpow e = 2 * bpow (e - 1)).
  { replace e with ((e - 1) + 1)%Z at 1 by lia. apply bpow_succ. }
  assert (H52 : bpow (e + 52) = IZR (2 ^ 52) * bpow e)
    by (rewrite (Z.add_comm e 52), bpow_plus, bpow_52; ring).
  assert (H51 : bpow (e - 1 + 52) = IZR (2 ^ 52) * bpow (e - 1))
    by (rewrite (Z.add_comm (e - 1) 52), bpow_plus, bpow_52; ring).
  assert (H252 : IZR (2 ^ 52) = 4503599627370496) by reflexivity.
  pose proof (rep_upper v mm ee ll Hrep) as Hu.
  set (e1 := fexp prec emax (Zdigits2 mm + ee)) in *.
  assert (H1 : (e - 1 <= e1)%Z).
  { assert (bpow (e - 1 + 52) < bpow (e1 + 53)) by (rewrite H51; nra).
    apply bpow_lt_inv in H. lia. }
  pose proof (rep_lower v mm ee ll Hrep) as Hl. fold e1 in Hl.
  assert (H2 : (e1 <= e - 1)%Z).
  { assert (bpow (e1 + 53 - 1) < bpow (e + 52)) by (specialize (Hl ltac:(lia)); lra).
    apply bpow_lt_inv in H. lia. }
  assert (E : e1 = (e - 1)%Z) by lia.
  destruct (round_pair_spec v mm ee ll Hrep) as (m1 & l1 & _ & Hin & _ & ->).
  fold e1 in Hin |- *. rewrite E in *.
  assert (Hn : round_nearest_even m1 l1 = (2 ^ 53)%Z).
  { apply (round_nearest_even_near m1 (2 ^ 53) (v * bpow (- (e - 1))) l1 Hin).
    assert (H253 : IZR (2 ^ 53) = 2 * IZR (2 ^ 52)) by (rewrite H252; reflexivity || (change (2 ^ 53)%Z with 9007199254740992%Z; lra)).
    split.
    - apply Rmult_lt_reg_r with (bpow (e - 1)); [exact Hp1 |].
      rewrite Rmult_assoc, Hpq. nra.
    - apply Rmult_lt_reg_r with (bpow (e - 1)); [exact Hp1 |].
      rewrite Rmult_assoc, Hpq. nra. }
  rewrite Hn, Z.eqb_refl. f_equal. lia.
Qed.

Lemma finish_pos (s : bool) (m : positive) (e : Z) :
  (e <= 971)%Z -> finish s (Zpos m, e) = S754_finite s m e.
Proof.
  intros He. unfold finish. cbn [fst snd].
  destruct (Z.leb_spec e (emax - prec)); [reflexivity |].
  change (emax - prec)%Z with 971%Z in *. lia.
Qed.

(** Adding less than 8 to a double of magnitude at least [2^57] changes
    nothing. *)
Lemma rounds_absorb (s : bool) (m : positive) (e : Z) (c : R) (f : spec_float) :
  valid_binary (S754_finite s m e) = true -> (5 <= e)%Z -> 0 < c < 8 ->
  rounds (B2R (S754_finite s m e) + c) f -> f = S754_finite s m e.
Proof.
  intros Hv He Hc Hr.
  apply valid_finite in Hv as [Hcan Hmax].
  destruct (canonical_cases m e Hcan) as [[Hd _] | [_ E]]; [| lia].
  pose proof (digits2_pos_bounds m) as Hm. rewrite Hd in Hm.
  change (53 - 1)%Z with 52%Z in Hm.
  pose proof (bpow_gt_0 e) as Hp.
  assert (Hp32 : 32 <= bpow e).
  { replace 32 with (bpow 5) by (rewrite (bpow_IZR 5) by lia; reflexivity).
    now apply bpow_le. }
  assert (H52 : bpow (e + 52) = IZR (2 ^ 52) * bpow e)
    by (rewrite (Z.add_comm e 52), bpow_plus, bpow_52; ring).
  assert (Hm1 : IZR (2 ^ 52) <= IZR (Zpos m)) by (apply IZR_le; lia).
  assert (H252 : IZR (2 ^ 52) = 4503599627370496) by reflexivity.
  set (T := IZR (Zpos m) * bpow e) in *.
  assert (HT : IZR (2 ^ 52) * bpow e <= T) by (unfold T; nra).
  destruct s; cbn [B2R] in Hr.
  - (* negative *)
    replace (- IZR (Zpos m) * bpow e + c) with (- (T - c)) in Hr by (unfold T; ring).
    destruct Hr as [(E & _) | [(Hpos & _) | (_ & mm & ee & ll & Hrep & ->)]];
      [nra | nra |].
    replace (- - (T - c)) with (T - c) in Hrep by ring.
    destruct (Z.eq_dec (Zpos m) (2 ^ 52)) as [E52 | N52].
    + rewrite (round_pair_below_binade (T - c) mm ee ll e Hrep).
      * rewrite <- E52. now apply finish_pos.
      * lia.
      * rewrite H52. unfold T. rewrite E52. lra.
    + rewrite (round_pair_same_binade (T - c) mm ee ll (Zpos m) e Hrep).
      * now apply finish_pos.
      * lia.
      * lia.
      * rewrite H52.
        assert (IZR (2 ^ 52) + 1 <= IZR (Zpos m))
          by (rewrite <- (plus_IZR (2 ^ 52) 1); apply IZR_le; lia).
        unfold T. nra.
      * fold T. lra.
  - (* positive *)
    fold T in Hr.
    destruct Hr as [(E & _) | [(_ & mm & ee & ll & Hrep & ->) | (Hneg & _)]];
      [nra | | nra].
    rewrite (round_pair_same_binade (T + c) mm ee ll (Zpos m) e Hrep).
    + now apply finish_pos.
    + lia.
    + lia.
    + rewrite H52. lra.
    + fold T. lra.
Qed.

Lemma two_pi_bounds : 0 < B2R (S754_finite false 7074237752028440 (-50)) < 8.
Proof.
  cbn [B2R]. pose proof (bpow_gt_0 (-50)) as Hq.
  assert (Ho : bpow 50 * bpow (-50) = 1) by (rewrite <- bpow_plus; exact bpow_0).
  rewrite (bpow_IZR 50) in Ho by lia.
  change (2 ^ 50)%Z with 1125899906842624%Z in Ho.
  split; nra.
Qed.

(** For an angle of magnitude at least [2^57], and for an infinite one, the
    sum with [2 pi] is the angle itself. *)
Lemma period_absorbed (t : float) :
  (0x1p+57 <=? abs t)%float = true -> (t + Double.M_PI * 2)%float = t.
Proof.
  intros H. apply Prim2SF_inj. rewrite add_spec, two_pi_SF.
  rewrite leb_spec, abs_spec in H.
  change (Prim2SF 0x1p+57%float) with (S754_finite false 4503599627370496 5) in H.
  pose proof (Prim2SF_valid t) as Hv.
  destruct (Prim2SF t) as [s | s | | s m e].
  - discriminate H.
  - reflexivity.
  - discriminate H.
  - cbn [SFabs] in H. apply SFleb_finite_pos in H.
    apply rounds_absorb with (B2R (S754_finite false 7074237752028440 (-50))).
    + exact Hv.
    + lia.
    + exact two_pi_bounds.
    + apply SFadd_rounds; [exact Hv | reflexivity | exact I | exact I].
Qed.



Local Close Scope R_scope.
Set Implicit Arguments.

(** ** The circles of [main] *)

Section MainFacts.
Context {random : Random}.

Lemma make_curve_is_circle (i : nat) (g : generator) :
  is_circle (fst (make_curve i g)) = Nat.eqb (i mod 3) 1.
Proof.
  unfold make_curve.
  destruct (i mod 3)%nat as [| [| k]];
    unfold make_ellipse, make_circle, make_helix, bind, draw, ret;
    repeat match goal with
           | |- context [dis ?s] => destruct (dis s)
           end;
    reflexivity.
Qed.

(** The loop appends; the class of the object pushed at index [j] is decided
    by [j mod 3] alone. *)
Lemma generate_from_mask (n : nat) :
  forall (i : nat) (curves : list object) (g : generator),
    map is_circle (fst (generate_from n i curves g))
    = map is_circle curves ++ map (fun j => Nat.eqb (j mod 3) 1) (seq i n).
Proof.
  induction n as [| n IH]; intros i curves g; simpl.
  - now rewrite app_nil_r.
  - unfold bind.
    pose proof (make_curve_is_circle i g) as Hc.
    destruct (make_curve i g) as [c g']. simpl in Hc.
    rewrite IH, map_app, <- app_assoc. simpl. now rewrite Hc.
Qed.

Lemma generate_mask (g : generator) :
  map is_circle (fst (generate g))
  = map (fun j => Nat.eqb (j mod 3) 1) (seq 0 100).
Proof. unfold generate. now rewrite generate_from_mask. Qed.

End MainFacts.

Lemma collect_circles_length (curves : list object) :
  List.length (collect_circles curves)
  = List.length (filter (fun c : bool => c) (map is_circle curves)).
Proof.
  induction curves as [| o rest IH]; simpl; [reflexivity |].
  unfold is_circle. destruct (dynamic_cast_circle3d o); simpl; now rewrite IH.
Qed.

Lemma collect_circles_app (l1 l2 : list object) :
  collect_circles (l1 ++ l2) = collect_circles l1 ++ collect_circles l2.
Proof.
  induction l1 as [| o rest IH]; simpl; [reflexivity |].
  destruct (dynamic_cast_circle3d o); simpl; now rewrite IH.
Qed.

Section SortFacts.
Variable A : Type.
Variable lt : A -> A -> bool.

Lemma insert_length (x : A) (l : list A) :
  List.length (insert lt x l) = S (List.length l).
Proof.
  induction l as [| y t IH]; simpl; [reflexivity |].
  destruct (lt x y); simpl; now rewrite ?IH.
Qed.

(** Sorting neither adds nor drops an element. *)
Lemma std_sort_length (l : list A) : List.length (std_sort lt l) = List.length l.
Proof.
  induction l as [| x t IH]; simpl; [reflexivity |].
  now rewrite insert_length, IH.
Qed.

Lemma front_some (l : list A) : l <> [] <-> exists x, front l = Some x.
Proof.
  destruct l as [| x t]; simpl; split.
  - now intros H.
  - now intros [x H].
  - intros _. now exists x.
  - easy.
Qed.

Lemma back_some (l : list A) : l <> [] <-> exists x, back l = Some x.
Proof.
  unfold back. split.
  - intros H. destruct (rev l) as [| x t] eqn:E.
    + apply (f_equal (@List.length A)) in E. rewrite length_rev in E.
      destruct l; [easy | discriminate].
    + now exists x.
  - intros [x H] ->. discriminate.
Qed.

End SortFacts.

Lemma nonempty_length {A : Type} (l : list A) : l <> [] <-> (0 < List.length l)%nat.
Proof. destruct l; simpl; split; try easy; try lia. Qed.

(** *** The requirement of [std::sort] *)

(** A conversion from [int] never yields a NaN. *)
Lemma of_uint63_not_nan (n : Uint63.int) : Prim2SF (of_uint63 n) <> S754_nan.
Proof.
  rewrite of_uint63_spec.
  apply rounds_not_nan with (IZR (Uint63.to_Z n) * bpow 0)%R.
  apply binary_normalize_rounds.
Qed.

Lemma of_int_not_nan (n : Z) : Double.is_nan (Double.of_int n) = false.
Proof.
  unfold Double.of_int, Double.is_nan.
  destruct (n <? 0)%Z.
  - rewrite opp_spec.
    pose proof (of_uint63_not_nan (Uint63.of_Z (- n))) as H.
    destruct (Prim2SF (of_uint63 (Uint63.of_Z (- n)))); try reflexivity.
    now elim H.
  - pose proof (of_uint63_not_nan (Uint63.of_Z n)) as H.
    destruct (Prim2SF (of_uint63 (Uint63.of_Z n))); try reflexivity.
    now elim H.
Qed.

(** [<] on doubles that are not NaNs, through their keys. *)
Lemma ltb_key (x y : float) :
  Double.is_nan x = false -> Double.is_nan y = false ->
  if x <? y then lex_lt (order_key (Prim2SF x)) (order_key (Prim2SF y))
  else ~ lex_lt (order_key (Prim2SF x)) (order_key (Prim2SF y)).
Proof.
  intros Hx Hy. rewrite ltb_spec.
  pose proof (SFltb_key (is_nan_SF x Hx) (is_nan_SF y Hy)) as H.
  destruct (SFltb (Prim2SF x) (Prim2SF y)).
  - now apply H.
  - intros L. apply H in L. discriminate.
Qed.

(** Without a NaN among the radii, [radius_lt] is a strict weak ordering of
    the circles. *)
Lemma strict_weak_radius (l : list circle3d.t) :
  Forall radius_ok l -> strict_weak_ordering radius_lt l = true.
Proof.
  intros Hok. rewrite Forall_forall in Hok. unfold strict_weak_ordering.
  apply forallb_forall. intros x Hx.
  apply andb_true_iff. split.
  - unfold radius_lt.
    pose proof (ltb_key (radius x) (radius x) (Hok x Hx) (Hok x Hx)) as H.
    destruct (radius x <? radius x); [| reflexivity].
    destruct (order_key (Prim2SF (radius x))) as [[a b] c].
    cbn [lex_lt] in H. lia.
  - apply forallb_forall. intros y Hy. apply forallb_forall. intros z Hz.
    unfold equiv, radius_lt.
    pose proof (Hok x Hx) as Nx. pose proof (Hok y Hy) as Ny.
    pose proof (Hok z Hz) as Nz. unfold radius_ok in Nx, Ny, Nz.
    pose proof (ltb_key _ _ Nx Ny) as Hxy. pose proof (ltb_key _ _ Ny Nx) as Hyx.
    pose proof (ltb_key _ _ Ny Nz) as Hyz. pose proof (ltb_key _ _ Nz Ny) as Hzy.
    pose proof (ltb_key _ _ Nx Nz) as Hxz. pose proof (ltb_key _ _ Nz Nx) as Hzx.
    destruct (order_key (Prim2SF (radius x))) as [[a1 b1] c1],
             (order_key (Prim2SF (radius y))) as [[a2 b2] c2],
             (order_key (Prim2SF (radius z))) as [[a3 b3] c3].
    destruct (radius x <? radius y), (radius y <? radius x),
             (radius y <? radius z), (radius z <? radius y),
             (radius x <? radius z), (radius z <? radius x);
      cbn [lex_lt negb andb implb] in *; try reflexivity; exfalso; lia.
Qed.

Section MainSort.
Context {random : Random}.

(** Every radius the loop creates is an [int] converted to [double]. *)
Lemma make_curve_radius_ok (i : nat) (g : generator) :
  Forall radius_ok (collect_circles [fst (make_curve i g)]).
Proof.
  unfold make_curve.
  destruct (i mod 3)%nat as [| [| k]];
    unfold make_ellipse, make_circle, make_helix, bind, draw, ret;
    repeat match goal with
           | |- context [dis ?s] => destruct (dis s)
           end;
    cbn [fst collect_circles dynamic_cast_circle3d]; constructor.
  - apply of_int_not_nan.
  - constructor.
Qed.

Lemma generate_from_radius_ok (n : nat) :
  forall (i : nat) (curves : list object) (g : generator),
    Forall radius_ok (collect_circles curves) ->
    Forall radius_ok (collect_circles (fst (generate_from n i curves g))).
Proof.
  induction n as [| n IH]; intros i curves g Hok; simpl; [exact Hok |].
  unfold bind.
  pose proof (make_curve_radius_ok i g) as Hc.
  destruct (make_curve i g) as [c g']. cbn [fst] in Hc.
  apply IH. rewrite collect_circles_app. apply Forall_app. now split.
Qed.

Lemma generate_radius_ok (g : generator) :
  Forall radius_ok (collect_circles (fst (generate g))).
Proof. unfold generate. apply generate_from_radius_ok. constructor. Qed.

End MainSort.

(** What [report_circles] does: it completes when the radii can be sorted
    and there is a circle to print. *)
Lemma report_circles_cases (os : ostream.t) (curves : list object) :
  ((strict_weak_ordering radius_lt (collect_circles curves) = false
    \/ collect_circles curves = [])
   /\ report_circles os curves = Undefined)
  \/ (strict_weak_ordering radius_lt (collect_circles curves) = true
      /\ collect_circles curves <> []
      /\ exists os', report_circles os curves = Normal os').
Proof.
  unfold report_circles.
  destruct (strict_weak_ordering radius_lt (collect_circles curves)) eqn:Esw.
  2: { left. split; [now left | reflexivity]. }
  destruct (collect_circles curves) as [| c cs] eqn:E.
  - left. split; [now right | reflexivity].
  - right. split; [reflexivity | split; [discriminate |]].
    assert (Hne : std_sort radius_lt (c :: cs) <> []).
    { apply nonempty_length. rewrite std_sort_length. simpl. lia. }
    destruct (proj1 (front_some _) Hne) as [f ->].
    destruct (proj1 (back_some _) Hne) as [l ->].
    eexists. reflexivity.
Qed.

(** With a NaN beside two different radii the comparison is no strict weak
    ordering, and sorting has no defined result. *)
Lemma report_circles_nan :
  report_circles ostream.init
    [Circle3d (circle3d.ctor3 0 0 1); Circle3d (circle3d.ctor3 0 0 nan);
     Circle3d (circle3d.ctor3 0 0 3)]
  = Undefined.
Proof. reflexivity. Qed.

(** C10: whatever the random engine yields, the generation loop of [main]
    leaves 100 curves, the one at index [i] being a [circle3d] exactly when
    [i mod 3 = 1]; 33 of them are circles, so the sorted vector of circles is
    not empty, [front()] and [back()] have a result, and [main] runs to its
    [return 0]. *)
Theorem main_circles_nonempty :
  forall (libm : LibM) (random : Random) (gen : generator),
    let curves := fst (generate gen) in
    let circleContainer := std_sort radius_lt (collect_circles curves) in
    List.length curves = 100%nat
    /\ (forall i : nat, (i < 100)%nat ->
          exists o, nth_error curves i = Some o
                    /\ ((exists c, o = Circle3d c) <-> (i mod 3 = 1)%nat))
    /\ List.length (collect_circles curves) = 33%nat
    /\ List.length circleContainer = 33%nat
    /\ (exists first last,
          front circleContainer = Some first /\ back circleContainer = Some last)
    /\ (exists out, main gen = Normal (out, 0%Z)).
Proof.
  intros libm random gen curves circleContainer.
  pose proof (generate_mask gen) as Hmask. fold curves in Hmask.
  assert (Hlen : List.length curves = 100%nat).
  { rewrite <- (length_map is_circle), Hmask, length_map. apply length_seq. }
  assert (H33 : List.length (collect_circles curves) = 33%nat).
  { rewrite collect_circles_length, Hmask. reflexivity. }
  assert (Hs33 : List.length circleContainer = 33%nat).
  { unfold circleContainer. now rewrite std_sort_length. }
  assert (Hne : circleContainer <> []).
  { apply nonempty_length. rewrite Hs33. lia. }
  split; [exact Hlen | split; [| split; [exact H33 | split; [exact Hs33 | split]]]].
  - intros i Hi.
    destruct (nth_error curves i) as [o |] eqn:Eo.
    2: { apply nth_error_None in Eo. lia. }
    exists o. split; [reflexivity |].
    assert (Hk : is_circle o = Nat.eqb (i mod 3) 1).
    { pose proof (nth_error_map is_circle i curves) as Hm.
      rewrite Hmask, nth_error_map, nth_error_seq, Eo in Hm.
      apply Nat.ltb_lt in Hi as Hlt. rewrite Hlt in Hm.
      cbn [option_map Nat.add] in Hm. now injection Hm as Hm. }
    rewrite <- Nat.eqb_eq, <- Hk. unfold is_circle.
    destruct o; simpl; split; try easy; try (intros [c Hc]; discriminate).
    intros _. now exists c.
  - destruct (proj1 (front_some _) Hne) as [f Hf].
    destruct (proj1 (back_some _) Hne) as [l Hl].
    now exists f, l.
  - pose proof (strict_weak_radius (generate_radius_ok gen)) as Hsw.
    fold curves in Hsw.
    unfold main. fold curves.
    destruct (generate gen) as [cs g'] eqn:Eg. simpl in curves.
    destruct (report_circles_cases (print_curves ostream.init cs) cs)
      as [[[Hf | He] _] | (_ & _ & [os' Hr])].
    + subst curves. rewrite Hsw in Hf. discriminate.
    + subst curves. rewrite He in H33. discriminate.
    + rewrite Hr. eexists. reflexivity.
Qed.

(** ** Text form of a vector *)

Section TextForms.
Local Open Scope string_scope.

Lemma string_app_assoc (s1 s2 s3 : string) :
  (s1 ++ s2) ++ s3 = s1 ++ (s2 ++ s3).
Proof. induction s1 as [| c s1 IH]; simpl; [reflexivity | now rewrite IH]. Qed.

Lemma round_half_even_nonneg (num den : Z) :
  (0 <= num)%Z -> (0 < den)%Z -> (0 <= Fmt.round_half_even num den)%Z.
Proof.
  intros Hn Hd. unfold Fmt.round_half_even.
  assert (0 <= num / den)%Z by (apply Z.div_pos; lia).
  destruct (2 * (num mod den) ?= den)%Z; [destruct (Z.even _) | |]; lia.
Qed.

Lemma fixed_digits_two (n : Z) :
  Fmt.fixed_digits 2 n
  = Fmt.int_digits (n / 100) ++ "."
    ++ String (Fmt.digit_char ((n mod 100) / 10 mod 10))
         (String (Fmt.digit_char ((n mod 100) mod 10)) "").
Proof. reflexivity. Qed.

Lemma fixed_digits_two_decimals (neg : bool) (n : Z) :
  (0 <= n)%Z -> two_decimals (Fmt.sign_str neg ++ Fmt.fixed_digits 2 n).
Proof.
  intros Hn. exists neg, (n / 100)%Z, ((n mod 100) / 10 mod 10)%Z, ((n mod 100) mod 10)%Z.
  split; [| now rewrite fixed_digits_two].
  assert (0 <= n / 100)%Z by (apply Z.div_pos; lia).
  pose proof (Z.mod_pos_bound (n mod 100 / 10) 10 eq_refl).
  pose proof (Z.mod_pos_bound (n mod 100) 10 eq_refl).
  lia.
Qed.

(** [%.2f] of a finite double has two digits after the point. *)
Lemma fmt_fixed_two_decimals (x : float) :
  Double.is_finite x = true -> two_decimals (Fmt.fmt_fixed 2 x).
Proof.
  unfold Double.is_finite, Fmt.fmt_fixed.
  destruct (Prim2SF x) as [s | s | | s m e]; try discriminate; intros _.
  - now apply fixed_digits_two_decimals.
  - unfold Fmt.magnitude, Fmt.scale10.
    destruct (Z.leb_spec 0 e) as [He | He];
      cbn [Z.of_nat Z.leb Z.compare Pos.of_succ_nat Pos.succ];
      apply fixed_digits_two_decimals, round_half_even_nonneg.
    + pose proof (Z.pow_nonneg 2 e). lia.
    + lia.
    + lia.
    + apply Z.pow_pos_nonneg; lia.
Qed.

Lemma operator_shl_buffer (os : ostream.t) (v : vector3d.t) :
  ostream.buffer (vector3d.operator_shl os v)
  = ostream.buffer os ++ "{" ++ ostream.format_double os (vector3d.x v)
      ++ "," ++ ostream.format_double os (vector3d.y v)
      ++ "," ++ ostream.format_double os (vector3d.z v) ++ "}".
Proof.
  unfold vector3d.operator_shl, ostream.put_double, ostream.put_string,
    ostream.format_double.
  cbn [ostream.buffer ostream.fixed ostream.precision].
  now rewrite !string_app_assoc.
Qed.

Lemma str_fixed (v : vector3d.t) :
  vector3d.str v
  = "{" ++ Fmt.fmt_fixed 2 (vector3d.x v) ++ "," ++ Fmt.fmt_fixed 2 (vector3d.y v)
      ++ "," ++ Fmt.fmt_fixed 2 (vector3d.z v) ++ "}".
Proof.
  unfold vector3d.str, ostream.put_double, ostream.put_string,
    ostream.format_double, ostream.setprecision, ostream.set_fixed, ostream.init.
  cbn [ostream.buffer ostream.fixed ostream.precision].
  now rewrite !string_app_assoc.
Qed.

(** C8, as the specification states it, fails: [operator<<], the only way
    [main] prints a vector, writes (1.005, -2, 0) on [std::cout] as
    [{1.005,-2,0}], not with two decimals. *)
Lemma operator_shl_not_two_decimals :
  ostream.buffer
    (vector3d.operator_shl ostream.init (vector3d.make d1_005 (-2) 0))
  = "{1.005,-2,0}"
  /\ ostream.buffer
       (vector3d.operator_shl ostream.init (vector3d.make d1_005 (-2) 0))
     <> vector3d.str (vector3d.make d1_005 (-2) 0).
Proof. split; [| intros H]; vm_compute in *; [reflexivity | discriminate]. Qed.

(** C8, amended: [str()] writes every vector as [{x,y,z}] with each
    coordinate in fixed notation, two digits after the point for every finite
    coordinate, so (1.005, -2, 0) gives [{1.00,-2.00,0.00}]; [operator<<]
    writes the same bracketed triple in the format of the stream it is given,
    which on [std::cout], as [main] leaves it, is six significant digits:
    [{1.005,-2,0}]. *)
Theorem vector3d_text_forms :
  (forall v : vector3d.t,
     vector3d.str v
     = "{" ++ Fmt.fmt_fixed 2 (vector3d.x v) ++ "," ++ Fmt.fmt_fixed 2 (vector3d.y v)
         ++ "," ++ Fmt.fmt_fixed 2 (vector3d.z v) ++ "}")
  /\ (forall x : float, Double.is_finite x = true -> two_decimals (Fmt.fmt_fixed 2 x))
  /\ vector3d.str (vector3d.make d1_005 (-2) 0) = "{1.00,-2.00,0.00}"
  /\ (forall (os : ostream.t) (v : vector3d.t),
        ostream.buffer (vector3d.operator_shl os v)
        = ostream.buffer os ++ "{" ++ ostream.format_double os (vector3d.x v)
            ++ "," ++ ostream.format_double os (vector3d.y v)
            ++ "," ++ ostream.format_double os (vector3d.z v) ++ "}")
  /\ (forall x : float, ostream.format_double ostream.init x = Fmt.fmt_general 6 x)
  /\ ostream.buffer
       (vector3d.operator_shl ostream.init (vector3d.make d1_005 (-2) 0))
     = "{1.005,-2,0}".
Proof.
  split; [exact str_fixed |].
  split; [exact fmt_fixed_two_decimals |].
  split; [vm_compute; reflexivity |].
  split; [exact operator_shl_buffer |].
  split; [reflexivity | vm_compute; reflexivity].
Qed.

End TextForms.

(** ** One turn of a circular helix *)

(** C7, as the specification states it, fails: with [step] equal to 2 pi
    the point at angle 2 pi has Z equal to 2 pi, more than 5 away from 1,
    whatever [cos] and [sin] return. *)
Lemma helix_full_turn_z_not_1 :
  ~ (exists libm : LibM,
       close_to 5
         (@helix3d.calculate libm
            (helix3d.ctor5 0 0 0 1 (2 * Double.M_PI)) (2 * Double.M_PI))
         (vector3d.make 1 0 1) = true).
Proof.
  intros [libm H]. unfold close_to in H.
  apply andb_true_iff in H as [_ Hz].
  vm_compute in Hz. discriminate.
Qed.

(** C7, amended: the five-argument constructor sets a = b = r and
    angle_start = 0.  The helix at the origin with r = 1 and step = 2 pi has
    at angle 2 pi the point (cos(2 pi), sin(2 pi), 2 pi): its X and Y equal,
    under [==], what [cos] and [sin] return there, and its Z is the double
    2 pi, which is [step]; at angle 0 its Z is 0, so the full turn advances Z
    by exactly [step]. *)
Theorem helix_full_turn :
  forall (libm : LibM),
    (forall x y z r step : float,
       helix3d.ctor5 x y z r step = helix3d.ctor7 x y z r r step 0
       /\ helix3d.a (helix3d.ctor5 x y z r step) = r
       /\ helix3d.b (helix3d.ctor5 x y z r step) = r
       /\ helix3d.angle_start (helix3d.ctor5 x y z r step) = 0)
    /\ let two_pi := 2 * Double.M_PI in
       let h := helix3d.ctor5 0 0 0 1 two_pi in
       let p := helix3d.calculate h two_pi in
       vector3d.z p = two_pi
       /\ vector3d.z p = helix3d.step h
       /\ vector3d.z (helix3d.calculate h 0) = 0
       /\ vector3d.z p - vector3d.z (helix3d.calculate h 0) = helix3d.step h
       /\ (Double.is_nan (cos two_pi) = false -> (vector3d.x p =? cos two_pi) = true)
       /\ (Double.is_nan (sin two_pi) = false -> (vector3d.y p =? sin two_pi) = true).
Proof.
  intros libm. split.
  - intros x y z r step. repeat split.
  - intros two_pi h p. repeat split.
    + intros Hc. subst p h. unfold helix3d.calculate, helix3d.ctor5, helix3d.ctor7.
      cbn [vector3d.x vector3d.y helix3d.position helix3d.base helix3d.a
           curve3d.ctor curve3d.position].
      rewrite mul_one_l. now apply add_zero_l.
    + intros Hs. subst p h. unfold helix3d.calculate, helix3d.ctor5, helix3d.ctor7.
      cbn [vector3d.x vector3d.y helix3d.position helix3d.base helix3d.b
           curve3d.ctor curve3d.position].
      rewrite mul_one_l. now apply add_zero_l.
Qed.

(* ================================================================== *)
(** * Further properties of the program *)


(** ** Sorting *)

Section SortOrder.
Variable A : Type.
Variable lt : A -> A -> bool.
Variable le : A -> A -> Prop.
Variable good : A -> Prop.
Hypothesis le_trans : forall x y z, good x -> good y -> good z -> le x y -> le y z -> le x z.
Hypothesis lt_le : forall x y, good x -> good y -> lt x y = true -> le x y.
Hypothesis not_lt_le : forall x y, good x -> good y -> lt x y = false -> le y x.

Lemma insert_perm (x : A) (l : list A) : Permutation (x :: l) (insert lt x l).
Proof.
  induction l as [| y t IH]; simpl; [reflexivity |].
  destruct (lt x y); [reflexivity |].
  rewrite perm_swap. now apply perm_skip.
Qed.

Lemma std_sort_perm (l : list A) : Permutation l (std_sort lt l).
Proof.
  induction l as [| x t IH]; simpl; [reflexivity |].
  rewrite <- insert_perm. now apply perm_skip.
Qed.

Lemma insert_sorted (x : A) (l : list A) :
  good x -> Forall good l ->
  StronglySorted le l -> StronglySorted le (insert lt x l).
Proof.
  intros Hx Hl Hs. induction Hs as [| y t Hs IH Hy]; simpl.
  - constructor; constructor.
  - inversion Hl as [| ? ? Hgy Hgt]; subst.
    destruct (lt x y) eqn:E.
    + constructor; [now constructor |].
      assert (Hxy : le x y) by now apply lt_le.
      constructor; [exact Hxy |].
      rewrite Forall_forall in Hy, Hgt |- *. intros z Hz.
      apply le_trans with y; auto.
    + constructor; [now apply IH |].
      apply (Permutation_Forall (insert_perm x t)).
      constructor; [now apply not_lt_le | exact Hy].
Qed.

Lemma std_sort_sorted (l : list A) :
  Forall good l -> StronglySorted le (std_sort lt l).
Proof.
  induction l as [| x t IH]; intros Hl; simpl; [constructor |].
  inversion Hl; subst.
  apply insert_sorted; auto.
  now apply (Permutation_Forall (std_sort_perm t)).
Qed.

End SortOrder.


(** ** The ends of a sorted vector *)
Lemma back_cons {A : Type} (y : A) (t : list A) :
  back (y :: t) = match back t with Some b => Some b | None => Some y end.
Proof. unfold back. simpl. now destruct (rev t). Qed.

Lemma back_in {A : Type} (l : list A) (b : A) : back l = Some b -> In b l.
Proof.
  unfold back. intros H. apply in_rev.
  destruct (rev l); [discriminate |]. injection H as ->. now left.
Qed.

Lemma front_in {A : Type} (l : list A) (f : A) : front l = Some f -> In f l.
Proof. destruct l; [discriminate |]. intros H. injection H as ->. now left. Qed.

Section Extremes.
Variable A : Type.
Variable le : A -> A -> Prop.

Lemma sorted_front_min (l : list A) (f : A) :
  StronglySorted le l -> front l = Some f ->
  forall x, In x l -> x = f \/ le f x.
Proof.
  intros Hs Hf x Hx. destruct Hs as [| y t Hs Hy]; [discriminate |].
  injection Hf as <-. destruct Hx as [-> | Hx]; [now left | right].
  rewrite Forall_forall in Hy. now apply Hy.
Qed.

Lemma sorted_back_max (l : list A) (b : A) :
  StronglySorted le l -> back l = Some b ->
  forall x, In x l -> x = b \/ le x b.
Proof.
  intros Hs. revert b. induction Hs as [| y t Hs IH Hy]; intros b Hb x Hx.
  - discriminate.
  - rewrite back_cons in Hb. destruct (back t) as [b' |] eqn:E.
    + injection Hb as <-. destruct Hx as [<- | Hx].
      * right. rewrite Forall_forall in Hy. apply Hy. now apply back_in.
      * now apply IH.
    + injection Hb as <-. destruct t as [| z t'].
      * destruct Hx as [-> | []]. now left.
      * unfold back in E. simpl in E. destruct (rev t'); discriminate.
Qed.

End Extremes.

Lemma sorted_circles (l : list circle3d.t) :
  Forall radius_ok l -> StronglySorted radius_le (std_sort radius_lt l).
Proof.
  apply std_sort_sorted with (good := radius_ok); unfold radius_ok, radius_le, radius_lt.
  - intros x y z Hx Hy Hz. now apply leb_trans.
  - intros x y Hx Hy. now apply ltb_leb.
  - intros x y Hx Hy. now apply not_ltb_leb.
Qed.

(** ** Small integers held in doubles *)
Lemma forall_range_spec (f : Z -> bool) (len : nat) :
  forall lo, forall_range f lo len = true ->
  forall n, (lo <= n < lo + Z.of_nat len)%Z -> f n = true.
Proof.
  induction len as [| len IH]; intros lo H n Hn; [lia |].
  cbn [forall_range] in H. apply andb_true_iff in H as [H0 H1].
  destruct (Z.eq_dec n lo) as [-> | Hne]; [exact H0 |].
  apply (IH (lo + 1)%Z H1). lia.
Qed.

Lemma fmt_general_from_start (prec : nat) (x : float) :
  Fmt.fmt_general prec x = fmt_general_from (-400) 800 prec x.
Proof. reflexivity. Qed.

Lemma le_pow10_nonpos (k : Z) (v : Z * Z) :
  ge_one v -> (k <= 0)%Z -> Fmt.le_pow10 k v = true.
Proof.
  destruct v as [n d]. unfold ge_one, Fmt.le_pow10, Fmt.scale10. cbn [fst snd].
  intros [Hd Hn] Hk.
  destruct (Z.leb_spec 0 (- k)); [| lia].
  apply Z.leb_le.
  assert (1 <= 10 ^ (- k))%Z by (apply Z.pow_le_mono_r with (b := 0%Z) (a := 10%Z) (c := (- k)%Z); lia).
  nia.
Qed.

Lemma log10_search_skip (j : nat) :
  forall (fuel : nat) (k : Z) (v : Z * Z),
    ge_one v -> (k + Z.of_nat j <= 0)%Z ->
    Fmt.log10_search (j + fuel) k v = Fmt.log10_search fuel (k + Z.of_nat j) v.
Proof.
  induction j as [| j IH]; intros fuel k v Hv Hk.
  - cbn [Nat.add]. f_equal. lia.
  - cbn [Nat.add Fmt.log10_search].
    rewrite le_pow10_nonpos by (assumption || lia).
    rewrite IH by (assumption || lia). f_equal. lia.
Qed.

Lemma fmt_general_ge_one (prec : nat) (x : float) (s : bool) (m : positive) (e : Z) :
  Prim2SF x = S754_finite s m e -> ge_one (Fmt.magnitude m e) ->
  Fmt.fmt_general prec x = fmt_general_from 0 400 prec x.
Proof.
  intros Hx Hv. rewrite fmt_general_from_start.
  unfold fmt_general_from, general_digits_from. rewrite Hx.
  change 800%nat with (400 + 400)%nat.
  rewrite (log10_search_skip 400 400 (-400) Hv) by lia.
  reflexivity.
Qed.

Lemma sum_exact_check_ok : sum_exact_check = true.
Proof. vm_compute. reflexivity. Qed.

Lemma leb_check_ok : leb_check = true.
Proof. vm_compute. reflexivity. Qed.

Lemma print_check_ok : print_check = true.
Proof. vm_compute. reflexivity. Qed.

(** Sums of small integers are exact in [double]. *)
Lemma of_int_add (a b : Z) :
  (0 <= a <= 3200)%Z -> (1 <= b <= 100)%Z ->
  Double.of_int a + Double.of_int b = Double.of_int (a + b).
Proof.
  intros Ha Hb.
  pose proof (@forall_range_spec _ _ _ sum_exact_check_ok a ltac:(lia)) as H.
  cbv beta in H.
  pose proof (@forall_range_spec _ _ _ H b ltac:(lia)) as H'.
  cbv beta in H'. now apply FloatAxioms.Leibniz.eqb_spec.
Qed.

Lemma of_int_leb (a b : Z) :
  (1 <= a <= 100)%Z -> (1 <= b <= 100)%Z ->
  (Double.of_int a <=? Double.of_int b) = (a <=? b)%Z.
Proof.
  intros Ha Hb.
  pose proof (@forall_range_spec _ _ _ leb_check_ok a ltac:(lia)) as H.
  cbv beta in H.
  pose proof (@forall_range_spec _ _ _ H b ltac:(lia)) as H'.
  cbv beta in H'. now apply Bool.eqb_prop.
Qed.

(** A small integer held in a [double] prints as the integer. *)
Lemma of_int_print (n : Z) :
  (1 <= n <= 3300)%Z -> Fmt.fmt_general 6 (Double.of_int n) = Fmt.int_digits n.
Proof.
  intros Hn.
  pose proof (@forall_range_spec _ _ _ print_check_ok n ltac:(lia)) as H.
  cbv beta in H. apply andb_true_iff in H as [Hm Hs].
  destruct (Prim2SF (Double.of_int n)) as [| | | s m e] eqn:E; try discriminate.
  rewrite (fmt_general_ge_one 6 _ E).
  - now apply String.eqb_eq.
  - destruct (Fmt.magnitude m e) as [num den].
    apply andb_true_iff in Hm as [H1 H2]. unfold ge_one. cbn [fst snd]. lia.
Qed.


(** ** The generation loop *)
Ltac eexists_one := match goal with |- exists _, _ => eexists end.

Section Generation.
Context {random : Random}.

Lemma advance_add (a b : nat) (g : generator) :
  advance (a + b) g = advance b (advance a g).
Proof. revert g. induction a as [| a IH]; intros g; simpl; [reflexivity | apply IH]. Qed.

Lemma make_curve_kind (i : nat) (g : generator) :
  kind (fst (make_curve i g)) = (i mod 3)%nat.
Proof.
  pose proof (Nat.mod_upper_bound i 3 ltac:(lia)) as Hb.
  unfold make_curve.
  destruct (i mod 3)%nat as [| [| [| k]]]; try lia;
    unfold make_ellipse, make_circle, make_helix, bind, draw, ret;
    repeat match goal with
           | |- context [dis ?s] => destruct (dis s)
           end;
    reflexivity.
Qed.

Lemma make_curve_advance (i : nat) (g : generator) :
  snd (make_curve i g) = advance (draws 1 i) g.
Proof.
  unfold make_curve. cbn [draws].
  destruct (i mod 3)%nat as [| [| k]];
    unfold make_ellipse, make_circle, make_helix, bind, draw, ret;
    cbn [Nat.add advance];
    repeat match goal with
           | |- context [dis ?s] => destruct (dis s); cbn [snd]
           end;
    reflexivity.
Qed.

Lemma generate_from_advance (n : nat) :
  forall (i : nat) (curves : list object) (g : generator),
    snd (generate_from n i curves g) = advance (draws n i) g.
Proof.
  induction n as [| n IH]; intros i curves g; [reflexivity |].
  cbn [generate_from draws]. unfold bind.
  pose proof (make_curve_advance i g) as Ha. cbn [draws] in Ha.
  rewrite Nat.add_0_r in Ha.
  destruct (make_curve i g) as [c g']. cbn [snd] in Ha.
  rewrite IH, advance_add. now rewrite Ha.
Qed.

Lemma generate_from_kinds (n : nat) :
  forall (i : nat) (curves : list object) (g : generator),
    map kind (fst (generate_from n i curves g))
    = map kind curves ++ map (fun j => (j mod 3)%nat) (seq i n).
Proof.
  induction n as [| n IH]; intros i curves g; simpl.
  - now rewrite app_nil_r.
  - unfold bind.
    pose proof (make_curve_kind i g) as Hc.
    destruct (make_curve i g) as [c g']. simpl in Hc.
    rewrite IH, map_app, <- app_assoc. simpl. now rewrite Hc.
Qed.

Lemma generate_kinds (gen : generator) :
  map kind (fst (generate gen)) = map (fun i => (i mod 3)%nat) (seq 0 100).
Proof. unfold generate. now rewrite generate_from_kinds. Qed.

Hypothesis dis_range : forall g : generator, (1 <= fst (dis g) <= 100)%Z.

Lemma draw_drawn (g : generator) : drawn (fst (draw g)).
Proof.
  unfold draw. pose proof (dis_range g) as H.
  destruct (dis g) as [n g']. now exists n.
Qed.

Lemma make_curve_generated (i : nat) (g : generator) :
  generated (fst (make_curve i g)).
Proof.
  unfold make_curve.
  destruct (i mod 3)%nat as [| [| k]];
    unfold make_ellipse, make_circle, make_helix, bind, ret;
    repeat match goal with
           | |- context [draw ?s] =>
               let H := fresh "H" in
               pose proof (draw_drawn s) as H; destruct (draw s);
               cbn [fst] in H; cbv beta iota
           end;
    cbn [fst generated]; repeat eexists_one.
  all: repeat split.
  all: try reflexivity.
  all: assumption.
Qed.

Lemma generate_from_generated (n : nat) :
  forall (i : nat) (curves : list object) (g : generator),
    Forall generated curves ->
    Forall generated (fst (generate_from n i curves g)).
Proof.
  induction n as [| n IH]; intros i curves g Hc; [exact Hc |].
  cbn [generate_from]. unfold bind.
  pose proof (make_curve_generated i g) as Hg.
  destruct (make_curve i g) as [c g']. cbn [fst] in Hg.
  apply IH. apply Forall_app. split; [exact Hc | now constructor].
Qed.

End Generation.


(** ** What writing leaves of a stream *)

Lemma string_app_nil_r (s : string) : (s ++ "")%string = s.
Proof. induction s as [| c s IH]; simpl; [reflexivity | now rewrite IH]. Qed.

Lemma appends_refl (os : ostream.t) : appends os os "".
Proof. unfold appends. now rewrite string_app_nil_r. Qed.

Lemma appends_trans (os1 os2 os3 : ostream.t) (t1 t2 : string) :
  appends os1 os2 t1 -> appends os2 os3 t2 -> appends os1 os3 (t1 ++ t2).
Proof.
  unfold appends. intros (F1 & P1 & B1) (F2 & P2 & B2).
  rewrite F2, P2, B2, F1, P1, B1. now rewrite string_app_assoc.
Qed.

Lemma put_string_appends (os : ostream.t) (s : string) :
  appends os (ostream.put_string os s) s.
Proof. now unfold appends. Qed.

Lemma put_double_appends (os : ostream.t) (d : float) :
  appends os (ostream.put_double os d) (ostream.format_double os d).
Proof. now unfold appends. Qed.

Lemma format_double_eq (os os' : ostream.t) (d : float) :
  ostream.fixed os' = ostream.fixed os ->
  ostream.precision os' = ostream.precision os ->
  ostream.format_double os' d = ostream.format_double os d.
Proof. unfold ostream.format_double. now intros -> ->. Qed.

Lemma appends_eq (os os' : ostream.t) (t t' : string) :
  appends os os' t -> t = t' -> appends os os' t'.
Proof. now intros H <-. Qed.

Lemma appends_put_string (os os' : ostream.t) (t s : string) :
  appends os os' t -> appends os (ostream.put_string os' s) (t ++ s).
Proof. intros H. apply (appends_trans H). apply put_string_appends. Qed.

Lemma appends_put_double (os os' : ostream.t) (t : string) (d : float) :
  appends os os' t ->
  appends os (ostream.put_double os' d) (t ++ ostream.format_double os d).
Proof.
  intros H. apply (appends_trans H).
  destruct H as (F & P & _). rewrite <- (@format_double_eq os os' d F P).
  apply put_double_appends.
Qed.

Lemma appends_operator_shl (os os' : ostream.t) (t : string) (v : vector3d.t) :
  appends os os' t ->
  appends os (vector3d.operator_shl os' v) (t ++ vector_text os v).
Proof.
  intros H. unfold vector3d.operator_shl.
  eapply appends_eq.
  - repeat first [apply appends_put_double | apply appends_put_string]. exact H.
  - unfold vector_text. now rewrite !string_app_assoc.
Qed.

Lemma appends_endl (os os' : ostream.t) (t : string) :
  appends os os' t -> appends os (ostream.endl os') (t ++ ostream.newline).
Proof. apply appends_put_string. Qed.

Section Printing.
Context {libm : LibM}.

Lemma print_curve_appends (os : ostream.t) (curve : object) :
  appends os (print_curve os curve) (curve_lines os curve).
Proof.
  unfold curve_lines, print_curve.
  generalize (calculate curve Double.M_PI_4) (derivative curve Double.M_PI_4).
  intros p d.
  eapply appends_eq.
  - apply appends_endl, appends_operator_shl, appends_put_string,
      appends_endl, appends_operator_shl, appends_put_string, appends_refl.
  - generalize (vector_text os p) (vector_text os d) ostream.newline.
    intros tp td nl. rewrite !string_app_assoc. reflexivity.
Qed.

Lemma vector_text_eq (os os' : ostream.t) (v : vector3d.t) :
  ostream.fixed os' = ostream.fixed os ->
  ostream.precision os' = ostream.precision os ->
  vector_text os' v = vector_text os v.
Proof.
  intros HF HP. unfold vector_text.
  now rewrite !(@format_double_eq os os' _ HF HP).
Qed.

Lemma curve_lines_eq (os os' : ostream.t) (curve : object) :
  ostream.fixed os' = ostream.fixed os ->
  ostream.precision os' = ostream.precision os ->
  curve_lines os' curve = curve_lines os curve.
Proof.
  intros HF HP. unfold curve_lines.
  now rewrite !(@vector_text_eq os os' _ HF HP).
Qed.

Lemma curves_lines_eq (os os' : ostream.t) (curves : list object) :
  ostream.fixed os' = ostream.fixed os ->
  ostream.precision os' = ostream.precision os ->
  curves_lines os' curves = curves_lines os curves.
Proof.
  intros HF HP. induction curves as [| c rest IH]; [reflexivity |].
  cbn [curves_lines]. now rewrite IH, (@curve_lines_eq os os' c HF HP).
Qed.

Lemma print_curves_appends (curves : list object) :
  forall os : ostream.t,
    appends os (print_curves os curves) (curves_lines os curves).
Proof.
  induction curves as [| c rest IH]; intros os.
  - apply appends_refl.
  - cbn [print_curves fold_left curves_lines].
    pose proof (print_curve_appends os c) as H1.
    pose proof (IH (print_curve os c)) as H2.
    destruct H1 as (F1 & P1 & B1).
    rewrite (@curves_lines_eq os (print_curve os c) rest F1 P1) in H2.
    apply appends_trans with (print_curve os c); [now split | exact H2].
Qed.

End Printing.


(** ** The report on the circles *)
Lemma report_circles_appends (os : ostream.t) (curves : list object)
      (first last : circle3d.t) :
  strict_weak_ordering radius_lt (collect_circles curves) = true ->
  front (std_sort radius_lt (collect_circles curves)) = Some first ->
  back (std_sort radius_lt (collect_circles curves)) = Some last ->
  exists os',
    report_circles os curves = Normal os'
    /\ appends os os'
         (report_text os (radius first) (radius last)
            (total_sum (collect_circles curves))).
Proof.
  intros Hsw Hf Hl. unfold report_circles. cbv zeta. rewrite Hsw, Hf, Hl.
  eexists. split; [reflexivity |].
  eapply appends_eq.
  - apply appends_endl, appends_put_double, appends_put_string, appends_endl,
      appends_put_double, appends_put_string, appends_put_double,
      appends_put_string, appends_refl.
  - unfold report_text, total_sum.
    generalize (ostream.format_double os (radius first))
               (ostream.format_double os (radius last)) ostream.newline.
    intros tf tl nl. rewrite !string_app_assoc. reflexivity.
Qed.

Lemma zsum_perm (l1 l2 : list Z) : Permutation l1 l2 -> zsum l1 = zsum l2.
Proof.
  unfold zsum. induction 1; simpl; lia.
Qed.

Lemma zsum_bounds (lo hi : Z) (l : list Z) :
  Forall (fun r => lo <= r <= hi)%Z l ->
  (lo * Z.of_nat (List.length l) <= zsum l <= hi * Z.of_nat (List.length l))%Z.
Proof.
  unfold zsum. induction 1 as [| r l Hr Hl IH]; simpl List.length; simpl fold_right.
  - lia.
  - rewrite Nat2Z.inj_succ. lia.
Qed.

Lemma fold_left_radius (l : list circle3d.t) (a : float) :
  fold_left (fun sum circle => sum + radius circle) l a
  = fold_left (fun sum x => sum + x) (map radius l) a.
Proof. revert a. induction l as [| c l IH]; intros a; simpl; [reflexivity | apply IH]. Qed.

(** Adding up to 32 more integers from 1 to 100 to an exact sum stays exact. *)
Lemma fold_left_of_int (rs : list Z) :
  Forall (fun r => 1 <= r <= 100)%Z rs ->
  forall s : Z,
    (0 <= s)%Z -> (s + 100 * Z.of_nat (List.length rs) <= 3300)%Z ->
    fold_left (fun sum x => sum + x) (map Double.of_int rs) (Double.of_int s)
    = Double.of_int (s + zsum rs).
Proof.
  unfold zsum. induction 1 as [| r rs Hr Hrs IH]; intros s Hs Hb.
  - simpl. f_equal. lia.
  - cbn [map fold_left fold_right]. cbn [List.length] in Hb.
    rewrite Nat2Z.inj_succ in Hb.
    rewrite of_int_add by lia. rewrite IH by lia. f_equal. lia.
Qed.

Lemma map_of_int_exists (l : list float) :
  Forall drawn l ->
  exists rs, l = map Double.of_int rs /\ Forall (fun r => 1 <= r <= 100)%Z rs.
Proof.
  induction 1 as [| x l (n & Hn & ->) Hl (rs & -> & Hrs)].
  - now exists [].
  - exists (n :: rs). split; [reflexivity | now constructor].
Qed.

Lemma generated_circles (curves : list object) :
  Forall generated curves ->
  Forall (fun c => drawn (radius c)) (collect_circles curves).
Proof.
  induction 1 as [| o rest Ho Hrest IH]; [constructor |].
  destruct o; cbn [collect_circles dynamic_cast_circle3d]; try exact IH.
  constructor; [| exact IH].
  destruct Ho as (x & y & r & _ & _ & Hr & ->). exact Hr.
Qed.

Lemma drawn_not_nan (x : float) : drawn x -> Double.is_nan x = false.
Proof.
  intros (n & Hn & ->).
  pose proof (of_int_leb Hn Hn) as H. rewrite Z.leb_refl in H.
  rewrite leb_spec in H. unfold Double.is_nan.
  destruct (Prim2SF (Double.of_int n)); try reflexivity. discriminate.
Qed.


Lemma report_circles_sorted :
  forall (os : ostream.t) (curves : list object),
    Forall radius_ok (collect_circles curves) ->
    collect_circles curves <> [] ->
    exists (first last : circle3d.t) (os' : ostream.t),
      In first (collect_circles curves)
      /\ In last (collect_circles curves)
      /\ (forall c, In c (collect_circles curves) ->
            radius_le first c /\ radius_le c last)
      /\ report_circles os curves = Normal os'
      /\ appends os os'
           (report_text os (radius first) (radius last)
              (total_sum (collect_circles curves))).
Proof.
  intros os curves Hok Hne.
  set (cs := collect_circles curves) in *.
  pose proof (std_sort_perm radius_lt cs) as Hp.
  pose proof (sorted_circles Hok) as Hs.
  assert (Hne' : std_sort radius_lt cs <> []).
  { intros E. rewrite E in Hp. apply Permutation_sym, Permutation_nil in Hp. contradiction. }
  destruct (proj1 (front_some _) Hne') as [f Hf].
  destruct (proj1 (back_some _) Hne') as [l Hl].
  destruct (report_circles_appends os curves (strict_weak_radius Hok) Hf Hl)
    as (os' & Hr & Ha).
  exists f, l, os'.
  assert (Hinf : In f cs).
  { apply (Permutation_in _ (Permutation_sym Hp)). now apply front_in. }
  assert (Hinl : In l cs).
  { apply (Permutation_in _ (Permutation_sym Hp)). now apply back_in. }
  split; [exact Hinf | split; [exact Hinl | split; [| split; [exact Hr | exact Ha]]]].
  intros c Hc.
  assert (Hgc : radius_ok c) by (rewrite Forall_forall in Hok; now apply Hok).
  apply (Permutation_in _ Hp) in Hc. split.
  - destruct (sorted_front_min Hs Hf c Hc) as [-> | H]; [| exact H].
    now apply leb_refl.
  - destruct (sorted_back_max Hs Hl c Hc) as [-> | H]; [| exact H].
    now apply leb_refl.
Qed.

Section MainOutput.
Context {libm : LibM} {random : Random}.
Hypothesis dis_range : forall g : generator, (1 <= fst (dis g) <= 100)%Z.

Lemma generate_generated (gen : generator) : Forall generated (fst (generate gen)).
Proof. apply generate_from_generated; [exact dis_range | constructor]. Qed.

(** X6: when the distribution yields integers from 1 to 100, as
    [uniform_int_distribution<int>(1, 100)] does, [main] returns 0 and its
    output is the two lines of every curve followed by
    [first: <min>, last: <max>] and [Total Sum of Radii: <sum>], where the 33
    radii are integers, <min> and <max> are the least and the greatest of
    them and <sum> is their exact sum, all three written as plain decimal
    integers. *)
Theorem main_output :
  forall gen : generator,
    exists (rs : list Z) (first last : Z),
      map radius (collect_circles (fst (generate gen))) = map Double.of_int rs
      /\ List.length rs = 33%nat
      /\ In first rs /\ In last rs
      /\ Forall (fun r => 1 <= first <= r /\ r <= last <= 100)%Z rs
      /\ main gen
         = Normal
             ((curves_lines ostream.init (fst (generate gen))
               ++ "first: " ++ Fmt.int_digits first
               ++ ", last: " ++ Fmt.int_digits last ++ ostream.newline
               ++ "Total Sum of Radii: " ++ Fmt.int_digits (zsum rs)
               ++ ostream.newline)%string, 0%Z).
Proof.
  intros gen.
  pose proof (generate_generated gen) as Hgen.
  assert (H33 : List.length (collect_circles (fst (generate gen))) = 33%nat).
  { rewrite collect_circles_length, generate_mask. reflexivity. }
  unfold main.
  destruct (generate gen) as [curves g'] eqn:Eg. cbn [fst] in *.
  set (cs := collect_circles curves) in *.
  assert (Hdrawn : Forall (fun c => drawn (radius c)) cs)
    by now apply generated_circles.
  assert (Hok : Forall radius_ok cs).
  { eapply Forall_impl; [| exact Hdrawn]. intros c. apply drawn_not_nan. }
  assert (Hne : cs <> []) by (intros E; rewrite E in H33; discriminate).
  (* the radii as integers *)
  destruct (@map_of_int_exists (map radius cs)) as (rs & Hrs & Hrange).
  { apply Forall_map. exact Hdrawn. }
  assert (Hlen : List.length rs = 33%nat).
  { rewrite <- H33, <- (length_map radius cs), Hrs. now rewrite length_map. }
  (* what is printed *)
  set (os := print_curves ostream.init curves).
  destruct (report_circles_sorted os curves Hok Hne)
    as (f & l & os' & Hinf & Hinl & Hext & Hr & Ha).
  fold cs in Hinf, Hinl, Hext, Ha.
  (* the integers of the first and the last *)
  assert (Hint : forall c, In c cs -> exists n, In n rs /\ radius c = Double.of_int n).
  { intros c Hc. apply (in_map radius) in Hc. rewrite Hrs in Hc.
    apply in_map_iff in Hc as (n & Hn & Hin). now exists n. }
  destruct (Hint f Hinf) as (nf & Hnf & Ef).
  destruct (Hint l Hinl) as (nl & Hnl & El).
  rewrite Forall_forall in Hrange.
  assert (Hbounds : Forall (fun r => 1 <= nf <= r /\ r <= nl <= 100)%Z rs).
  { apply Forall_forall. intros r Hr0.
    assert (Hc : In (Double.of_int r) (map radius cs)) by (rewrite Hrs; now apply in_map).
    apply in_map_iff in Hc as (c & Ec & Hc).
    destruct (Hext c Hc) as [H1 H2]. unfold radius_le in H1, H2.
    rewrite Ef, Ec in H1. rewrite El, Ec in H2.
    rewrite of_int_leb in H1, H2 by auto.
    apply Z.leb_le in H1, H2.
    pose proof (Hrange nf Hnf). pose proof (Hrange nl Hnl). lia. }
  (* the sum *)
  assert (Htotal : total_sum cs = Double.of_int (zsum rs)).
  { unfold total_sum. rewrite fold_left_radius.
    pose proof (std_sort_perm radius_lt cs) as Hp.
    apply (Permutation_map radius) in Hp. rewrite Hrs in Hp.
    apply Permutation_sym, Permutation_map_inv in Hp as (rs' & Ers' & Hp').
    rewrite Ers'.
    change 0 with (Double.of_int 0).
    rewrite fold_left_of_int.
    - f_equal. rewrite (zsum_perm Hp'). lia.
    - apply Forall_forall. intros r Hr0. apply Hrange.
      now apply (Permutation_in _ (Permutation_sym Hp')).
    - lia.
    - rewrite <- (Permutation_length Hp'), Hlen. lia. }
  exists rs, nf, nl.
  split; [exact Hrs | split; [exact Hlen | split; [exact Hnf | split; [exact Hnl |]]]].
  split; [exact Hbounds |].
  rewrite Hr. f_equal. f_equal.
  destruct Ha as (_ & _ & ->).
  pose proof (print_curves_appends curves ostream.init) as (F & P & B).
  fold os in F, P, B. rewrite B. cbn [ostream.buffer ostream.init append].
  f_equal.
  unfold report_text, ostream.format_double. rewrite F, P.
  cbn [ostream.fixed ostream.precision ostream.init].
  rewrite Ef, El, Htotal.
  assert (Hz : (nf * 33 <= zsum rs <= nl * 33)%Z).
  { change 33%Z with (Z.of_nat 33). rewrite <- Hlen. apply zsum_bounds.
    eapply Forall_impl; [| exact Hbounds]. cbv beta. intros r Hr0. lia. }
  pose proof (Hrange nf Hnf). pose proof (Hrange nl Hnl).
  rewrite !of_int_print by lia. reflexivity.
Qed.

End MainOutput.

Lemma linear_random_range :
  forall g : @generator linear_random, (1 <= fst (@dis linear_random g) <= 100)%Z.
Proof.
  intros g. cbn [dis linear_random fst].
  pose proof (Z.mod_pos_bound g 100 eq_refl). lia.
Qed.

Lemma main_output_witness :
  exists (rs : list Z) (first last : Z),
    map radius (collect_circles (fst (@generate linear_random 0%Z)))
    = map Double.of_int rs
    /\ List.length rs = 33%nat
    /\ In first rs /\ In last rs
    /\ Forall (fun r => 1 <= first <= r /\ r <= last <= 100)%Z rs
    /\ @main identity_libm linear_random 0%Z
       = Normal
           ((@curves_lines identity_libm ostream.init
               (fst (@generate linear_random 0%Z))
             ++ "first: " ++ Fmt.int_digits first
             ++ ", last: " ++ Fmt.int_digits last ++ ostream.newline
             ++ "Total Sum of Radii: " ++ Fmt.int_digits (zsum rs)
             ++ ostream.newline)%string, 0%Z).
Proof.
  exact (@main_output identity_libm linear_random linear_random_range 0%Z).
Defined.

(** X3: when no radius is a NaN and there is at least one circle,
    [report_circles] ends normally, leaves the format of the stream as it
    was and appends two lines: the radius of a circle of the collection that
    no circle is smaller than, the radius of one that no circle is greater
    than, and the sum of the radii added in sorted order. *)
Theorem report_circles_extremes :
  forall (os : ostream.t) (curves : list object),
    Forall radius_ok (collect_circles curves) ->
    collect_circles curves <> [] ->
    exists (first last : circle3d.t) (os' : ostream.t),
      In first (collect_circles curves)
      /\ In last (collect_circles curves)
      /\ (forall c, In c (collect_circles curves) ->
            radius_le first c /\ radius_le c last)
      /\ report_circles os curves = Normal os'
      /\ appends os os'
           (report_text os (radius first) (radius last)
              (total_sum (collect_circles curves))).
Proof. intros os curves Hok Hne. now apply report_circles_sorted. Qed.

Lemma report_circles_extremes_witness :
  exists (first last : circle3d.t) (os' : ostream.t),
    let curves := [Circle3d (circle3d.ctor3 0 0 3);
                   Ellipse3d (ellipse3d.ctor4 0 0 1 2);
                   Circle3d (circle3d.ctor3 0 0 1)] in
    In first (collect_circles curves)
    /\ In last (collect_circles curves)
    /\ (forall c, In c (collect_circles curves) ->
          radius_le first c /\ radius_le c last)
    /\ report_circles ostream.init curves = Normal os'
    /\ appends ostream.init os'
         (report_text ostream.init (radius first) (radius last)
            (total_sum (collect_circles curves))).
Proof.
  apply (report_circles_extremes ostream.init
           [Circle3d (circle3d.ctor3 0 0 3);
            Ellipse3d (ellipse3d.ctor4 0 0 1 2);
            Circle3d (circle3d.ctor3 0 0 1)]).
  - repeat constructor.
  - discriminate.
Defined.

(** X1: the loop with [dynamic_cast] keeps exactly the circles of the
    collection, in their order: no other object enters the vector and no
    circle is left out. *)
Theorem collect_circles_filter :
  forall curves : list object,
    map Circle3d (collect_circles curves) = filter is_circle curves
    /\ (forall c, In c (collect_circles curves) <-> In (Circle3d c) curves).
Proof.
  intros curves.
  assert (H : map Circle3d (collect_circles curves) = filter is_circle curves).
  { induction curves as [| o rest IH]; [reflexivity |].
    destruct o; cbn [collect_circles dynamic_cast_circle3d filter is_circle map];
      now rewrite ?IH. }
  split; [exact H |].
  intros c. split.
  - intros Hc. apply (in_map Circle3d) in Hc. rewrite H in Hc.
    now apply filter_In in Hc.
  - intros Hc. assert (Hf : In (Circle3d c) (filter is_circle curves))
      by (apply filter_In; now split).
    rewrite <- H in Hf. apply in_map_iff in Hf as (c' & E & Hc').
    now injection E as ->.
Qed.

(** X2: whatever the random engine yields, the call of [std::sort] in
    [main] meets the requirement of the standard: no radius in
    [circleContainer] is a NaN, and the comparison [a->a < b->a] is a strict
    weak ordering of its elements. *)
Theorem main_sort_requirement :
  forall (random : Random) (gen : generator),
    let circleContainer := collect_circles (fst (generate gen)) in
    Forall radius_ok circleContainer
    /\ strict_weak_ordering radius_lt circleContainer = true.
Proof.
  intros random gen circleContainer.
  pose proof (generate_radius_ok gen) as Hok. fold circleContainer in Hok.
  split; [exact Hok | now apply strict_weak_radius].
Qed.

(** X4: whatever the engine yields, the object created in iteration [i] is
    an ellipse, a circle or a helix as [i mod 3] is 0, 1 or 2, which makes 34
    ellipses, 33 circles and 33 helices, and the loop draws exactly 400
    numbers. *)
Theorem generate_kinds_and_draws :
  forall (random : Random) (gen : generator),
    map kind (fst (generate gen)) = map (fun i => (i mod 3)%nat) (seq 0 100)
    /\ count_occ Nat.eq_dec (map kind (fst (generate gen))) 0%nat = 34%nat
    /\ count_occ Nat.eq_dec (map kind (fst (generate gen))) 1%nat = 33%nat
    /\ count_occ Nat.eq_dec (map kind (fst (generate gen))) 2%nat = 33%nat
    /\ snd (generate gen) = advance 400 gen.
Proof.
  intros random gen.
  rewrite generate_kinds. repeat split.
  unfold generate. now rewrite generate_from_advance.
Qed.

(** X5: when the distribution yields integers from 1 to 100, every object of
    the collection is built from such integers alone: an ellipse and a circle
    by the constructor that puts the anchor at z = 0, a circle with both axes
    equal to its radius, a helix by the constructor that makes it circular
    with phase 0; and its class is the one its index selects. *)
Theorem generate_objects :
  forall (random : Random),
    (forall g : generator, (1 <= fst (dis g) <= 100)%Z) ->
    forall (gen : generator) (i : nat) (o : object),
      nth_error (fst (generate gen)) i = Some o ->
      generated o /\ kind o = (i mod 3)%nat.
Proof.
  intros random Hrange gen i o Ho. split.
  - pose proof (@generate_generated random Hrange gen) as H.
    rewrite Forall_forall in H. apply H. now apply nth_error_In with i.
  - pose proof (generate_kinds gen) as Hk.
    pose proof (nth_error_map kind i (fst (generate gen))) as Hm.
    rewrite Ho, Hk, nth_error_map, nth_error_seq in Hm.
    destruct (i <? 100)%nat; [| discriminate].
    cbn [option_map Nat.add] in Hm. now injection Hm as Hm.
Qed.

Lemma generate_objects_witness :
  generated (Circle3d (circle3d.ctor3 (Double.of_int 49) (Double.of_int 86)
                         (Double.of_int 23)))
  /\ kind (Circle3d (circle3d.ctor3 (Double.of_int 49) (Double.of_int 86)
                       (Double.of_int 23))) = (1 mod 3)%nat.
Proof.
  apply (@generate_objects linear_random linear_random_range 0%Z 1%nat).
  vm_compute. reflexivity.
Defined.

(** X8: on a stream set to [fixed] with precision 2, [operator<<] appends
    exactly the string that [str()] returns and leaves the format of the
    stream unchanged. *)
Theorem operator_shl_fixed_is_str :
  forall (os : ostream.t) (v : vector3d.t),
    ostream.fixed os = true -> ostream.precision os = 2%nat ->
    appends os (vector3d.operator_shl os v) (vector3d.str v).
Proof.
  intros os v HF HP.
  eapply appends_eq; [apply appends_operator_shl, appends_refl |].
  rewrite str_fixed. unfold vector_text, ostream.format_double.
  rewrite HF, HP. reflexivity.
Qed.

Lemma operator_shl_fixed_is_str_witness :
  appends (ostream.setprecision 2 (ostream.set_fixed ostream.init))
    (vector3d.operator_shl (ostream.setprecision 2 (ostream.set_fixed ostream.init))
       (vector3d.make d1_005 (-2) 0))
    (vector3d.str (vector3d.make d1_005 (-2) 0)).
Proof.
  apply (operator_shl_fixed_is_str
           (ostream.setprecision 2 (ostream.set_fixed ostream.init))
           (vector3d.make d1_005 (-2) 0)); reflexivity.
Defined.

(** X7: printing the curves never changes the format of the stream and only
    appends to it: for each curve, in order, one [Point: {x,y,z}] line and
    one [Derivative: {x,y,z}] line, with the point and the derivative at
    [M_PI_4]. *)
Theorem print_curves_frame :
  forall (libm : LibM) (os : ostream.t) (curves : list object),
    appends os (print_curves os curves) (curves_lines os curves).
Proof. intros libm os curves. apply print_curves_appends. Qed.

(** ** The start of a helix *)

Lemma mul_zero_finite (s : float) :
  Double.is_finite s = true -> exists b, Prim2SF (0 * s) = S754_zero b.
Proof.
  unfold Double.is_finite. intros H. rewrite mul_spec.
  change (Prim2SF 0) with (S754_zero false).
  destruct (Prim2SF s) as [b | b | | b m e]; try discriminate; cbn; eauto.
Qed.

Lemma add_zero_r (z w : float) (b : bool) :
  Double.is_nan z = false -> Prim2SF w = S754_zero b -> (z + w =? z) = true.
Proof.
  unfold Double.is_nan. intros Hz Hw.
  rewrite FloatAxioms.eqb_spec, add_spec, Hw.
  destruct (Prim2SF z) as [s | s | | s m e]; try discriminate.
  - now destruct s, b.
  - now destruct s.
  - cbn. destruct s; now rewrite Z.compare_refl, Pos.compare_cont_refl.
Qed.

(** X9: a helix built by the five-argument constructor starts at the height
    of its anchor: when [step] is finite and the anchor's Z is not a NaN, the
    Z of the point at angle 0 equals, under [==], the anchor's Z. *)
Theorem helix_start :
  forall (libm : LibM) (x y z r step : float),
    Double.is_finite step = true -> Double.is_nan z = false ->
    (vector3d.z (helix3d.calculate (helix3d.ctor5 x y z r step) 0) =? z) = true.
Proof.
  intros libm x y z r step Hs Hz.
  unfold helix3d.calculate, helix3d.ctor5, helix3d.ctor7, helix3d.position.
  cbn [vector3d.z helix3d.base helix3d.step helix3d.angle_start
       curve3d.ctor curve3d.position].
  change ((0 + 0) / (Double.M_PI * 2)) with 0.
  destruct (mul_zero_finite step Hs) as [b Hb].
  now apply add_zero_r with b.
Qed.

Lemma helix_start_witness :
  (vector3d.z (@helix3d.calculate identity_libm (helix3d.ctor5 1 2 3 4 5) 0) =? 3)
  = true.
Proof.
  apply (helix_start identity_libm 1 2 3 4 5); reflexivity.
Defined.

(* ================================================================== *)
(** * The height of a helix

    The height [z + (angle_start + angle) / (2 pi) * step] of a helix point
    is composed of roundings, each of them monotone. *)

Unset Implicit Arguments.
Local Open Scope R_scope.

Section HelixHeight.
Context {libm : LibM}.

Local Open Scope float_scope.

(** The height [z] of a helix point, as [calculate] computes it. *)
Lemma helix_z_eq (h : helix3d.t) (t : float) :
  vector3d.z (helix3d.calculate h t)
  = vector3d.z (helix3d.position h)
    + (helix3d.angle_start h + t) / (Double.M_PI * 2) * helix3d.step h.
Proof. reflexivity. Qed.

Lemma turns_finite (u : float) :
  Double.is_finite u = true -> Double.is_finite (u / (Double.M_PI * 2)) = true.
Proof.
  intros Hu. apply finite_prim. rewrite div_spec, two_pi_SF.
  apply SFdiv_ge1_finite; [now apply prim_valid_finite | exact two_pi_ge_1].
Qed.

Lemma turns_mono (u1 u2 : float) :
  Double.is_finite u1 = true -> Double.is_finite u2 = true ->
  (u1 <=? u2) = true ->
  (u1 / (Double.M_PI * 2) <=? u2 / (Double.M_PI * 2)) = true.
Proof.
  intros H1 H2 Hle. rewrite leb_spec in *. rewrite !div_spec, two_pi_SF.
  apply SFdiv_mono_l; [now apply prim_valid_finite .. | exact Hle].
Qed.

Lemma mul_finite_not_nan (q s : float) :
  Double.is_finite q = true -> Double.is_finite s = true ->
  Prim2SF (q * s) <> S754_nan.
Proof.
  intros Hq Hs. rewrite mul_spec.
  destruct (prim_valid_finite q Hq) as [Vq Fq].
  destruct (prim_valid_finite s Hs) as [Vs Fs].
  apply rounds_not_nan with (B2R (Prim2SF q) * B2R (Prim2SF s))%R.
  now apply SFmul_rounds.
Qed.

Lemma helix_z_monotone_aux (oz a0 st t1 t2 : float) :
  Double.is_finite oz = true ->
  Double.is_finite st = true ->
  (0 <=? st) = true ->
  Double.is_finite (a0 + t1) = true ->
  Double.is_finite (a0 + t2) = true ->
  (t1 <=? t2) = true ->
  (oz + (a0 + t1) / (Double.M_PI * 2) * st
   <=? oz + (a0 + t2) / (Double.M_PI * 2) * st) = true.
Proof.
  intros Hoz Hst Hpos Hu1 Hu2 Hle.
  destruct (add_finite_args _ _ Hu1) as [Ha0 Ht1].
  destruct (add_finite_args _ _ Hu2) as [_ Ht2].
  assert (Hu : (a0 + t1 <=? a0 + t2) = true).
  { rewrite leb_spec in *. rewrite !add_spec.
    apply SFadd_mono_finite; [now apply prim_valid_finite .. | exact Hle]. }
  pose proof (turns_mono _ _ Hu1 Hu2 Hu) as Hq.
  pose proof (turns_finite _ Hu1) as Hq1. pose proof (turns_finite _ Hu2) as Hq2.
  set (q1 := (a0 + t1) / (Double.M_PI * 2)) in *.
  set (q2 := (a0 + t2) / (Double.M_PI * 2)) in *.
  pose proof (prim_nonneg _ Hst Hpos) as Hst0.
  assert (Hp : (q1 * st <=? q2 * st) = true).
  { rewrite leb_spec in *. rewrite !mul_spec.
    apply SFmul_mono_l; [now apply prim_valid_finite .. | exact Hst0 | exact Hq]. }
  rewrite leb_spec in *. rewrite !add_spec.
  apply SFadd_mono_r.
  - now apply prim_valid_finite.
  - apply Prim2SF_valid.
  - apply Prim2SF_valid.
  - now apply mul_finite_not_nan.
  - now apply mul_finite_not_nan.
  - exact Hp.
Qed.

End HelixHeight.

Lemma SFmul_anti_l (c p1 p2 : spec_float) :
  valid_finite_sf c -> valid_finite_sf p1 -> valid_finite_sf p2 ->
  B2R c <= 0 -> SFleb p1 p2 = true ->
  SFleb (SFmul prec emax p2 c) (SFmul prec emax p1 c) = true.
Proof.
  intros [Vc Fc] [V1 F1] [V2 F2] Hc Hle.
  apply rounds_mono with (B2R p2 * B2R c) (B2R p1 * B2R c).
  - now apply SFmul_rounds.
  - now apply SFmul_rounds.
  - pose proof (SFleb_B2R p1 p2 V1 V2 F1 F2 Hle). nra.
Qed.

Lemma prim_nonpos (x : float) :
  Double.is_finite x = true -> (x <=? 0)%float = true -> B2R (Prim2SF x) <= 0.
Proof.
  intros Hf Hle. rewrite leb_spec in Hle.
  destruct (prim_valid_finite x Hf) as [V F].
  change (Prim2SF 0%float) with (S754_zero false) in Hle.
  exact (SFleb_B2R (Prim2SF x) (S754_zero false) V eq_refl F I Hle).
Qed.

Section HelixHeightMore.
Context {libm : LibM}.

Local Open Scope float_scope.

Lemma helix_z_antitone_aux (oz a0 st t1 t2 : float) :
  Double.is_finite oz = true ->
  Double.is_finite st = true ->
  (st <=? 0) = true ->
  Double.is_finite (a0 + t1) = true ->
  Double.is_finite (a0 + t2) = true ->
  (t1 <=? t2) = true ->
  (oz + (a0 + t2) / (Double.M_PI * 2) * st
   <=? oz + (a0 + t1) / (Double.M_PI * 2) * st) = true.
Proof.
  intros Hoz Hst Hneg Hu1 Hu2 Hle.
  destruct (add_finite_args _ _ Hu1) as [Ha0 Ht1].
  destruct (add_finite_args _ _ Hu2) as [_ Ht2].
  assert (Hu : (a0 + t1 <=? a0 + t2) = true).
  { rewrite leb_spec in *. rewrite !add_spec.
    apply SFadd_mono_finite; [now apply prim_valid_finite .. | exact Hle]. }
  pose proof (turns_mono _ _ Hu1 Hu2 Hu) as Hq.
  pose proof (turns_finite _ Hu1) as Hq1. pose proof (turns_finite _ Hu2) as Hq2.
  set (q1 := (a0 + t1) / (Double.M_PI * 2)) in *.
  set (q2 := (a0 + t2) / (Double.M_PI * 2)) in *.
  pose proof (prim_nonpos _ Hst Hneg) as Hst0.
  assert (Hp : (q2 * st <=? q1 * st) = true).
  { rewrite leb_spec in *. rewrite !mul_spec.
    apply SFmul_anti_l; [now apply prim_valid_finite .. | exact Hst0 | exact Hq]. }
  rewrite leb_spec in *. rewrite !add_spec.
  apply SFadd_mono_r.
  - now apply prim_valid_finite.
  - apply Prim2SF_valid.
  - apply Prim2SF_valid.
  - now apply mul_finite_not_nan.
  - now apply mul_finite_not_nan.
  - exact Hp.
Qed.

Lemma helix_z_not_nan_aux (oz a0 st t : float) :
  Double.is_finite oz = true ->
  Double.is_finite st = true ->
  Double.is_finite (a0 + t) = true ->
  Double.is_nan (oz + (a0 + t) / (Double.M_PI * 2) * st) = false.
Proof.
  intros Hoz Hst Hu.
  pose proof (turns_finite _ Hu) as Hq.
  pose proof (mul_finite_not_nan _ _ Hq Hst) as Hp.
  assert (H : Prim2SF (oz + (a0 + t) / (Double.M_PI * 2) * st) <> S754_nan).
  { rewrite add_spec. apply SFadd_finite_not_nan.
    - now apply prim_valid_finite.
    - apply Prim2SF_valid.
    - exact Hp. }
  unfold Double.is_nan.
  destruct (Prim2SF (oz + (a0 + t) / (Double.M_PI * 2) * st)); easy.
Qed.

End HelixHeightMore.

(** X10: with a finite anchor height and a finite pitch [step >= 0], the
    height of the helix point does not decrease when the angle grows: for
    [t1 <= t2] whose sums with [angle_start] are finite, the Z of
    [calculate t1] is [<=] the Z of [calculate t2], every rounding of the
    computation included. *)
Theorem helix_z_monotone :
  forall (libm : LibM) (h : helix3d.t) (t1 t2 : float),
    Double.is_finite (vector3d.z (helix3d.position h)) = true ->
    Double.is_finite (helix3d.step h) = true ->
    (0 <=? helix3d.step h)%float = true ->
    Double.is_finite (helix3d.angle_start h + t1)%float = true ->
    Double.is_finite (helix3d.angle_start h + t2)%float = true ->
    (t1 <=? t2)%float = true ->
    (vector3d.z (helix3d.calculate h t1)
     <=? vector3d.z (helix3d.calculate h t2))%float = true.
Proof.
  intros libm h t1 t2 Hoz Hst Hpos Hu1 Hu2 Hle.
  rewrite !helix_z_eq. now apply helix_z_monotone_aux.
Qed.

Lemma helix_z_monotone_witness :
  (vector3d.z (@helix3d.calculate identity_libm
                 (helix3d.ctor7 0 0 100 1 1 1 0) 1)
   <=? vector3d.z (@helix3d.calculate identity_libm
                     (helix3d.ctor7 0 0 100 1 1 1 0) 0x1.0000000000001p+0))%float
  = true.
Proof.
  apply (helix_z_monotone identity_libm (helix3d.ctor7 0 0 100 1 1 1 0)
           1 0x1.0000000000001p+0);
    vm_compute; reflexivity.
Defined.

(** C5, as the specification states it, fails: with a pitch of 1 and the
    anchor at height 100, the angles 1 and 1 + 2^-52 are different and the
    heights of their points round to the same double. *)
Lemma helix_z_not_strict :
  (0 <? helix3d.step (helix3d.ctor7 0 0 100 1 1 1 0))%float = true
  /\ (1 <? 0x1.0000000000001p+0)%float = true
  /\ (vector3d.z (@helix3d.calculate identity_libm
                    (helix3d.ctor7 0 0 100 1 1 1 0) 1)
      <? vector3d.z (@helix3d.calculate identity_libm
                       (helix3d.ctor7 0 0 100 1 1 1 0) 0x1.0000000000001p+0))%float
     = false.
Proof. repeat split; vm_compute; reflexivity. Qed.

Lemma leb_not_gtb (x y : float) : (x <=? y)%float = true -> (y <? x)%float = false.
Proof.
  intros H. rewrite leb_spec in H. rewrite ltb_spec.
  assert (Nx : Prim2SF x <> S754_nan) by (intros E; rewrite E in H; discriminate).
  assert (Ny : Prim2SF y <> S754_nan)
    by (intros E; rewrite E in H; destruct (Prim2SF x) as [[|]|[|]| |[|]]; discriminate).
  apply (SFleb_key Nx Ny) in H.
  destruct (SFltb (Prim2SF y) (Prim2SF x)) eqn:E; [| reflexivity].
  apply (SFltb_key Ny Nx) in E.
  destruct (order_key (Prim2SF x)) as [[a1 b1] c1],
           (order_key (Prim2SF y)) as [[a2 b2] c2].
  cbn [lex_le lex_lt] in *. lia.
Qed.

Lemma ltb_leb_true (x y : float) : (x <? y)%float = true -> (x <=? y)%float = true.
Proof.
  intros H. rewrite ltb_spec in H. rewrite leb_spec.
  unfold SFltb in H. unfold SFleb.
  destruct (SFcompare (Prim2SF x) (Prim2SF y)) as [[| |] |]; easy.
Qed.

(** C5, amended: with a finite anchor height, a finite pitch and finite sums
    [angle_start + angle], the height of a helix point never decreases when
    the angle grows and the pitch is not negative.  For a positive pitch and
    [t1 < t2] the height at [t1] is at most the height at [t2] and never
    greater; rounding can make the two equal. *)
Theorem helix_z_order :
  forall (libm : LibM) (h : helix3d.t) (t1 t2 : float),
    Double.is_finite (vector3d.z (helix3d.position h)) = true ->
    Double.is_finite (helix3d.step h) = true ->
    Double.is_finite (helix3d.angle_start h + t1)%float = true ->
    Double.is_finite (helix3d.angle_start h + t2)%float = true ->
    ((0 <? helix3d.step h)%float = true -> (t1 <? t2)%float = true ->
       (vector3d.z (helix3d.calculate h t1)
        <=? vector3d.z (helix3d.calculate h t2))%float = true
       /\ (vector3d.z (helix3d.calculate h t2)
           <? vector3d.z (helix3d.calculate h t1))%float = false)
    /\ ((0 <=? helix3d.step h)%float = true -> (t1 <=? t2)%float = true ->
        (vector3d.z (helix3d.calculate h t1)
         <=? vector3d.z (helix3d.calculate h t2))%float = true).
Proof.
  intros libm h t1 t2 Hoz Hst Hu1 Hu2.
  assert (Hmono : (0 <=? helix3d.step h)%float = true -> (t1 <=? t2)%float = true ->
                  (vector3d.z (helix3d.calculate h t1)
                   <=? vector3d.z (helix3d.calculate h t2))%float = true).
  { intros Hpos Hle. rewrite !helix_z_eq. now apply helix_z_monotone_aux. }
  split; [| exact Hmono].
  intros Hpos Hlt.
  assert (Hle : (vector3d.z (helix3d.calculate h t1)
                 <=? vector3d.z (helix3d.calculate h t2))%float = true)
    by (apply Hmono; now apply ltb_leb_true).
  split; [exact Hle | now apply leb_not_gtb].
Qed.

Lemma helix_z_order_witness :
  (vector3d.z (@helix3d.calculate identity_libm
                 (helix3d.ctor7 0 0 100 1 1 1 0.5) 1)
   <=? vector3d.z (@helix3d.calculate identity_libm
                     (helix3d.ctor7 0 0 100 1 1 1 0.5) 2))%float = true
  /\ (vector3d.z (@helix3d.calculate identity_libm
                    (helix3d.ctor7 0 0 100 1 1 1 0.5) 2)
      <? vector3d.z (@helix3d.calculate identity_libm
                       (helix3d.ctor7 0 0 100 1 1 1 0.5) 1))%float = false.
Proof.
  destruct (helix_z_order identity_libm (helix3d.ctor7 0 0 100 1 1 1 0.5) 1 2
              eq_refl eq_refl eq_refl eq_refl) as [H _].
  apply H; reflexivity.
Defined.

(** X11: with a finite anchor height and a finite pitch [step <= 0], the
    height of the helix point does not increase when the angle grows. *)
Theorem helix_z_antitone :
  forall (libm : LibM) (h : helix3d.t) (t1 t2 : float),
    Double.is_finite (vector3d.z (helix3d.position h)) = true ->
    Double.is_finite (helix3d.step h) = true ->
    (helix3d.step h <=? 0)%float = true ->
    Double.is_finite (helix3d.angle_start h + t1)%float = true ->
    Double.is_finite (helix3d.angle_start h + t2)%float = true ->
    (t1 <=? t2)%float = true ->
    (vector3d.z (helix3d.calculate h t2)
     <=? vector3d.z (helix3d.calculate h t1))%float = true.
Proof.
  intros libm h t1 t2 Hoz Hst Hneg Hu1 Hu2 Hle.
  rewrite !helix_z_eq. now apply helix_z_antitone_aux.
Qed.

Lemma helix_z_antitone_witness :
  (vector3d.z (@helix3d.calculate identity_libm
                 (helix3d.ctor7 0 0 100 1 1 (-3) 0.5) 7)
   <=? vector3d.z (@helix3d.calculate identity_libm
                     (helix3d.ctor7 0 0 100 1 1 (-3) 0.5) 2))%float
  = true.
Proof.
  apply (helix_z_antitone identity_libm (helix3d.ctor7 0 0 100 1 1 (-3) 0.5) 2 7);
    vm_compute; reflexivity.
Defined.

(** X12: the height of a helix point is never a NaN when the anchor height,
    the pitch and the sum [angle_start + angle] are finite. *)
Theorem helix_z_not_nan :
  forall (libm : LibM) (h : helix3d.t) (t : float),
    Double.is_finite (vector3d.z (helix3d.position h)) = true ->
    Double.is_finite (helix3d.step h) = true ->
    Double.is_finite (helix3d.angle_start h + t)%float = true ->
    Double.is_nan (vector3d.z (helix3d.calculate h t)) = false.
Proof.
  intros libm h t Hoz Hst Hu.
  rewrite helix_z_eq. now apply helix_z_not_nan_aux.
Qed.

Lemma helix_z_not_nan_witness :
  Double.is_nan
    (vector3d.z (@helix3d.calculate identity_libm
                   (helix3d.ctor7 0 0 0x1p+1023 1 1 0x1p+1023 0) 0x1p+10))
  = false.
Proof.
  apply (helix_z_not_nan identity_libm
           (helix3d.ctor7 0 0 0x1p+1023 1 1 0x1p+1023 0) 0x1p+10);
    vm_compute; reflexivity.
Defined.

(** X13: the Z of the tangent of a helix is finite whenever the pitch is,
    and has the sign of the pitch. *)
Theorem helix_derivative_z :
  forall (libm : LibM) (h : helix3d.t) (t : float),
    Double.is_finite (helix3d.step h) = true ->
    Double.is_finite (vector3d.z (helix3d.derivative h t)) = true
    /\ ((0 <=? helix3d.step h)%float = true ->
        (0 <=? vector3d.z (helix3d.derivative h t))%float = true)
    /\ ((helix3d.step h <=? 0)%float = true ->
        (vector3d.z (helix3d.derivative h t) <=? 0)%float = true).
Proof.
  intros libm h t Hst.
  change (vector3d.z (helix3d.derivative h t))
    with (helix3d.step h / (Double.M_PI * 2))%float.
  assert (H0 : Double.is_finite 0%float = true) by reflexivity.
  assert (E0 : (0 / (Double.M_PI * 2))%float = 0%float) by (vm_compute; reflexivity).
  split; [now apply turns_finite | split]; intros Hs.
  - rewrite <- E0 at 1. now apply turns_mono.
  - rewrite <- E0 at 1. now apply turns_mono.
Qed.

Lemma helix_derivative_z_witness :
  Double.is_finite
    (vector3d.z (@helix3d.derivative identity_libm (helix3d.ctor5 1 2 3 4 5) 0))
  = true
  /\ (0 <=? vector3d.z (@helix3d.derivative identity_libm
                          (helix3d.ctor5 1 2 3 4 5) 0))%float = true.
Proof.
  destruct (helix_derivative_z identity_libm (helix3d.ctor5 1 2 3 4 5) 0 eq_refl)
    as (Hfin & Hpos & _).
  split; [exact Hfin | apply Hpos; reflexivity].
Defined.
